(** * chimera-torch: MISI phase reconstruction and permutation-invariant losses

    A shallow embedding of [torchchimera/losses.py],
    [torchchimera/submodels.py] and [torchchimera/datasets.py].

    Conventions of the embedding.
    - Tensor entries are real numbers ([R]): every statement below is about
      exact real arithmetic, rounding and the IEEE special values are not
      modelled.
    - A tensor is a nested list, outermost dimension first; a trailing
      dimension of size two (real part, imaginary part) is a pair.
    - Python exceptions are the [Raise] results of a small error monad.
    - Elementwise operations follow the shorter operand where PyTorch would
      reject or broadcast operands of different shapes; the theorems are
      about operands whose shapes agree, as the shape comments of the
      source require. *)

From Stdlib Require Import Reals Lra Lia List ZArith Permutation Bool.
Import ListNotations.
Open Scope R_scope.

(** ** Python exceptions *)

Module Exn.

Inductive exn : Type :=
| NotImplementedError
| RuntimeError
| ValueError
| ZeroDivisionError.

Inductive result (A : Type) : Type :=
| Ok (a : A)
| Raise (e : exn).
Arguments Ok {A} a.
Arguments Raise {A} e.

Definition bind {A B} (m : result A) (k : A -> result B) : result B :=
  match m with
  | Ok a => k a
  | Raise e => Raise e
  end.

(** Running a generator to its end: the values it yields, or the first
    exception raised while producing one. *)
Fixpoint collect {A} (g : list (result A)) : result (list A) :=
  match g with
  | [] => Ok []
  | x :: g' => bind x (fun a => bind (collect g') (fun l => Ok (a :: l)))
  end.

End Exn.
Export Exn.

Notation "x <- m ;; k" := (bind m (fun x => k))
  (at level 61, m at next level, right associativity).

(** ** Python builtins and itertools *)

Module Py.

(** [sum(iterable)]: left to right, starting from 0. *)
Definition sum (l : list R) : R := fold_left Rplus l 0.

(** [min(iterable)]: the first of the smallest items; an empty iterable is a
    [ValueError]. *)
Fixpoint min_from (m : R) (l : list R) : R :=
  match l with
  | [] => m
  | x :: l' => min_from (if Rlt_dec x m then x else m) l'
  end.

Definition min (l : list R) : result R :=
  match l with
  | [] => Raise ValueError
  | x :: l' => Ok (min_from x l')
  end.

(** [sum(g)] and [min(g)] over a generator expression. *)
Definition sum_gen (g : list (result R)) : result R :=
  bind (collect g) (fun l => Ok (sum l)).

Definition min_gen (g : list (result R)) : result R :=
  bind (collect g) min.

(** [zip(a, b)] stops with the shorter argument. *)
Definition zip {A B} (a : list A) (b : list B) : list (A * B) := combine a b.

(** [range(n)] is empty for [n <= 0]. *)
Definition range (n : Z) : list Z := map Z.of_nat (seq 0 (Z.to_nat n)).

(** [a // b] on non-negative integers. *)
Definition floordiv (a b : nat) : result nat :=
  match b with
  | O => Raise ZeroDivisionError
  | _ => Ok (Nat.div a b)
  end.

(** [itertools.permutations(l)]: every ordering of the items, by position,
    in lexicographic order of the positions. [picks l] lists each item with
    the others, in order. *)
Fixpoint picks {A} (l : list A) : list (A * list A) :=
  match l with
  | [] => []
  | x :: xs => (x, xs) :: map (fun p => (fst p, x :: snd p)) (picks xs)
  end.

Fixpoint permutations_of {A} (n : nat) (l : list A) : list (list A) :=
  match n with
  | O => [[]]
  | S n' =>
      flat_map (fun p => map (cons (fst p)) (permutations_of n' (snd p)))
               (picks l)
  end.

Definition permutations {A} (l : list A) : list (list A) :=
  permutations_of (length l) l.

End Py.

(** ** PyTorch tensor primitives *)

Module Torch.

(** A trailing dimension of size two: (real, imaginary). *)
Definition cplx : Type := R * R.

(** Elementwise binary operation on two tensors of one shape. *)
Fixpoint map2 {A B C} (f : A -> B -> C) (a : list A) (b : list B) : list C :=
  match a, b with
  | x :: a', y :: b' => f x y :: map2 f a' b'
  | _, _ => []
  end.

(** The same, entry by entry, through 2, 3 or 4 dimensions. *)
Definition map_2 {A B} (f : A -> B) := map (map f).
Definition map_3 {A B} (f : A -> B) := map (map (map f)).
Definition map_4 {A B} (f : A -> B) := map (map (map (map f))).
Definition map2_2 {A B C} (f : A -> B -> C) := map2 (map2 f).
Definition map2_3 {A B C} (f : A -> B -> C) := map2 (map2 (map2 f)).

(** A dimension of size 1 is broadcast against a dimension of size [n]. *)
Definition expand {A} (n : nat) (x : list A) : list A :=
  match x with
  | [a] => repeat a n
  | _ => x
  end.

Definition bmap2 {A B C} (f : A -> B -> C) (a : list A) (b : list B)
  : list C :=
  map2 f a (expand (length a) b).

(** [torch.sum(x)] of a tensor of 1, 2, 3 dimensions: all entries. *)
Definition sum1 (x : list R) : R := fold_right Rplus 0 x.
Definition sum2 (x : list (list R)) : R := sum1 (map sum1 x).
Definition sum3 (x : list (list (list R))) : R := sum1 (map sum2 x).

(** [torch.stack(tensors)] (along a new first dimension) rejects an empty
    sequence. *)
Definition stack {A} (tensors : list A) : result (list A) :=
  match tensors with
  | [] => Raise RuntimeError
  | _ => Ok tensors
  end.

(** [x.clamp(min=m)] *)
Definition clamp_min (m x : R) : R := Rmax x m.

(** [torch.atan2(y, x)]: the angle of the point (x, y), in (-pi, pi]. *)
Definition atan2 (y x : R) : R :=
  if Rlt_dec 0 x then atan (y / x)
  else if Rlt_dec x 0 then
    if Rle_dec 0 y then atan (y / x) + PI else atan (y / x) - PI
  else if Rlt_dec 0 y then PI / 2
  else if Rlt_dec y 0 then - (PI / 2)
  else 0.

(** [a % m] on tensors ([torch.remainder]): the result has the sign of the
    divisor, [a - m * floor(a / m)]. *)
Definition remainder (a m : R) : R := a - m * IZR (Int_part (a / m)).

(** [torch.argmin] of a vector: the index of the first minimal value. *)
Fixpoint argmin_from (best : nat) (m : R) (i : nat) (l : list R) : nat :=
  match l with
  | [] => best
  | x :: l' =>
      if Rlt_dec x m then argmin_from i x (S i) l'
      else argmin_from best m (S i) l'
  end.

Definition argmin (l : list R) : nat :=
  match l with
  | [] => O
  | x :: l' => argmin_from O x 1%nat l'
  end.

(** [m.transpose(0, 1)] of a matrix given by its rows. *)
Definition transpose (m : list (list R)) : list (list R) :=
  match m with
  | [] => []
  | r :: _ => map (fun j => map (fun row => nth j row 0) m) (seq 0 (length r))
  end.

Definition dot (a b : list R) : R := sum1 (map2 Rmult a b).

(** [a.mm(b)]; [a.bmm(b)] is [map2 matmul a b]. *)
Definition matmul (a b : list (list R)) : list (list R) :=
  map (fun row => map (dot row) (transpose b)) a.

(** [x.repeat_interleave(n, 0)]: every row [n] times, in place. *)
Definition repeat_interleave {A} (n : nat) (x : list A) : list A :=
  flat_map (fun row => repeat row n) x.

(** [x.reshape(b, c, ...)] of [x : (b * c, ...)]: rows grouped by [c]. *)
Fixpoint chunks {A} (b c : nat) (x : list A) : list (list A) :=
  match b with
  | O => []
  | S b' => firstn c x :: chunks b' c (skipn c x)
  end.

(** [x.norm(2, -1)] of a (re, im) pair. *)
Definition norm2 (z : cplx) : R := sqrt (fst z ^ 2 + snd z ^ 2).

(** [torch.nn.functional.normalize(x, p=2, dim)] on the (re, im) pair of a
    bin: [x / max(norm(x), eps)] with the default [eps = 1e-12]. *)
Definition normalize (z : cplx) : cplx :=
  (fst z / Rmax (norm2 z) 1e-12, snd z / Rmax (norm2 z) 1e-12).

End Torch.

(** ** torchchimera/losses.py *)

Module Losses.
Import Torch.

(** [abs_comp], [phase_comp] and [comp_mul] are lambdas over tensors in the
    source; here they are given on one (re, im) pair and mapped. *)
Definition abs_comp (X : cplx) : R :=
  sqrt (clamp_min 1e-12 (fst X ^ 2 + snd X ^ 2)).

Definition phase_comp (X : cplx) : R := atan2 (snd X) (fst X).

Definition comp_mul (X Y : cplx) : cplx :=
  (fst X * fst Y - snd X * snd Y, fst X * snd Y + snd X * fst Y).

(** [X - Y] of tensors with a trailing (re, im) pair, on one pair. *)
Definition csub (X Y : cplx) : cplx := (fst X - fst Y, snd X - snd Y).

(** embd: (batch_size, time*freq_bin, embd_dim);
    label: (batch_size, time*freq_bin, n_channels) *)
Definition loss_dc (embd label : list (list (list R))) : R :=
  sum3 (map_3 (fun v => v ^ 2) (map2 matmul (map transpose embd) embd))
  + sum3 (map_3 (fun v => v ^ 2) (map2 matmul (map transpose label) label))
  - 2 * sum3 (map_3 (fun v => v ^ 2)
                (map2 matmul (map transpose embd) label)).

(** mask: (batch_size, n_channels, freq_bin, time);
    mixture: (batch_size, freq_bin, time, 2);
    sources: (batch_size, n_channels, freq_bin, time, 2).
    [_abs_X : (freq_bin, time)] is broadcast over the channels. *)
Definition loss_mi_msa
  (mask : list (list (list (list R))))
  (mixture : list (list (list cplx)))
  (sources : list (list (list (list cplx)))) : result R :=
  let abs_X := map_3 abs_comp mixture in
  let abs_S := map_4 abs_comp sources in
  Py.sum_gen (map (fun e =>
    let '(_mask, (_abs_X, _abs_S)) := e in
    Py.min_gen (map (fun M =>
      m <- stack M ;;
      Ok (sum3 (map_3 (fun v => v ^ 2)
           (map2_3 Rminus
              (map (fun m_c => map2_2 Rmult m_c _abs_X) m) _abs_S))))
      (Py.permutations _mask)))
    (Py.zip mask (Py.zip abs_X abs_S))).

(** Shapes as for [loss_mi_msa]; [mixture.unsqueeze(1)] gives [abs_X] and
    [phase_X] a channel dimension of size 1, broadcast over the channels. *)
Definition loss_mi_tpsa
  (mask : list (list (list (list R))))
  (mixture : list (list (list cplx)))
  (sources : list (list (list (list cplx))))
  (gamma : R) (L : Z) : result R :=
  let abs_X := map (fun X => [map_2 abs_comp X]) mixture in
  let phase_X := map (fun X => [map_2 phase_comp X]) mixture in
  let abs_S := map_4 abs_comp sources in
  let phase_S := map_4 phase_comp sources in
  let spectrum :=
    map2 (bmap2 (map2_2 Rmin))
      (map2 (map2_3 Rmax)
         (map2 (map2_3 Rmult) abs_S
            (map_4 cos (map2 (bmap2 (map2_2 Rminus)) phase_S phase_X)))
         (map_4 (fun _ => 0) abs_S))
      (map_4 (Rmult gamma) abs_X) in
  if (L =? 1)%Z then
    Py.sum_gen (map (fun e =>
      let '(_mask, (_abs_X, _spectrum)) := e in
      Py.min_gen (map (fun M =>
        m <- stack M ;;
        Ok (sum3 (map_3 Rabs
             (map2_3 Rminus (bmap2 (map2_2 Rmult) m _abs_X) _spectrum))))
        (Py.permutations _mask)))
      (Py.zip mask (Py.zip abs_X spectrum)))
  else if (L =? 2)%Z then
    Py.sum_gen (map (fun e =>
      let '(_mask, (_abs_X, _spectrum)) := e in
      Py.min_gen (map (fun M =>
        m <- stack M ;;
        Ok (sum3 (map_3 (fun v => v ^ Z.to_nat L)
             (map2_3 Rminus (bmap2 (map2_2 Rmult) m _abs_X) _spectrum))))
        (Py.permutations _mask)))
      (Py.zip mask (Py.zip abs_X spectrum)))
  else Raise NotImplementedError.

(** source_pred, source_true: (batch_size, n_channels, waveform_length) *)
Definition loss_wa (source_pred source_true : list (list (list R)))
  : result R :=
  Py.sum_gen (map (fun e =>
    let '(_source_pred, _source_true) := e in
    Py.min_gen (map (fun s =>
      st <- stack s ;;
      Ok (sum2 (map_2 Rabs (map2_2 Rminus st _source_true))))
      (Py.permutations _source_pred)))
    (Py.zip source_pred source_true)).

(** phase_true: (batch_size, n_channels, freq_bin, time, 2) (complex) or
    (batch_size, n_channels, freq_bin, time) (phase in radians): the test
    [len(phase_true.shape) == 5] is the constructor. *)
Inductive phase_truth : Type :=
| Complex (t : list (list (list (list cplx))))
| Radians (t : list (list (list (list R)))).

(** [torch.argmin(d, dim=-1)] needs a last dimension that is not empty. *)
Definition argmin_last (book_size : nat)
  (d : list (list (list (list (list R)))))
  : result (list (list (list (list nat)))) :=
  match book_size with
  | O => Raise RuntimeError
  | _ => Ok (map_4 argmin d)
  end.

(** phase_prob_pred: (batch_size, n_channels, freq_bin, time, book_size).
    [gather(-1, _ref_idx)] reads entry [_ref_idx] of every probability row;
    the index is below book_size, being an [argmin] over the phasebook. *)
Definition loss_ce_phase
  (phase_prob_pred : list (list (list (list (list R)))))
  (phase_true : phase_truth) (phasebook : list R) : result R :=
  let phase_true :=
    match phase_true with
    | Complex t =>
        let phase_true_norm :=
          map_4 (fun z =>
                   (fst z / sqrt (clamp_min 1e-12 (fst z ^ 2 + snd z ^ 2)),
                    snd z / sqrt (clamp_min 1e-12 (fst z ^ 2 + snd z ^ 2))))
                t in
        map_4 (fun z => atan2 (snd z) (fst z)) phase_true_norm
    | Radians t => t
    end in
  phase_ref_idx <-
    argmin_last (length phasebook)
      (map_4 (fun th =>
                map2 Rmin
                  (map (fun pb => remainder (pb - th) (2 * PI)) phasebook)
                  (map (fun pb => remainder (th - pb) (2 * PI)) phasebook))
             phase_true) ;;
  Py.sum_gen (map (fun e =>
    let '(_prob, _ref_idx) := e in
    Py.min_gen (map (fun p =>
      st <- stack p ;;
      Ok (sum3 (map_3 (fun v => - ln (clamp_min 1e-36 v))
                  (map2_3 (fun row i => nth i row 0) st _ref_idx))))
      (Py.permutations _prob)))
    (Py.zip phase_prob_pred phase_ref_idx)).

(** com_pred: (batch_size, n_channels, freq_bin, spec_time, 2);
    mixture: (batch_size, freq_bin, spec_time, 2);
    sources: (batch_size, n_channels, freq_bin, spec_time, 2) *)
Definition loss_csa
  (com_pred : list (list (list (list cplx))))
  (mixture : list (list (list cplx)))
  (sources : list (list (list (list cplx))))
  (L : Z) : result R :=
  let source_pred :=
    map2 (bmap2 (map2_2 comp_mul)) com_pred (map (fun X => [X]) mixture) in
  if (L =? 1)%Z then
    Py.sum_gen (map (fun e =>
      let '(_source_pred, _sources) := e in
      Py.min_gen (map (fun s =>
        st <- stack s ;;
        Ok (sum3 (map_3 abs_comp (map2_3 csub st _sources))))
        (Py.permutations _source_pred)))
      (Py.zip source_pred sources))
  else if (L =? 2)%Z then
    Py.sum_gen (map (fun e =>
      let '(_source_pred, _sources) := e in
      Py.min_gen (map (fun s =>
        st <- stack s ;;
        Ok (sum3 (map_3 (fun v => v ^ Z.to_nat L)
                    (map_3 abs_comp (map2_3 csub st _sources)))))
        (Py.permutations _source_pred)))
      (Py.zip source_pred sources))
  else Raise NotImplementedError.

End Losses.

(** ** torchchimera/submodels.py *)

Module Submodels.
Import Torch.

(** A waveform, and the spectrogram (freq_bins, spec_time, 2) of one. *)
Abbreviation wave := (list R).
Abbreviation spec := (list (list cplx)).

(** [x.reshape(batch_size, n_channels, waveform_length)] of [x], expected of
    shape (batch_size * n_channels, waveform_length): rows are grouped by
    channel count; another number of rows or another row length is a
    [RuntimeError], here or in the addition that follows in the source. *)
Definition reshape (batch_size n_channels waveform_length : nat)
  (x : list wave) : result (list (list wave)) :=
  if (length x =? batch_size * n_channels)%nat
     && forallb (fun row => (length row =? waveform_length)%nat) x
  then Ok (chunks batch_size n_channels x)
  else Raise RuntimeError.

(** [torch.sum(x, dim=1)] of one batch item [x : (n_channels, w)]. *)
Definition sum_channels (w : nat) (x : list wave) : wave :=
  fold_right (map2 Rplus) (repeat 0 w) x.

(** [Shatmag * phase]: a magnitude (trailing dimension 1) times a bin. *)
Definition scale (m : R) (z : cplx) : cplx := (m * fst z, m * snd z).

Record MisiLayer : Type := {
  n_fft : nat;
  hop_length : nat;
  win_length : nat
}.

Record MisiNetwork : Type := {
  net_n_fft : nat;
  net_hop_length : nat;
  net_win_length : nat;
  layer_num : Z
}.

(** [len(mask.shape) == 4] (a real mask) or 5 (a complex mask). *)
Inductive mask_t : Type :=
| RealMask (m : list (list (list (list R))))
| ComplexMask (m : list (list (list (list cplx)))).

Definition comp_mul (X Y : cplx) : cplx :=
  let '(xre, xim) := X in
  let '(yre, yim) := Y in
  (xre * yre - xim * yim, xre * yim + xim * yre).

Section Stft.

(** [torch.stft] and [torchaudio.functional.istft] with a Hann window, by
    (n_fft, hop_length, win_length), on one row of a batch. *)
Variable torch_stft : nat -> nat -> nat -> wave -> spec.
Variable torchaudio_istft : nat -> nat -> nat -> spec -> wave.

(** Lines 17-34 of [MisiLayer.forward]: [n_channels], [shat], [delta]. *)
Definition MisiLayer_delta (self : MisiLayer) (Shat : list spec)
  (mixture : list wave) : result (nat * list wave * list wave) :=
  let batch_size := length mixture in
  let waveform_length := length (hd [] mixture) in
  n_channels <- Py.floordiv (length Shat) batch_size ;;
  let istft :=
    map (torchaudio_istft (n_fft self) (hop_length self) (win_length self)) in
  let shat := istft Shat in
  grouped <- reshape batch_size n_channels waveform_length shat ;;
  let delta :=
    map2_2 Rminus mixture
      (map_2 (fun v => v / INR n_channels)
             (map (sum_channels waveform_length) grouped)) in
  Ok (n_channels, shat, delta).

(** Line 35: [tmp]. *)
Definition MisiLayer_tmp (self : MisiLayer) (Shat : list spec)
  (mixture : list wave) : result (list spec) :=
  csd <- MisiLayer_delta self Shat mixture ;;
  let '(n_channels, shat, delta) := csd in
  let stft :=
    map (torch_stft (n_fft self) (hop_length self) (win_length self)) in
  Ok (stft (map2_2 Rplus shat (repeat_interleave n_channels delta))).

(** Shat: (batch_size * n_channels, freq_bins, spec_time, 2);
    Shatmag: (batch_size * n_channels, freq_bins, spec_time, 1);
    mixture: (batch_size, waveform_length) *)
Definition MisiLayer_forward (self : MisiLayer) (Shat : list spec)
  (Shatmag : list (list (list R))) (mixture : list wave)
  : result (list spec) :=
  tmp <- MisiLayer_tmp self Shat mixture ;;
  let phase := map_3 normalize tmp in
  Ok (map2_3 scale Shatmag phase).

(** The state of the loop of [MisiNetwork.forward] is [Shat]. *)
Definition MisiNetwork_loop (self : MisiNetwork)
  (Shatmag : list (list (list R))) (mixture : list wave) (Shat : list spec)
  : result (list spec) :=
  fold_left
    (fun acc _ =>
       Shat <- acc ;;
       MisiLayer_forward
         {| n_fft := net_n_fft self; hop_length := net_hop_length self;
            win_length := net_win_length self |}
         Shat Shatmag mixture)
    (Py.range (layer_num self)) (Ok Shat).

(** mask: (batch_size, n_channels, freq_bins, spec_time[, 2]);
    mixture: (batch_size, waveform_length) *)
Definition MisiNetwork_forward (self : MisiNetwork) (mask : mask_t)
  (mixture : list wave) : result (list (list wave)) :=
  let mask :=
    match mask with
    | RealMask m => map_4 (fun v => (v, 0)) m
    | ComplexMask m => m
    end in
  let batch_size := length mask in
  let n_channels := length (hd [] mask) in
  let mask := concat mask in
  let waveform_length := length (hd [] mixture) in
  let stft :=
    map (torch_stft (net_n_fft self) (net_hop_length self)
           (net_win_length self)) in
  let istft :=
    map (torchaudio_istft (net_n_fft self) (net_hop_length self)
           (net_win_length self)) in
  let Shat :=
    map2_3 comp_mul mask (repeat_interleave n_channels (stft mixture)) in
  let Shatmag := map_3 norm2 Shat in
  Shat <- MisiNetwork_loop self Shatmag mixture Shat ;;
  reshape batch_size n_channels waveform_length (istft Shat).

End Stft.

(** *** The trainable transform pair *)

(** [torch.hann_window(n)] (periodic). *)
Definition hann_window (n : nat) : list R :=
  map (fun j => 1 / 2 - 1 / 2 * cos (2 * PI * INR j / INR n)) (seq 0 n).

Definition _generate_dft_matrix (n_fft : nat) : list (list R) :=
  let phi := map (fun j => 2 * PI * INR j / INR n_fft) (seq 0 n_fft) in
  let basis := map INR (seq 0 (n_fft / 2 + 1)) in
  map (fun b => map (fun p => cos (p * b)) phi) basis
  ++ map (fun b => map (fun p => sin (p * b)) phi) basis.

(** [torch.nn.Conv1d(1, out, kernel, stride, bias=False, padding)] on one
    row: [weight : (out, kernel)], the result is (out, time). *)
Definition conv1d (weight : list (list R)) (kernel stride padding : nat)
  (x : wave) : list (list R) :=
  let xp := repeat 0 padding ++ x ++ repeat 0 padding in
  let time := ((length xp - kernel) / stride + 1)%nat in
  map (fun w =>
         map (fun t => dot w (firstn kernel (skipn (t * stride) xp)))
             (seq 0 time))
      weight.

(** [torch.nn.ConvTranspose1d(in, 1, kernel, stride, bias=False, padding)]
    on one row [x : (in, time)]: frame [t] of channel [k], weighted by
    [weight[k]], is added at offset [t * stride]; [padding] samples are cut
    at both ends. *)
Definition conv_transpose1d (weight : list (list R))
  (kernel stride padding : nat) (x : list (list R)) : wave :=
  let time := length (hd [] x) in
  let full := ((time - 1) * stride + kernel)%nat in
  map (fun i =>
         sum1 (map2 (fun w xk =>
                 sum1 (map (fun t =>
                         if ((t * stride <=? i) && (i <? t * stride + kernel))%nat
                         then nth t xk 0 * nth (i - t * stride) w 0
                         else 0)
                       (seq 0 time)))
               weight x))
      (seq padding (full - 2 * padding)).

(** The layers keep [n_fft] and the weight of their convolution, of shape
    (n_fft + 2, 1, n_fft): the weight is a trainable parameter. *)
Record TrainableStftLayer : Type := {
  stft_n_fft : nat;
  stft_weight : list (list R)
}.

Record TrainableIstftLayer : Type := {
  istft_n_fft : nat;
  istft_weight : list (list R)
}.

Definition TrainableStftLayer_init (n_fft : nat) : TrainableStftLayer :=
  {| stft_n_fft := n_fft;
     stft_weight :=
       map (map2 Rmult (hann_window n_fft)) (_generate_dft_matrix n_fft) |}.

Definition TrainableIstftLayer_init (n_fft : nat) : TrainableIstftLayer :=
  {| istft_n_fft := n_fft;
     istft_weight :=
       map (map2 Rmult (hann_window n_fft)) (_generate_dft_matrix n_fft) |}.

Definition TrainableStftLayer_forward (self : TrainableStftLayer) (x : wave)
  : list (list R) :=
  let hop_length := (stft_n_fft self / 4)%nat in
  conv1d (stft_weight self) (stft_n_fft self) hop_length (hop_length * 2) x.

Definition TrainableIstftLayer_forward (self : TrainableIstftLayer)
  (x : list (list R)) : wave :=
  let hop_length := (istft_n_fft self / 4)%nat in
  map (fun v => v / INR (istft_n_fft self))
      (conv_transpose1d (istft_weight self) (istft_n_fft self) hop_length
         (hop_length * 2) x).

Record TrainableMisiLayer : Type := {
  misi_n_fft : nat;
  stft_layer : TrainableStftLayer;
  istft_layer : TrainableIstftLayer
}.

Definition TrainableMisiLayer_init (n_fft : nat) : TrainableMisiLayer :=
  {| misi_n_fft := n_fft;
     stft_layer := TrainableStftLayer_init n_fft;
     istft_layer := TrainableIstftLayer_init n_fft |}.

(** [normalize(tmp.reshape(., 2, F, T), p=2, dim=1).reshape(., 2 * F, T)]
    on one row: rows [k] and [F + k] are the two parts of bin [k]. *)
Definition normalize_dim1 (F : nat) (x : list (list R)) : list (list R) :=
  let phase := map2_2 (fun re im => normalize (re, im))
                      (firstn F x) (skipn F x) in
  map_2 fst phase ++ map_2 snd phase.

(** Lines 141-151 of [TrainableMisiLayer.forward]: [tmp]. *)
Definition TrainableMisiLayer_tmp (self : TrainableMisiLayer)
  (Shat : list (list (list R))) (mixture : list wave)
  : result (list (list (list R))) :=
  let batch_size := length mixture in
  let waveform_length := length (hd [] mixture) in
  n_channels <- Py.floordiv (length Shat) batch_size ;;
  let shat := map (TrainableIstftLayer_forward (istft_layer self)) Shat in
  grouped <- reshape batch_size n_channels waveform_length shat ;;
  let delta :=
    map2_2 Rminus mixture
      (map_2 (fun v => v / INR n_channels)
             (map (sum_channels waveform_length) grouped)) in
  Ok (map (TrainableStftLayer_forward (stft_layer self))
          (map2_2 Rplus shat (repeat_interleave n_channels delta))).

(** Shat, Shatmag: (batch_size * n_channels, 2 * (n_fft // 2 + 1), spec_time);
    mixture: (batch_size, waveform_length) *)
Definition TrainableMisiLayer_forward (self : TrainableMisiLayer)
  (Shat Shatmag : list (list (list R))) (mixture : list wave)
  : result (list (list (list R))) :=
  tmp <- TrainableMisiLayer_tmp self Shat mixture ;;
  let phase := map (normalize_dim1 (misi_n_fft self / 2 + 1)) tmp in
  Ok (map2_3 Rmult Shatmag phase).

End Submodels.

(** ** torchchimera/datasets.py *)

Module Datasets.
Import Torch.

(** The exceptions of this module: [IndexError] beside the ones above. *)
Inductive exception : Type :=
| IndexError
| Builtin (e : exn).

Inductive outcome (A : Type) : Type :=
| Return (a : A)
| Throw (e : exception).
Arguments Return {A} a.
Arguments Throw {A} e.

Definition and_then {A B} (m : outcome A) (k : A -> outcome B) : outcome B :=
  match m with
  | Return a => k a
  | Throw e => Throw e
  end.

Local Notation "x <~ m ;; k" := (and_then m (fun x => k))
  (at level 61, m at next level, right associativity).

(** A list comprehension: the items, or the first exception. *)
Fixpoint gather {A} (g : list (outcome A)) : outcome (list A) :=
  match g with
  | [] => Return []
  | x :: g' => a <~ x ;; l <~ gather g' ;; Return (a :: l)
  end.

(** [l[i]] on a Python list: a negative index counts from the end. *)
Definition getitem {A} (l : list A) (i : Z) : outcome A :=
  let j := if (i <? 0)%Z then (i + Z.of_nat (length l))%Z else i in
  if (j <? 0)%Z then Throw IndexError
  else match nth_error l (Z.to_nat j) with
       | Some a => Return a
       | None => Throw IndexError
       end.

(** [bisect.bisect(a, x)] ([bisect_right]): the loop
    [while lo < hi: mid = (lo + hi) // 2;
       if x < a[mid]: hi = mid else: lo = mid + 1], from [lo = 0] and
    [hi = len(a)]; the interval shrinks at every turn, so [len(a)] turns
    are enough. *)
Fixpoint bisect_loop (turns : nat) (a : list Z) (x : Z) (lo hi : nat) : nat :=
  match turns with
  | O => lo
  | S turns' =>
      if (lo <? hi)%nat then
        let mid := ((lo + hi) / 2)%nat in
        if (x <? nth mid a 0)%Z then bisect_loop turns' a x lo mid
        else bisect_loop turns' a x (mid + 1) hi
      else lo
  end.

Definition bisect (a : list Z) (x : Z) : nat :=
  bisect_loop (length a) a x 0 (length a).

(** [math.ceil(a / b)] for integers [a] and [b <> 0], the quotient taken
    exactly. *)
Definition ceil_div (a b : Z) : Z := (- ((- a) / b))%Z.

(** What [torchaudio.info] reports of a file. *)
Record signalinfo : Type := {
  si_length : Z;
  si_channels : Z;
  si_rate : Z
}.

(** [torch.stack(tensors)] of tensors of two dimensions: they must be of one
    shape, and there must be one at least. *)
Definition stack_same (tensors : list (list (list R)))
  : outcome (list (list (list R))) :=
  match tensors with
  | [] => Throw (Builtin RuntimeError)
  | t :: rest =>
      if forallb (fun u => (length u =? length t)%nat
                           && (length (hd [] u) =? length (hd [] t))%nat)
                 rest
      then Return tensors
      else Throw (Builtin RuntimeError)
  end.

(** [x.mean(axis=0)] of one tensor [x : (channels, frames)]. *)
Definition mean_channels (x : list (list R)) : list R :=
  map (fun v => v / INR (length x))
      (fold_right (map2 Rplus) (repeat 0 (length (hd [] x))) x).

Section DSD100.

(** The directories of the data set and the names of the sources. *)
Variable dir : Type.
Variable source : Type.

(** [torchaudio.info(os.path.join(d, 'bass.wav'))] and
    [torchaudio.load(os.path.join(d, s + '.wav'), offset, num_frames)[0]],
    a tensor (channels, frames). *)
Variable torchaudio_info : dir -> signalinfo.
Variable torchaudio_load : dir -> source -> Z -> Z -> outcome (list (list R)).

Record DSD100 : Type := {
  sources : list source;
  waveform_length : Z;
  offsets : list Z;
  rates : list Z;
  source_dirs : list dir;
  transform : option (list (list R) -> outcome (list (list R)))
}.

(** The loop of [__init__] over [self.source_dirs]: the state is
    ([self.offsets], [self.rates]). The two true divisions raise
    [ZeroDivisionError] on a zero divisor. *)
Definition DSD100_scan (waveform_length : Z) (source_dirs : list dir)
  : outcome (list Z * list Z) :=
  fold_left
    (fun acc d =>
       st <~ acc ;;
       let '(offsets, rates) := st in
       let si := torchaudio_info d in
       if (si_channels si =? 0)%Z then Throw (Builtin ZeroDivisionError)
       else if (waveform_length =? 0)%Z then Throw (Builtin ZeroDivisionError)
       else Return
              (offsets
                 ++ [(last offsets 0
                      + ceil_div (si_length si)
                          (si_channels si * waveform_length))%Z],
               rates ++ [si_rate si]))
    source_dirs (Return ([0%Z], [])).

(** [source_dirs] is the sorted list of the directories of the split. *)
Definition DSD100_init (source_dirs : list dir) (waveform_length : Z)
  (sources : list source)
  (transform : option (list (list R) -> outcome (list (list R))))
  : outcome DSD100 :=
  st <~ DSD100_scan waveform_length source_dirs ;;
  Return {| sources := sources;
            waveform_length := waveform_length;
            offsets := fst st;
            rates := snd st;
            source_dirs := source_dirs;
            transform := transform |}.

Definition DSD100_len (self : DSD100) : outcome Z := getitem (offsets self) (-1).

(** Lines 39-55 of [_get_single_item], from [audio_idx] and [offset_idx]. *)
Definition DSD100_segment (self : DSD100) (audio_idx offset_idx : Z)
  : outcome (list (list R) * Z) :=
  loaded <~ gather (map (fun s =>
              d <~ getitem (source_dirs self) audio_idx ;;
              torchaudio_load d s (offset_idx * waveform_length self)%Z
                (waveform_length self))
            (sources self)) ;;
  stacked <~ stack_same loaded ;;
  let x := map mean_channels stacked in
  let frames := Z.of_nat (length (hd [] x)) in
  let x :=
    if (frames <? waveform_length self)%Z then
      map (fun row =>
             row ++ repeat 0 (Z.to_nat (waveform_length self - frames)))
          x
    else x in
  rate <~ getitem (rates self) audio_idx ;;
  Return (x, rate).

Definition _get_single_item (self : DSD100) (idx : Z)
  : outcome (list (list R) * Z) :=
  let audio_idx := (Z.of_nat (bisect (offsets self) idx) - 1)%Z in
  off <~ getitem (offsets self) audio_idx ;;
  let offset_idx := (idx - off)%Z in
  DSD100_segment self audio_idx offset_idx.

(** [__getitem__] on an [int]. *)
Definition DSD100_getitem (self : DSD100) (idx : Z)
  : outcome (list (list R) * Z) :=
  item <~ _get_single_item self idx ;;
  let '(waveform, rate) := item in
  match transform self with
  | Some f => waveform <~ f waveform ;; Return (waveform, rate)
  | None => Return (waveform, rate)
  end.

End DSD100.

Arguments sources {dir source} _.
Arguments waveform_length {dir source} _.
Arguments offsets {dir source} _.
Arguments rates {dir source} _.
Arguments source_dirs {dir source} _.
Arguments transform {dir source} _.
Arguments DSD100_scan {dir} _ _ _.
Arguments DSD100_init {dir source} _ _ _ _ _.
Arguments DSD100_len {dir source} _.
Arguments DSD100_segment {dir source} _ _ _ _.
Arguments _get_single_item {dir source} _ _ _.
Arguments DSD100_getitem {dir source} _ _ _.

(** An entry of [source_lists]: one index, or a sequence of indices. *)
Inductive source_list : Type :=
| One (s : Z)
| Many (s : list Z).

Record MixTransform : Type := {
  source_lists : list (list Z);
  source_coeffs : list (list R)
}.

Definition MixTransform_init (source_lists : list source_list)
  (source_coeffs : option (list (list R))) : MixTransform :=
  {| source_lists :=
       map (fun s => match s with One i => [i] | Many l => l end)
           source_lists;
     source_coeffs :=
       match source_coeffs with
       | None =>
           map (fun s => match s with
                         | One _ => [1]
                         | Many l => repeat 1 (length l)
                         end)
               source_lists
       | Some c => c
       end |}.

(** [sample.index_select(dim=-2, index=sl)] of [sample : (S, W)]: an index
    outside [0, S) is an [IndexError]. *)
Definition index_select (sample : list (list R)) (index : list Z)
  : outcome (list (list R)) :=
  gather (map (fun i =>
                 if ((0 <=? i) && (i <? Z.of_nat (length sample)))%Z
                 then Return (nth (Z.to_nat i) sample [])
                 else Throw IndexError)
              index).

(** [sc.unsqueeze(-1) * rows] with [sc : (k)] and [rows : (n, W)]: the
    first dimensions agree, or the one of size 1 is broadcast. *)
Definition scale_rows (sc : list R) (rows : list (list R))
  : outcome (list (list R)) :=
  if (length sc =? length rows)%nat then
    Return (map2 (fun c row => map (Rmult c) row) sc rows)
  else match sc, rows with
       | [c], _ => Return (map (map (Rmult c)) rows)
       | _, [row] => Return (map (fun c => map (Rmult c) row) sc)
       | _, _ => Throw (Builtin RuntimeError)
       end.

(** [torch.sum(x, dim=-2)] of [x : (n, W)]. *)
Definition sum_rows (W : nat) (x : list (list R)) : list R :=
  fold_right (map2 Rplus) (repeat 0 W) x.

(** [__call__] on a sample (S, W). *)
Definition MixTransform_call (self : MixTransform) (sample : list (list R))
  : outcome (list (list R)) :=
  rows <~ gather (map (fun e =>
            let '(sl, sc) := e in
            selected <~ index_select sample sl ;;
            scaled <~ scale_rows sc selected ;;
            Return (sum_rows (length (hd [] sample)) scaled))
          (Py.zip (source_lists self) (source_coeffs self))) ;;
  match rows with
  | [] => Throw (Builtin RuntimeError)
  | _ => Return rows
  end.

End Datasets.

(** ** torchchimera/submodels.py: the trainable network *)

Module SubmodelsNetwork.
Import Torch Submodels.

(** Dimension 1 of size two of a tensor (., 2, freq_bins, spec_time): the
    plane of the real parts and the plane of the imaginary parts. *)
Abbreviation planes := (list (list R) * list (list R))%type.

Record TrainableMisiNetwork : Type := {
  net_stft_layer : TrainableStftLayer;
  net_istft_layer : TrainableIstftLayer;
  misi_layers : list TrainableMisiLayer
}.

Definition TrainableMisiNetwork_init (n_fft : nat) (layer_num : Z)
  : TrainableMisiNetwork :=
  {| net_stft_layer := TrainableStftLayer_init n_fft;
     net_istft_layer := TrainableIstftLayer_init n_fft;
     misi_layers :=
       map (fun _ => TrainableMisiLayer_init n_fft) (Py.range layer_num) |}.

(** [x.reshape(batch_size, 2, freq_bins, spec_time)] of a contiguous tensor
    of three dimensions: the entries in row-major order, regrouped; another
    number of entries is a [RuntimeError]. *)
Definition reshape_planes (batch_size freq_bins spec_time : nat)
  (x : list (list (list R))) : result (list planes) :=
  let flat := concat (map (@concat R) x) in
  if (length flat =? batch_size * (2 * (freq_bins * spec_time)))%nat then
    Ok (map (fun item =>
               (chunks freq_bins spec_time
                  (firstn (freq_bins * spec_time) item),
                chunks freq_bins spec_time
                  (skipn (freq_bins * spec_time) item)))
            (chunks batch_size (2 * (freq_bins * spec_time)) flat))
  else Raise RuntimeError.

(** [comp_mul] of [forward], which unbinds and stacks dimension 1. *)
Definition comp_mul (X Y : planes) : planes :=
  let '(xre, xim) := X in
  let '(yre, yim) := Y in
  (map2_2 Rminus (map2_2 Rmult xre yre) (map2_2 Rmult xim yim),
   map2_2 Rplus (map2_2 Rmult xre yim) (map2_2 Rmult xim yre)).

(** mask: (batch_size, n_channels, freq_bins, spec_time[, 2]);
    mixture: (batch_size, waveform_length) *)
Definition TrainableMisiNetwork_forward (self : TrainableMisiNetwork)
  (mask : mask_t) (mixture : list wave) : result (list (list wave)) :=
  let mask :=
    match mask with
    | RealMask m => map_4 (fun v => (v, 0)) m
    | ComplexMask m => m
    end in
  let batch_size := length mask in
  let n_channels := length (hd [] mask) in
  let freq_bins := length (hd [] (hd [] mask)) in
  let spec_time := length (hd [] (hd [] (hd [] mask))) in
  let waveform_length := length (hd [] mixture) in
  let mask := map (fun m => (map_2 fst m, map_2 snd m)) (concat mask) in
  X <- reshape_planes batch_size freq_bins spec_time
         (map (TrainableStftLayer_forward (net_stft_layer self)) mixture) ;;
  let X := repeat_interleave n_channels X in
  let Shat := map2 comp_mul mask X in
  let Shatmag :=
    map (fun S =>
           let mag := map2_2 (fun re im => norm2 (re, im)) (fst S) (snd S) in
           mag ++ mag)
        Shat in
  let Shat := map (fun S => fst S ++ snd S) Shat in
  Shat <- fold_left
            (fun acc layer =>
               Shat <- acc ;;
               TrainableMisiLayer_forward layer Shat Shatmag mixture)
            (misi_layers self) (Ok Shat) ;;
  reshape batch_size n_channels waveform_length
    (map (TrainableIstftLayer_forward (net_istft_layer self)) Shat).

End SubmodelsNetwork.

(** * The vocabulary of the statements *)

Module Spec.
Import Torch Losses Submodels.

(** [m] is the least total cost over the orderings of [l]: some ordering
    costs [m], none costs less. *)
Definition best_over_permutations {A} (l : list A) (cost : list A -> R)
  (m : R) : Prop :=
  (exists s, Permutation l s /\ cost s = m)
  /\ (forall s, Permutation l s -> m <= cost s).

(** Every loss has the shape [sum(min(cost(stack(s)) for s in
    permutations(x)) for ... in zip(...))]. *)
Definition sum_min_permutations {E A} (sel : E -> list A)
  (cost : E -> list A -> R) (batch : list E) : result R :=
  Py.sum_gen (map (fun e =>
    Py.min_gen (map (fun s => st <- stack s ;; Ok (cost e st))
                    (Py.permutations (sel e))))
    batch).

(** The total elementwise L1 cost of the ordering [s] of the estimates
    against the truths [t], channel by channel. *)
Definition wa_cost (s t : list (list R)) : R :=
  sum2 (map_2 Rabs (map2_2 Rminus s t)).

(** [source_pred = comp_mul(com_pred, mixture.unsqueeze(1))] *)
Definition source_pred (com_pred : list (list (list (list cplx))))
  (mixture : list (list (list cplx))) : list (list (list (list cplx))) :=
  map2 (bmap2 (map2_2 Losses.comp_mul)) com_pred (map (fun X => [X]) mixture).

(** The elementwise distance of order [L] on a complex residual. *)
Definition csa_dist (L : Z) (z : cplx) : R :=
  if (L =? 1)%Z then abs_comp z else abs_comp z ^ 2.

Definition csa_cost (L : Z) (st _sources : list (list (list cplx))) : R :=
  sum3 (map_3 (csa_dist L) (map2_3 csub st _sources)).

(** The mask whose every entry is (1, 0), for [C] channels, of the shape of
    the mixture. *)
Definition identity_mask (C : nat) (mixture : list (list (list cplx)))
  : list (list (list (list cplx))) :=
  map (fun X => repeat (map_2 (fun _ => (1, 0)) X) C) mixture.

(** [abs_X] and [spectrum], the tensors [loss_mi_tpsa] builds first. *)
Definition abs_X (mixture : list (list (list cplx)))
  : list (list (list (list R))) :=
  map (fun X => [map_2 abs_comp X]) mixture.

Definition spectrum (gamma : R) (mixture : list (list (list cplx)))
  (sources : list (list (list (list cplx)))) : list (list (list (list R))) :=
  let abs_X := map (fun X => [map_2 abs_comp X]) mixture in
  let phase_X := map (fun X => [map_2 phase_comp X]) mixture in
  let abs_S := map_4 abs_comp sources in
  let phase_S := map_4 phase_comp sources in
  map2 (bmap2 (map2_2 Rmin))
    (map2 (map2_3 Rmax)
       (map2 (map2_3 Rmult) abs_S
          (map_4 cos (map2 (bmap2 (map2_2 Rminus)) phase_S phase_X)))
       (map_4 (fun _ => 0) abs_S))
    (map_4 (Rmult gamma) abs_X).

(** The phase-sensitive target of one bin, for a magnitude [mag]: the
    source magnitude times the cosine of the phase difference, floored at 0
    and capped at [gamma] times the mixture magnitude. *)
Definition tps_target (mag : cplx -> R) (gamma : R) (s x : cplx) : R :=
  Rmin (Rmax (mag s * cos (phase_comp s - phase_comp x)) 0) (gamma * mag x).

(** The elementwise distance of order [L]. *)
Definition tpsa_dist (L : Z) (a b : R) : R :=
  if (L =? 1)%Z then Rabs (a - b) else (a - b) ^ 2.

Fixpoint map3 {A B C D} (f : A -> B -> C -> D) (a : list A) (b : list B)
  (c : list C) : list D :=
  match a, b, c with
  | x :: a', y :: b', z :: c' => f x y z :: map3 f a' b' c'
  | _, _, _ => []
  end.

(** The total cost of the ordering [M] of the mask channels of one batch
    item: over every channel, and every bin of it, the distance between
    mask * mag(mixture) and the target. *)
Definition tpsa_cost (mag : cplx -> R) (L : Z) (gamma : R)
  (M : list (list (list R))) (X : list (list cplx))
  (S : list (list (list cplx))) : R :=
  sum3 (map2 (fun M_c S_c =>
          map3 (map3 (fun m s x =>
                  tpsa_dist L (m * mag x) (tps_target mag gamma s x)))
               M_c S_c X)
        M S).

(** The sum of [f i] over [i < n]. *)
Definition sum_n (n : nat) (f : nat -> R) : R :=
  sum1 (map f (seq 0 n)).

(** Entry (f, t) of a tensor of two dimensions, (n, f, t) of one of
    three. *)
Definition entry2 {A} (x : list (list A)) (f t : nat) : option A :=
  match nth_error x f with
  | Some row => nth_error row t
  | None => None
  end.

Definition entry3 {A} (x : list (list (list A))) (n f t : nat) : option A :=
  match nth_error x n with
  | Some plane => entry2 plane f t
  | None => None
  end.

(** A magnitude-one estimate of one channel under a silent mixture. *)
Definition unit_estimate : list (list (list R)) :=
  [[[1; 1]; [1; 1]; [1; 1]; [0; 0]; [0; 0]; [0; 0]]].

(** [n] steps in sequence: the step applied to the result of [n - 1] steps;
    an exception ends the run. *)
Fixpoint iterate {A} (n : nat) (step : A -> result A) (x : A) : result A :=
  match n with
  | O => Ok x
  | S n' => y <- iterate n' step x ;; step y
  end.

(** [Shat] before the loop: the mask times the transform of the mixture. *)
Definition masked_spectrum (torch_stft : nat -> nat -> nat -> wave -> spec)
  (self : MisiNetwork) (mask : mask_t)
  (mixture : list wave) : list spec :=
  let mask :=
    match mask with
    | RealMask m => map_4 (fun v => (v, 0)) m
    | ComplexMask m => m
    end in
  map2_3 comp_mul (concat mask)
    (repeat_interleave (length (hd [] mask))
       (map (torch_stft (net_n_fft self) (net_hop_length self)
               (net_win_length self)) mixture)).

(** The shape (batch_size, n_channels, waveform_length) of the result. *)
Definition output (mask : mask_t) (mixture : list wave) (x : list wave)
  : result (list (list wave)) :=
  let mask :=
    match mask with
    | RealMask m => map_4 (fun v => (v, 0)) m
    | ComplexMask m => m
    end in
  reshape (length mask) (length (hd [] mask)) (length (hd [] mixture)) x.

Definition layer_of (self : MisiNetwork) : MisiLayer :=
  {| n_fft := net_n_fft self; hop_length := net_hop_length self;
     win_length := net_win_length self |}.

(** The Gram (affinity) matrix [V V^T] of the rows of [V]. *)
Definition gram (V : list (list R)) : list (list R) :=
  map (fun vi => map (dot vi) V) V.

(** The squared Frobenius norm of [V V^T - Y Y^T]. *)
Definition affinity_distance (V Y : list (list R)) : R :=
  sum2 (map_2 (fun v => v ^ 2) (map2_2 Rminus (gram V) (gram Y))).

(** [V] has [N] rows of [D] entries. *)
Definition matrix (N D : nat) (V : list (list R)) : Prop :=
  length V = N /\ Forall (fun row => length row = D) V.

(** The part of one batch item in [loss_dc]. *)
Definition dc_item (V Y : list (list R)) : R :=
  sum2 (map_2 (fun v => v ^ 2) (matmul (transpose V) V))
  + sum2 (map_2 (fun v => v ^ 2) (matmul (transpose Y) Y))
  - 2 * sum2 (map_2 (fun v => v ^ 2) (matmul (transpose V) Y)).

(** The circular distances of the phase [th] to the entries of the
    phasebook, and the tensor of them. *)
Definition circular_distances (phasebook : list R) (th : R) : list R :=
  map2 Rmin
    (map (fun pb => remainder (pb - th) (2 * PI)) phasebook)
    (map (fun pb => remainder (th - pb) (2 * PI)) phasebook).

(** The phase (in radians) that [loss_ce_phase] works with. *)
Definition radians (phase_true : phase_truth)
  : list (list (list (list R))) :=
  match phase_true with
  | Complex t =>
      map_4 (fun z => atan2 (snd z) (fst z))
        (map_4 (fun z =>
                  (fst z / sqrt (clamp_min 1e-12 (fst z ^ 2 + snd z ^ 2)),
                   snd z / sqrt (clamp_min 1e-12 (fst z ^ 2 + snd z ^ 2))))
               t)
  | Radians t => t
  end.

(** The negative log-probability of one gathered entry. *)
Definition nll (v : R) : R := - ln (clamp_min 1e-36 v).

(** The cost of the ordering [st] of the probabilities of one batch item
    against the indices of the nearest phasebook entries. *)
Definition ce_cost (st : list (list (list (list R))))
  (_ref_idx : list (list (list nat))) : R :=
  sum3 (map_3 nll (map2_3 (fun row i => nth i row 0) st _ref_idx)).

(** A point at angle [theta] and distance [r]. *)
Definition polar (p : R * R) : cplx := (fst p * cos (snd p), fst p * sin (snd p)).

(** Every entry of a tensor of four dimensions. *)
Definition all4 {A} (P : A -> Prop) (t : list (list (list (list A))))
  : Prop :=
  Forall (Forall (Forall (Forall P))) t.

(** The number of entries of a tensor. *)
Definition numel2 {A} (t : list (list A)) : nat := list_sum (map (@length A) t).

Definition numel3 {A} (t : list (list (list A))) : nat :=
  list_sum (map numel2 t).

Definition numel4 {A} (t : list (list (list (list A)))) : nat :=
  list_sum (map numel3 t).

Definition numel (phase_true : phase_truth) : nat :=
  match phase_true with
  | Complex t => numel4 t
  | Radians t => numel4 t
  end.

(** [loss] is the sum, over the items [e] of the batch, of the least total
    cost over all [C!] orderings of the [C] channels [sel e]. *)
Definition sum_of_best {E A} (loss : result R) (sel : E -> list A)
  (cost : E -> list A -> R) (batch : list E) : Prop :=
  exists mins,
    loss = Ok (Py.sum mins)
    /\ Forall2
         (fun e m =>
            best_over_permutations (sel e) (cost e) m
            /\ length (Py.permutations (sel e)) = fact (length (sel e)))
         batch mins.

(** The cost of the ordering [st] of the mask channels in [loss_mi_msa]. *)
Definition msa_cost (st : list (list (list R))) (X : list (list cplx))
  (S : list (list (list cplx))) : R :=
  sum3 (map_3 (fun v => v ^ 2)
          (map2_3 Rminus
             (map (fun m_c => map2_2 Rmult m_c (map_2 abs_comp X)) st)
             (map_3 abs_comp S))).

(** [x] is a tensor of shape (F, T). *)
Definition tensor2 {A} (F T : nat) (x : list (list A)) : Prop :=
  length x = F /\ Forall (fun r => length r = T) x.

(** [x] is a tensor of shape (C, F, T). *)
Definition tensor3 {A} (C F T : nat) (x : list (list (list A))) : Prop :=
  length x = C /\ Forall (tensor2 F T) x.

(** The least value of the distance of order [L] of [loss_csa] on one
    bin. *)
Definition csa_floor (L : Z) : R := if (L =? 1)%Z then 1e-6 else 1e-12.

(** The angle between two directions that differ by [a] radians, in
    [0, pi]. *)
Definition angle (a : R) : R := acos (cos a).

(** [i] is the index of the first entry of the phasebook that is nearest
    to the phase [th] on the circle. *)
Definition nearest (phasebook : list R) (th : R) (i : nat) : Prop :=
  (i < length phasebook)%nat
  /\ forall j, (j < length phasebook)%nat ->
       angle (nth i phasebook 0 - th) <= angle (nth j phasebook 0 - th)
       /\ ((j < i)%nat ->
           angle (nth i phasebook 0 - th) < angle (nth j phasebook 0 - th)).

(** [x[..., sigma]] of a vector: the entries at the indices [sigma], in
    that order. *)
Definition reorder (sigma : list nat) (row : list R) : list R :=
  map (fun k => nth k row 0) sigma.

(** The sum, over the [C] channels of batch item [b], of sample [i] of the
    waveforms [x : (B * C, W)]. *)
Definition channels_sum (C : nat) (x : list wave) (b i : nat) : R :=
  sum_n C (fun c => nth i (nth (b * C + c) x []) 0).

(** The waveforms [x] that a MISI step transforms sum, over the channels
    of every batch item, to [C] times the mixture. *)
Definition sums_to_mixture (C : nat) (mixture x : list wave) : Prop :=
  length x = (length mixture * C)%nat
  /\ forall b i, (b < length mixture)%nat ->
       (i < length (hd [] mixture))%nat ->
       channels_sum C x b i = INR C * nth i (nth b mixture []) 0.

(** The number of segments of [waveform_length] frames that the file
    described by [si] is cut into. *)
Definition segments (waveform_length : Z) (si : Datasets.signalinfo) : Z :=
  Datasets.ceil_div (Datasets.si_length si)
    (Datasets.si_channels si * waveform_length).

(** The running totals of [l] after [start]. *)
Fixpoint running (start : Z) (l : list Z) : list Z :=
  match l with
  | [] => []
  | x :: l' => (start + x)%Z :: running (start + x) l'
  end.

(** A file has a length that is not negative and one channel at least. *)
Definition well_formed (si : Datasets.signalinfo) : Prop :=
  (0 <= Datasets.si_length si)%Z /\ (0 < Datasets.si_channels si)%Z.

(** [a] is in non-decreasing order. *)
Definition sorted (a : list Z) : Prop :=
  forall i j, (i <= j < length a)%nat -> (nth i a 0 <= nth j a 0)%Z.

(** The indices that an entry of [source_lists] selects. *)
Definition indices (s : Datasets.source_list) : list Z :=
  match s with
  | Datasets.One i => [i]
  | Datasets.Many l => l
  end.

(** The sum of the rows of [sample] at the indices [idxs]. *)
Definition plain_sum (sample : list (list R)) (idxs : list Z) : list R :=
  Datasets.sum_rows (length (hd [] sample))
    (map (fun i => nth (Z.to_nat i) sample []) idxs).

(** Every index is a row of a sample of [S] rows. *)
Definition in_range (S : nat) (idxs : list Z) : Prop :=
  Forall (fun i => (0 <= i < Z.of_nat S)%Z) idxs.

(** [x] is a tensor of shape (B, C, F, T). *)
Definition tensor4 {A} (B C F T : nat) (x : list (list (list (list A))))
  : Prop :=
  length x = B /\ Forall (tensor3 C F T) x.

(** The shape (batch_size, n_channels, freq_bins, spec_time) of a mask,
    real or complex. *)
Definition mask_shape (B C F T : nat) (mask : mask_t) : Prop :=
  match mask with
  | RealMask m => tensor4 B C F T m
  | ComplexMask m => tensor4 B C F T m
  end.

(** A layer with the shapes that [n_fft] fixes, whatever its weights. *)
Definition layer_shaped (n_fft : nat) (layer : TrainableMisiLayer) : Prop :=
  misi_n_fft layer = n_fft
  /\ stft_n_fft (stft_layer layer) = n_fft
  /\ length (stft_weight (stft_layer layer))
     = ((n_fft / 2 + 1) + (n_fft / 2 + 1))%nat
  /\ istft_n_fft (istft_layer layer) = n_fft.

(** Every entry of a tensor of three dimensions. *)
Definition all3 {A} (P : A -> Prop) (t : list (list (list A))) : Prop :=
  Forall (Forall (Forall P)) t.

(** [a * x + y] on waveforms and on tensors of two dimensions. *)
Definition axpy (a : R) (x y : list R) : list R :=
  map2 Rplus (map (Rmult a) x) y.

Definition axpy2 (a : R) (x y : list (list R)) : list (list R) :=
  map2 (axpy a) x y.

End Spec.
Import Spec.

(** * Properties *)

(** *** Facts about the builtins *)

Lemma sum_from (l : list R) (a : R) :
  fold_left Rplus l a = a + fold_left Rplus l 0.
Proof.
  revert a; induction l as [|x l IH]; intros a; simpl.
  - lra.
  - rewrite IH, (IH (0 + x)); lra.
Qed.

Lemma sum_cons (x : R) (l : list R) : Py.sum (x :: l) = x + Py.sum l.
Proof. unfold Py.sum; simpl. rewrite sum_from. lra. Qed.

Lemma sum_nonneg (l : list R) : Forall (fun x => 0 <= x) l -> 0 <= Py.sum l.
Proof.
  induction 1 as [|x l Hx _ IH].
  - unfold Py.sum; simpl; lra.
  - rewrite sum_cons; lra.
Qed.

Lemma min_from_le_start (l : list R) (m : R) : Py.min_from m l <= m.
Proof.
  revert m; induction l as [|x l IH]; intros m; simpl.
  - lra.
  - destruct (Rlt_dec x m) as [H|H].
    + specialize (IH x); lra.
    + apply IH.
Qed.

Lemma min_from_le (l : list R) (m x : R) : In x l -> Py.min_from m l <= x.
Proof.
  revert m; induction l as [|y l IH]; intros m Hin; simpl in *; [tauto|].
  destruct Hin as [->|Hin].
  - destruct (Rlt_dec x m) as [H|H].
    + apply min_from_le_start.
    + pose proof (min_from_le_start l m); lra.
  - now apply IH.
Qed.

Lemma min_from_in (l : list R) (m : R) : Py.min_from m l = m \/ In (Py.min_from m l) l.
Proof.
  revert m; induction l as [|y l IH]; intros m; simpl.
  - now left.
  - destruct (Rlt_dec y m) as [H|H].
    + destruct (IH y) as [->|Hin]; auto.
    + destruct (IH m) as [->|Hin]; auto.
Qed.

Lemma min_spec (l : list R) (m : R) :
  Py.min l = Ok m -> In m l /\ forall x, In x l -> m <= x.
Proof.
  destruct l as [|y l]; simpl; [discriminate|].
  intros [= <-]; split.
  - destruct (min_from_in l y) as [->|H]; auto.
  - intros x [->|Hin].
    + apply min_from_le_start.
    + now apply min_from_le.
Qed.

Lemma collect_map_ok {A B} (f : A -> B) (l : list A) :
  collect (map (fun a => Ok (f a)) l) = Ok (map f l).
Proof.
  induction l as [|a l IH]; simpl; [reflexivity|].
  now rewrite IH.
Qed.

Lemma collect_ok_forall2 {A} (g : list (result A)) (l : list A) :
  collect g = Ok l -> Forall2 (fun r a => r = Ok a) g l.
Proof.
  revert l; induction g as [|r g IH]; simpl; intros l.
  - intros [= <-]; constructor.
  - destruct r as [a|e]; simpl; [|discriminate].
    destruct (collect g) as [l'|e]; simpl; [|discriminate].
    intros [= <-]; constructor; auto.
Qed.

(** *** Facts about [permutations] *)

Lemma picks_length {A} (l : list A) : length (Py.picks l) = length l.
Proof.
  induction l as [|x l IH]; simpl; [reflexivity|].
  now rewrite length_map, IH.
Qed.

Lemma picks_perm {A} (l : list A) (x : A) (r : list A) :
  In (x, r) (Py.picks l) -> Permutation l (x :: r).
Proof.
  revert x r; induction l as [|y l IH]; simpl; intros x r; [tauto|].
  intros [[= -> ->]|Hin]; [reflexivity|].
  apply in_map_iff in Hin as [[z r'] [Heq Hin]]; simpl in Heq.
  injection Heq as -> <-.
  rewrite (IH _ _ Hin). apply perm_swap.
Qed.

Lemma picks_rest_length {A} (l : list A) (p : A * list A) :
  In p (Py.picks l) -> length l = S (length (snd p)).
Proof.
  destruct p as [x r]; intros H.
  apply picks_perm, Permutation_length in H. exact H.
Qed.

Lemma picks_complete {A} (l : list A) (x : A) :
  In x l -> exists r, In (x, r) (Py.picks l).
Proof.
  induction l as [|y l IH]; simpl; [tauto|].
  intros [->|Hin].
  - exists l; now left.
  - destruct (IH Hin) as [r Hr]. exists (y :: r); right.
    apply in_map_iff. exists (x, r); auto.
Qed.

Lemma permutations_of_sound {A} (n : nat) (l s : list A) :
  length l = n -> In s (Py.permutations_of n l) -> Permutation l s.
Proof.
  revert l s; induction n as [|n IH]; simpl; intros l s Hlen.
  - intros [<-|[]]. destruct l; [reflexivity|discriminate].
  - intros Hin. apply in_flat_map in Hin as [[x r] [Hp Hin]]; simpl in Hin.
    apply in_map_iff in Hin as [s' [<- Hs']].
    rewrite (picks_perm _ _ _ Hp). apply perm_skip, IH; auto.
    apply picks_rest_length in Hp; simpl in Hp. lia.
Qed.

Lemma permutations_of_complete {A} (n : nat) (l s : list A) :
  length l = n -> Permutation l s -> In s (Py.permutations_of n l).
Proof.
  revert l s; induction n as [|n IH]; simpl; intros l s Hlen Hperm.
  - destruct l; [|discriminate].
    apply Permutation_nil in Hperm; subst; now left.
  - destruct s as [|x s].
    + apply Permutation_sym, Permutation_nil in Hperm; subst; discriminate.
    + assert (Hx : In x l)
        by (apply (Permutation_in x (Permutation_sym Hperm)); now left).
      destruct (picks_complete l x Hx) as [r Hr].
      apply in_flat_map. exists (x, r); split; [exact Hr|]; simpl.
      apply in_map, IH.
      * apply picks_rest_length in Hr; simpl in Hr; lia.
      * apply picks_perm in Hr.
        apply Permutation_cons_inv with (a := x).
        now rewrite <- Hr.
Qed.

Lemma flat_map_length_const {A B} (f : A -> list B) (l : list A) (k : nat) :
  (forall a, In a l -> length (f a) = k) ->
  length (flat_map f l) = (length l * k)%nat.
Proof.
  induction l as [|a l IH]; simpl; intros H; [reflexivity|].
  rewrite length_app, H, IH by auto. reflexivity.
Qed.

Lemma permutations_of_length {A} (n : nat) (l : list A) :
  length l = n -> length (Py.permutations_of n l) = fact n.
Proof.
  revert l; induction n as [|n IH]; simpl; intros l Hlen; [reflexivity|].
  rewrite flat_map_length_const with (k := fact n).
  - rewrite picks_length, Hlen. simpl. lia.
  - intros p Hp. rewrite length_map. apply IH.
    apply picks_rest_length in Hp. lia.
Qed.

Lemma permutations_sound {A} (l s : list A) :
  In s (Py.permutations l) -> Permutation l s.
Proof. now apply permutations_of_sound. Qed.

Lemma permutations_complete {A} (l s : list A) :
  Permutation l s -> In s (Py.permutations l).
Proof. now apply permutations_of_complete. Qed.

Lemma permutations_length {A} (l : list A) :
  length (Py.permutations l) = fact (length l).
Proof. now apply permutations_of_length. Qed.

Lemma permutations_nonempty {A} (l : list A) : Py.permutations l <> [].
Proof.
  intros H. pose proof (permutations_length l) as Hl.
  rewrite H in Hl; simpl in Hl. pose proof (lt_O_fact (length l)). lia.
Qed.

(** *** The best ordering, for every loss *)

Lemma min_gen_permutations {A} (l : list A) (cost : list A -> R) :
  l <> [] ->
  exists m,
    Py.min_gen (map (fun s => st <- Torch.stack s ;; Ok (cost st))
                    (Py.permutations l)) = Ok m
    /\ best_over_permutations l cost m.
Proof.
  intros Hne.
  assert (Hmap : map (fun s => st <- Torch.stack s ;; Ok (cost st))
                     (Py.permutations l)
                 = map (fun s => Ok (cost s)) (Py.permutations l)).
  { apply map_ext_in. intros s Hs. apply permutations_sound in Hs.
    destruct s as [|x s]; [|reflexivity].
    apply Permutation_sym, Permutation_nil in Hs. contradiction. }
  unfold Py.min_gen. rewrite Hmap, collect_map_ok; simpl.
  destruct (Py.min (map cost (Py.permutations l))) as [m|e] eqn:Hmin.
  - exists m; split; [reflexivity|].
    apply min_spec in Hmin as [Hin Hle]. split.
    + apply in_map_iff in Hin as [s [Hs Hin]].
      exists s; split; [now apply permutations_sound|exact Hs].
    + intros s Hs. apply Hle, in_map, permutations_complete, Hs.
  - exfalso. pose proof (permutations_nonempty l) as Hp.
    destruct (Py.permutations l); [congruence|discriminate].
Qed.

Lemma sum_gen_forall {A} (f : A -> result R) (P : A -> R -> Prop)
  (l : list A) :
  (forall e, In e l -> exists m, f e = Ok m /\ P e m) ->
  exists ms, Py.sum_gen (map f l) = Ok (Py.sum ms) /\ Forall2 P l ms.
Proof.
  unfold Py.sum_gen.
  induction l as [|e l IH]; intros H; simpl.
  - exists []; split; [reflexivity|constructor].
  - destruct (H e (or_introl eq_refl)) as [m [Hm HP]].
    destruct IH as [ms [Hms HF]]; [intros; apply H; now right|].
    rewrite Hm; simpl.
    destruct (collect (map f l)) as [l'|e'] eqn:Hc; simpl in *; [|discriminate].
    injection Hms as Hms.
    exists (m :: ms); split; [|now constructor].
    rewrite !sum_cons. now rewrite Hms.
Qed.

Lemma collect_raise {A} (g : list (result A)) (e : exn) :
  collect g = Raise e -> In (Raise e) g.
Proof.
  induction g as [|r g IH]; simpl; [discriminate|].
  destruct r as [a|e']; simpl.
  - destruct (collect g); simpl; [discriminate|].
    intros [= ->]. right. now apply IH.
  - intros [= ->]. now left.
Qed.

Lemma sum_min_permutations_ok {E A} (sel : E -> list A)
  (cost : E -> list A -> R) (batch : list E) :
  Forall (fun e => sel e <> []) batch ->
  exists mins,
    sum_min_permutations sel cost batch = Ok (Py.sum mins)
    /\ Forall2 (fun e m => best_over_permutations (sel e) (cost e) m)
               batch mins.
Proof.
  intros Hne. apply sum_gen_forall. intros e Hin.
  rewrite Forall_forall in Hne.
  apply (min_gen_permutations (sel e) (cost e) (Hne e Hin)).
Qed.

Lemma sum_min_permutations_raise {E A} (sel : E -> list A)
  (cost : E -> list A -> R) (batch : list E) (e : exn) :
  sum_min_permutations sel cost batch = Raise e -> e = RuntimeError.
Proof.
  unfold sum_min_permutations, Py.sum_gen. intros H.
  destruct (collect _) as [l|e'] eqn:Hc; simpl in H; [discriminate|].
  injection H as ->.
  apply collect_raise, in_map_iff in Hc as [x [Hx _]].
  unfold Py.min_gen in Hx.
  destruct (collect _) as [l|e'] eqn:Hc in Hx; simpl in Hx.
  - destruct l; simpl in Hx; [|discriminate].
    apply collect_ok_forall2 in Hc. inversion Hc as [Hnil|]; subst.
    symmetry in Hnil. apply map_eq_nil in Hnil.
    now apply permutations_nonempty in Hnil.
  - injection Hx as ->.
    apply collect_raise, in_map_iff in Hc as [s [Hs _]].
    destruct s; simpl in Hs; [now injection Hs|discriminate].
Qed.

(** ** [loss_wa] *)

Module LossWa.
Import Torch Losses.

Lemma loss_wa_eq (source_pred source_true : list (list (list R))) :
  loss_wa source_pred source_true
  = sum_min_permutations fst (fun e s => wa_cost s (snd e))
      (Py.zip source_pred source_true).
Proof.
  unfold loss_wa, sum_min_permutations. f_equal.
  apply map_ext; intros [p t]; reflexivity.
Qed.

End LossWa.

(** ** Elementwise operations *)

Section TensorFacts.
Import Torch.
Context {A B C D : Type}.

Lemma map2_length (f : A -> B -> C) (a : list A) (b : list B) :
  length (map2 f a b) = Nat.min (length a) (length b).
Proof.
  revert b; induction a as [|x a IH]; intros [|y b]; simpl; auto.
Qed.

Lemma map2_ext_in (f g : A -> B -> C) (a : list A) (b : list B) :
  (forall x y, In x a -> In y b -> f x y = g x y) ->
  map2 f a b = map2 g a b.
Proof.
  revert b; induction a as [|x a IH]; intros [|y b] H; simpl; auto.
  rewrite H by (now left). f_equal. apply IH. intros; apply H; now right.
Qed.

Lemma map2_map_l (f : D -> B -> C) (g : A -> D) (a : list A) (b : list B) :
  map2 f (map g a) b = map2 (fun x y => f (g x) y) a b.
Proof.
  revert b; induction a as [|x a IH]; intros [|y b]; simpl; auto.
  now rewrite IH.
Qed.

Lemma map2_map_r (f : A -> D -> C) (g : B -> D) (a : list A) (b : list B) :
  map2 f a (map g b) = map2 (fun x y => f x (g y)) a b.
Proof.
  revert b; induction a as [|x a IH]; intros [|y b]; simpl; auto.
  now rewrite IH.
Qed.

Lemma map_map2 (f : C -> D) (g : A -> B -> C) (a : list A) (b : list B) :
  map f (map2 g a b) = map2 (fun x y => f (g x y)) a b.
Proof.
  revert b; induction a as [|x a IH]; intros [|y b]; simpl; auto.
  now rewrite IH.
Qed.

Lemma map2_map2_l (f : A -> D -> C) (g : A -> B -> D) (a : list A)
  (b : list B) :
  map2 f a (map2 g a b) = map2 (fun x y => f x (g x y)) a b.
Proof.
  revert b; induction a as [|x a IH]; intros [|y b]; simpl; auto.
  now rewrite IH.
Qed.

Lemma map2_map2_r (f : D -> B -> C) (g : A -> B -> D) (a : list A)
  (b : list B) :
  map2 f (map2 g a b) b = map2 (fun x y => f (g x y) y) a b.
Proof.
  revert b; induction a as [|x a IH]; intros [|y b]; simpl; auto.
  now rewrite IH.
Qed.

Lemma map2_repeat_r (f : A -> B -> C) (a : list A) (y : B) :
  map2 f a (repeat y (length a)) = map (fun x => f x y) a.
Proof. induction a as [|x a IH]; simpl; auto. now rewrite IH. Qed.

Lemma bmap2_singleton (f : A -> B -> C) (a : list A) (y : B) :
  bmap2 f a [y] = map (fun x => f x y) a.
Proof. unfold bmap2; simpl. apply map2_repeat_r. Qed.

Lemma nth_error_map2 (f : A -> B -> C) (a : list A) (b : list B) (i : nat)
  (x : A) (y : B) :
  nth_error a i = Some x -> nth_error b i = Some y ->
  nth_error (map2 f a b) i = Some (f x y).
Proof.
  revert a b; induction i as [|i IH]; intros [|x' a] [|y' b]; simpl;
    try discriminate.
  - now intros [= ->] [= ->].
  - apply IH.
Qed.

Lemma nth_error_map2_inv (f : A -> B -> C) (a : list A) (b : list B)
  (i : nat) (z : C) :
  nth_error (map2 f a b) i = Some z ->
  exists x y, nth_error a i = Some x /\ nth_error b i = Some y /\ z = f x y.
Proof.
  revert a b; induction i as [|i IH]; intros [|x' a] [|y' b]; simpl;
    try discriminate.
  - intros [= <-]. now exists x', y'.
  - apply IH.
Qed.

End TensorFacts.

Lemma map2_same {A C} (f : A -> A -> C) (a : list A) :
  Torch.map2 f a a = map (fun x => f x x) a.
Proof. induction a as [|x a IH]; simpl; auto. now rewrite IH. Qed.

Lemma combine_map_map2 {A B C D} (f : A -> C) (g : B -> A -> D)
  (a : list A) (b : list B) :
  combine (map f a) (Torch.map2 g b a)
  = map (fun e => (f (fst e), g (snd e) (fst e))) (combine a b).
Proof.
  revert b; induction a as [|x a IH]; intros [|y b]; simpl; auto.
  now rewrite IH.
Qed.

Lemma combine_map_r {A B C} (f : B -> C) (a : list A) (b : list B) :
  combine a (map f b) = map (fun e => (fst e, f (snd e))) (combine a b).
Proof.
  revert b; induction a as [|x a IH]; intros [|y b]; simpl; auto.
  now rewrite IH.
Qed.

Lemma combine_map_l {A B C} (f : A -> C) (a : list A) (b : list B) :
  combine (map f a) b = map (fun e => (f (fst e), snd e)) (combine a b).
Proof.
  revert b; induction a as [|x a IH]; intros [|y b]; simpl; auto.
  now rewrite IH.
Qed.

Lemma sum_min_permutations_map {E E' A} (h : E' -> E) (sel : E -> list A)
  (cost : E -> list A -> R) (batch : list E') :
  sum_min_permutations sel cost (map h batch)
  = sum_min_permutations (fun e => sel (h e)) (fun e => cost (h e)) batch.
Proof. unfold sum_min_permutations. now rewrite map_map. Qed.

Lemma map2_repeat_l {A B C} (f : A -> B -> C) (x : A) (n : nat)
  (b : list B) :
  Torch.map2 f (repeat x n) b = map (f x) (firstn n b).
Proof.
  revert b; induction n as [|n IH]; intros [|y b]; simpl; auto.
  now rewrite IH.
Qed.

Lemma Forall2_eq_map {A} (P : A -> R -> Prop) (g : A -> R) (l : list A)
  (ms : list R) :
  Forall2 P l ms -> (forall e m, In e l -> P e m -> m = g e) ->
  ms = map g l.
Proof.
  induction 1 as [|e m l ms HP _ IH]; intros H; simpl; [reflexivity|].
  f_equal.
  - apply H; [now left|exact HP].
  - apply IH. intros; apply H; [now right|assumption].
Qed.

Lemma singleton_orderings {A} (x : A) (s : list A) :
  Permutation [x] s -> s = [x].
Proof. intros H. now apply Permutation_length_1_inv in H. Qed.

(** When every ordering of an item costs the same, the search returns that
    cost. *)
Lemma sum_min_permutations_const {E A} (sel : E -> list A)
  (cost : E -> list A -> R) (batch : list E) :
  (forall e, In e batch ->
     sel e <> [] /\ forall s, Permutation (sel e) s -> s = sel e) ->
  sum_min_permutations sel cost batch
  = Ok (Py.sum (map (fun e => cost e (sel e)) batch)).
Proof.
  intros H.
  destruct (sum_min_permutations_ok sel cost batch) as [mins [-> HF]].
  { apply Forall_forall. intros e He. now apply H. }
  do 2 f_equal. apply (Forall2_eq_map _ _ _ _ HF).
  intros e m He [[s [Hs <-]] _].
  destruct (H e He) as [_ Heq]. now rewrite (Heq s Hs).
Qed.

(** ** [loss_csa] *)

Module LossCsa.
Import Torch Losses.

Lemma map_3_map_3 {A B C} (f : B -> C) (g : A -> B) (x : list (list (list A))) :
  map_3 f (map_3 g x) = map_3 (fun a => f (g a)) x.
Proof.
  unfold map_3. rewrite map_map. apply map_ext; intros y.
  rewrite map_map. apply map_ext; intros z. apply map_map.
Qed.

Lemma loss_csa_eq com_pred mixture sources (L : Z) :
  L = 1%Z \/ L = 2%Z ->
  loss_csa com_pred mixture sources L
  = sum_min_permutations fst (fun e st => csa_cost L st (snd e))
      (Py.zip (source_pred com_pred mixture) sources).
Proof.
  intros [-> | ->]; unfold loss_csa, sum_min_permutations; simpl;
    fold (source_pred com_pred mixture); f_equal;
    apply map_ext; intros [p t]; simpl; f_equal;
    apply map_ext; intros s; destruct (stack s); simpl; auto.
  unfold csa_cost. now rewrite map_3_map_3.
Qed.

Lemma comp_mul_one (z : cplx) : comp_mul (1, 0) z = z.
Proof. destruct z as [a b]; unfold comp_mul; simpl. f_equal; ring. Qed.

Lemma map2_2_identity (X : list (list cplx)) :
  map2_2 comp_mul (map_2 (fun _ => (1, 0)) X) X = X.
Proof.
  unfold map2_2, map_2. rewrite map2_map_l, map2_same.
  rewrite <- (map_id X) at 2. apply map_ext; intros row.
  rewrite map2_map_l, map2_same.
  rewrite <- (map_id row) at 2. apply map_ext; intros z.
  apply comp_mul_one.
Qed.

Lemma source_pred_identity (C : nat) mixture :
  source_pred (identity_mask C mixture) mixture
  = map (fun X => repeat X C) mixture.
Proof.
  unfold source_pred, identity_mask.
  rewrite map2_map_l, map2_map_r, map2_same.
  apply map_ext; intros X. rewrite bmap2_singleton, map_repeat.
  now rewrite map2_2_identity.
Qed.

(** C5. With the identity mask (1, 0) in every bin and channel, the
    prediction of every channel is the mixture itself, and the loss is the
    sum over the batch of the distances of the residuals whose components
    are (re mixture - re source, im mixture - im source). *)
Theorem loss_csa_identity_mask_residual (C : nat)
  (mixture : list (list (list cplx)))
  (sources : list (list (list (list cplx)))) (L : Z) :
  L = 1%Z \/ L = 2%Z -> C <> O ->
  source_pred (identity_mask C mixture) mixture
  = map (fun X => repeat X C) mixture
  /\ loss_csa (identity_mask C mixture) mixture sources L
     = Ok (Py.sum
             (map (fun e =>
                     sum3 (map_3 (csa_dist L)
                       (map (map2_2 (fun x s => (fst x - fst s, snd x - snd s))
                                    (fst e))
                            (firstn C (snd e)))))
                  (Py.zip mixture sources))).
Proof.
  intros HL HC. split; [apply source_pred_identity|].
  rewrite loss_csa_eq, source_pred_identity by exact HL.
  unfold Py.zip. rewrite combine_map_l, sum_min_permutations_map.
  rewrite sum_min_permutations_const.
  - do 2 f_equal. apply map_ext; intros [X S]; simpl.
    unfold csa_cost, map2_3. now rewrite map2_repeat_l.
  - intros [X S] _; simpl. split.
    + destruct C; [congruence|discriminate].
    + intros s Hs. now apply Permutation_sym, Permutation_repeat in Hs.
Qed.

Lemma loss_csa_identity_mask_residual_witness :
  loss_csa (identity_mask 2 [[[(3, 4)]]]) [[[(3, 4)]]]
           [[[[(1, 1)]]; [[(2, 3)]]]] 1
  = Ok (Py.sum
          (map (fun e =>
                  sum3 (map_3 (csa_dist 1)
                    (map (map2_2 (fun x s => (fst x - fst s, snd x - snd s))
                                 (fst e))
                         (firstn 2 (snd e)))))
               (Py.zip [[[(3, 4)]]] [[[[(1, 1)]]; [[(2, 3)]]]]))).
Proof.
  apply (loss_csa_identity_mask_residual 2 [[[(3, 4)]]]
           [[[[(1, 1)]]; [[(2, 3)]]]] 1).
  - left; reflexivity.
  - discriminate.
Defined.

End LossCsa.

Lemma sum_min_permutations_ext {E A} (sel : E -> list A)
  (cost cost' : E -> list A -> R) (batch : list E) :
  (forall e s, cost e s = cost' e s) ->
  sum_min_permutations sel cost batch = sum_min_permutations sel cost' batch.
Proof.
  intros H. unfold sum_min_permutations. f_equal.
  apply map_ext; intros e. f_equal.
  apply map_ext; intros s. destruct (Torch.stack s); simpl; [|reflexivity].
  now rewrite H.
Qed.

(** ** [loss_mi_tpsa] *)

Module LossTpsa.
Import Torch Losses.

Ltac zip_induction a b :=
  revert b; induction a as [|? a IH]; intros [|? b]; cbn [map map2 map3];
  [reflexivity .. | f_equal; try apply IH].

Lemma spectrum_row gamma (S X : list cplx) :
  map2 Rmin
    (map2 Rmax
       (map2 Rmult (map abs_comp S)
          (map cos (map2 Rminus (map phase_comp S) (map phase_comp X))))
       (map (fun _ => 0) (map abs_comp S)))
    (map (Rmult gamma) (map abs_comp X))
  = map2 (tps_target abs_comp gamma) S X.
Proof. zip_induction S X; reflexivity. Qed.

Lemma spectrum_plane gamma (S X : list (list cplx)) :
  map2 (map2 Rmin)
    (map2 (map2 Rmax)
       (map2 (map2 Rmult) (map_2 abs_comp S)
          (map_2 cos (map2 (map2 Rminus) (map_2 phase_comp S)
                                         (map_2 phase_comp X))))
       (map_2 (fun _ => 0) (map_2 abs_comp S)))
    (map_2 (Rmult gamma) (map_2 abs_comp X))
  = map2_2 (tps_target abs_comp gamma) S X.
Proof.
  unfold map_2, map2_2. zip_induction S X. apply spectrum_row.
Qed.

Lemma spectrum_item gamma (S : list (list (list cplx))) (X : list (list cplx)) :
  bmap2 (map2_2 Rmin)
    (map2_3 Rmax
       (map2_3 Rmult (map_3 abs_comp S)
          (map_3 cos (bmap2 (map2_2 Rminus) (map_3 phase_comp S)
                            [map_2 phase_comp X])))
       (map_3 (fun _ => 0) (map_3 abs_comp S)))
    (map_3 (Rmult gamma) [map_2 abs_comp X])
  = map (fun S_c => map2_2 (tps_target abs_comp gamma) S_c X) S.
Proof.
  unfold map_3, map2_3. cbn [map]. rewrite !bmap2_singleton.
  induction S as [|S_c S IH]; cbn [map map2]; [reflexivity|].
  f_equal; try apply IH. apply spectrum_plane.
Qed.

Lemma spectrum_eq gamma mixture sources :
  spectrum gamma mixture sources
  = map2 (fun S X => map (fun S_c => map2_2 (tps_target abs_comp gamma) S_c X) S)
         sources mixture.
Proof.
  unfold spectrum, map_4.
  zip_induction sources mixture. apply spectrum_item.
Qed.

Ltac zip3_induction a b c :=
  revert b c; induction a as [|? a IH]; intros [|? b] [|? c];
  cbn [map map2 map3]; [reflexivity .. | f_equal; try apply IH].

Lemma cost_row (g : R -> R) gamma (M : list R) (S X : list cplx) :
  map g (map2 Rminus (map2 Rmult M (map abs_comp X))
                     (map2 (tps_target abs_comp gamma) S X))
  = map3 (fun m s x =>
            g (m * abs_comp x - tps_target abs_comp gamma s x)) M S X.
Proof. zip3_induction M S X; reflexivity. Qed.

Lemma cost_plane (g : R -> R) gamma (M : list (list R))
  (S X : list (list cplx)) :
  map_2 g (map2_2 Rminus (map2_2 Rmult M (map_2 abs_comp X))
                         (map2_2 (tps_target abs_comp gamma) S X))
  = map3 (map3 (fun m s x =>
                  g (m * abs_comp x - tps_target abs_comp gamma s x)))
         M S X.
Proof.
  unfold map_2, map2_2. zip3_induction M S X. apply cost_row.
Qed.

Lemma cost_item (g : R -> R) gamma (M : list (list (list R)))
  (X : list (list cplx)) (S : list (list (list cplx))) :
  map_3 g
    (map2_3 Rminus (bmap2 (map2_2 Rmult) M [map_2 abs_comp X])
       (map (fun S_c => map2_2 (tps_target abs_comp gamma) S_c X) S))
  = map2 (fun M_c S_c =>
            map3 (map3 (fun m s x =>
                    g (m * abs_comp x - tps_target abs_comp gamma s x)))
                 M_c S_c X)
         M S.
Proof.
  rewrite bmap2_singleton. unfold map_3, map2_3.
  zip_induction M S. apply cost_plane.
Qed.

Lemma stack_bind {A} (s : list A) (k : list A -> R) :
  (st <- stack s ;; Ok (k st))
  = match s with [] => Raise RuntimeError | _ => Ok (k s) end.
Proof. now destruct s. Qed.

Lemma loss_mi_tpsa_eq mask mixture sources gamma (L : Z) :
  L = 1%Z \/ L = 2%Z ->
  loss_mi_tpsa mask mixture sources gamma L
  = sum_min_permutations fst
      (fun e st =>
         tpsa_cost abs_comp L gamma st (fst (snd e)) (snd (snd e)))
      (Py.zip mask (Py.zip mixture sources)).
Proof.
  intros HL.
  pose proof (spectrum_eq gamma mixture sources) as Hs.
  unfold spectrum in Hs; cbv zeta in Hs.
  assert (Hzip :
    Py.zip mask
      (Py.zip (map (fun X => [map_2 abs_comp X]) mixture)
         (map2 (fun S X =>
                  map (fun S_c => map2_2 (tps_target abs_comp gamma) S_c X) S)
               sources mixture))
    = map (fun e =>
             (fst e,
              ([map_2 abs_comp (fst (snd e))],
               map (fun S_c =>
                      map2_2 (tps_target abs_comp gamma) S_c (fst (snd e)))
                   (snd (snd e)))))
          (Py.zip mask (Py.zip mixture sources))).
  { unfold Py.zip. rewrite combine_map_map2. now rewrite combine_map_r. }
  unfold sum_min_permutations.
  destruct HL as [-> | ->]; unfold loss_mi_tpsa; cbv zeta;
    cbn [Z.eqb Pos.eqb];
    rewrite Hs, Hzip, map_map; f_equal;
    apply map_ext; intros [M [X S]]; cbn [fst snd]; f_equal;
    apply map_ext; intros s; rewrite !stack_bind; destruct s; auto;
    f_equal; unfold tpsa_cost; f_equal.
  - apply (cost_item Rabs).
  - apply (cost_item (fun v => v ^ Z.to_nat 2)).
Qed.

(** The magnitude [abs_comp] is the exact magnitude, floored at 1e-6. *)
Lemma abs_comp_floor (z : cplx) : abs_comp z = Rmax (norm2 z) 1e-6.
Proof.
  unfold abs_comp, clamp_min, norm2.
  assert (Hq : 0 <= fst z ^ 2 + snd z ^ 2) by nra.
  assert (He : sqrt 1e-12 = 1e-6).
  { replace 1e-12 with (1e-6 * 1e-6) by lra. apply sqrt_square; lra. }
  destruct (Rle_dec (fst z ^ 2 + snd z ^ 2) 1e-12) as [H|H].
  - rewrite Rmax_right by exact H. rewrite He.
    rewrite Rmax_right; [reflexivity|].
    rewrite <- He. now apply sqrt_le_1_alt.
  - rewrite Rmax_left by lra.
    rewrite Rmax_left; [reflexivity|].
    rewrite <- He. apply sqrt_le_1_alt. lra.
Qed.

Lemma abs_comp_exact (z : cplx) :
  1e-12 <= fst z ^ 2 + snd z ^ 2 -> abs_comp z = norm2 z.
Proof.
  intros H. unfold abs_comp, clamp_min, norm2. now rewrite Rmax_left.
Qed.

(** C6 (amended). For [L] in {1, 2}, [loss_mi_tpsa] is the sum over the
    batch of the least total cost over the orderings of the mask channels,
    the cost of a bin being the L1 (absolute) or L2 (squared) distance
    between mask * |mixture| and the target
    min(max(|source| * cos(phase_source - phase_mixture), 0), gamma * |mixture|),
    where |.| is the magnitude floored at 1e-6, [abs_comp], which is the
    exact magnitude of every bin whose squared magnitude is at least 1e-12. *)
Theorem loss_mi_tpsa_floored_magnitude_target
  (mask : list (list (list (list R))))
  (mixture : list (list (list cplx)))
  (sources : list (list (list (list cplx)))) (gamma : R) (L : Z) :
  L = 1%Z \/ L = 2%Z ->
  Forall (fun M => M <> []) mask ->
  (forall z, abs_comp z = Rmax (norm2 z) 1e-6)
  /\ (forall z, 1e-12 <= fst z ^ 2 + snd z ^ 2 -> abs_comp z = norm2 z)
  /\ exists mins,
       loss_mi_tpsa mask mixture sources gamma L = Ok (Py.sum mins)
       /\ Forall2
            (fun e m =>
               best_over_permutations (fst e)
                 (fun s =>
                    tpsa_cost abs_comp L gamma s (fst (snd e)) (snd (snd e)))
                 m)
            (Py.zip mask (Py.zip mixture sources)) mins.
Proof.
  intros HL Hne.
  split; [exact abs_comp_floor|]. split; [exact abs_comp_exact|].
  rewrite loss_mi_tpsa_eq by exact HL.
  apply sum_min_permutations_ok.
  apply Forall_forall. intros [M e] Hin; simpl.
  rewrite Forall_forall in Hne. apply Hne.
  unfold Py.zip in Hin. now apply in_combine_l in Hin.
Qed.

Lemma loss_mi_tpsa_floored_magnitude_target_witness :
  exists mins,
    loss_mi_tpsa [[[[0]]]] [[[(1, 0)]]] [[[[(0, 0)]]]] 1 1 = Ok (Py.sum mins)
    /\ Forall2
         (fun e m =>
            best_over_permutations (fst e)
              (fun s =>
                 tpsa_cost abs_comp 1 1 s (fst (snd e)) (snd (snd e)))
              m)
         (Py.zip [[[[0]]]] (Py.zip [[[(1, 0)]]] [[[[(0, 0)]]]])) mins.
Proof.
  apply (loss_mi_tpsa_floored_magnitude_target
           [[[[0]]]] [[[(1, 0)]]] [[[[(0, 0)]]]] 1 1).
  - left; reflexivity.
  - constructor; [discriminate|constructor].
Defined.

(** A silent source bin (0, 0) under a mixture bin (1, 0). *)
Lemma abs_comp_silent : abs_comp (0, 0) = 1e-6.
Proof.
  rewrite abs_comp_floor. unfold norm2; simpl.
  replace (0 * (0 * 1) + 0 * (0 * 1)) with 0 by ring.
  rewrite sqrt_0. apply Rmax_right; lra.
Qed.

Lemma abs_comp_unit : abs_comp (1, 0) = 1.
Proof.
  rewrite abs_comp_floor. unfold norm2; simpl.
  replace (1 * (1 * 1) + 0 * (0 * 1)) with 1 by ring.
  rewrite sqrt_1. apply Rmax_left; lra.
Qed.

Lemma phase_comp_silent : phase_comp (0, 0) = 0.
Proof.
  unfold phase_comp, atan2; simpl.
  destruct (Rlt_dec 0 0) as [H|_]; [lra|reflexivity].
Qed.

Lemma phase_comp_unit : phase_comp (1, 0) = 0.
Proof.
  unfold phase_comp, atan2; simpl.
  destruct (Rlt_dec 0 1) as [_|H]; [|lra].
  replace (0 / 1) with 0 by field. apply atan_0.
Qed.

Lemma tpsa_cost_silent_floored :
  tpsa_cost abs_comp 1 1 [[[0]]] [[(1, 0)]] [[[(0, 0)]]] = 1e-6.
Proof.
  unfold tpsa_cost, sum3, sum2, sum1, tpsa_dist, tps_target; simpl.
  rewrite abs_comp_silent, abs_comp_unit, phase_comp_silent, phase_comp_unit.
  replace (0 - 0) with 0 by ring. rewrite cos_0.
  rewrite (Rmax_left (1e-6 * 1) 0) by lra.
  rewrite Rmin_left by lra.
  unfold Rabs; destruct (Rcase_abs _); lra.
Qed.

Lemma tpsa_cost_silent_exact :
  tpsa_cost norm2 1 1 [[[0]]] [[(1, 0)]] [[[(0, 0)]]] = 0.
Proof.
  unfold tpsa_cost, sum3, sum2, sum1, tpsa_dist, tps_target, norm2; simpl.
  replace (0 * (0 * 1) + 0 * (0 * 1)) with 0 by ring.
  replace (1 * (1 * 1) + 0 * (0 * 1)) with 1 by ring.
  rewrite sqrt_0, sqrt_1, Rmult_0_l.
  rewrite Rmax_left by lra. rewrite Rmin_left by lra.
  unfold Rabs; destruct (Rcase_abs _); lra.
Qed.

(** C6 as stated, with the exact magnitude sqrt(re^2 + im^2) for |.|, fails
    on one silent source bin: mask 0, mixture bin (1, 0), source bin (0, 0),
    gamma = 1, L = 1. The code returns 1e-6, the stated formula gives 0. *)
Lemma loss_mi_tpsa_exact_magnitude_counterexample :
  loss_mi_tpsa [[[[0]]]] [[[(1, 0)]]] [[[[(0, 0)]]]] 1 1 = Ok 1e-6
  /\ ~ exists mins,
       loss_mi_tpsa [[[[0]]]] [[[(1, 0)]]] [[[[(0, 0)]]]] 1 1
       = Ok (Py.sum mins)
       /\ Forall2
            (fun e m =>
               best_over_permutations (fst e)
                 (fun s => tpsa_cost norm2 1 1 s (fst (snd e)) (snd (snd e)))
                 m)
            (Py.zip [[[[0]]]] (Py.zip [[[(1, 0)]]] [[[[(0, 0)]]]])) mins.
Proof.
  assert (Hv : loss_mi_tpsa [[[[0]]]] [[[(1, 0)]]] [[[[(0, 0)]]]] 1 1
               = Ok 1e-6).
  { rewrite loss_mi_tpsa_eq by (left; reflexivity).
    rewrite sum_min_permutations_const.
    - simpl. rewrite tpsa_cost_silent_floored.
      unfold Py.sum; simpl. f_equal; lra.
    - intros e [<-|[]]; simpl. split; [discriminate|].
      apply singleton_orderings. }
  split; [exact Hv|].
  intros [mins [Hl HF]]. rewrite Hv in Hl. injection Hl as Hl.
  simpl in HF. inversion HF as [|e m l ms Hb Hnil]; subst.
  inversion Hnil; subst.
  destruct Hb as [[s [Hs Hm]] _]; simpl in *.
  apply singleton_orderings in Hs; subst s.
  rewrite tpsa_cost_silent_exact in Hm. subst m.
  unfold Py.sum in Hl; simpl in Hl. lra.
Qed.

End LossTpsa.

(** ** The order [L] of the distance-based losses *)

Module LossOrder.
Import Torch Losses.

(** C7. [loss_mi_tpsa] and [loss_csa] raise [NotImplementedError] exactly
    when [L] is neither 1 nor 2, whatever the tensors are: no other order is
    taken as a default, and for [L] in {1, 2} that error is never raised
    (with at least one channel in every batch item a value is returned). *)
Theorem unsupported_order_raises
  (mask : list (list (list (list R))))
  (com_pred : list (list (list (list cplx))))
  (mixture : list (list (list cplx)))
  (sources : list (list (list (list cplx)))) (gamma : R) (L : Z) :
  (loss_mi_tpsa mask mixture sources gamma L = Raise NotImplementedError
   <-> L <> 1%Z /\ L <> 2%Z)
  /\ (loss_csa com_pred mixture sources L = Raise NotImplementedError
      <-> L <> 1%Z /\ L <> 2%Z)
  /\ (L = 1%Z \/ L = 2%Z ->
      Forall (fun M => M <> []) mask ->
      exists v, loss_mi_tpsa mask mixture sources gamma L = Ok v)
  /\ (L = 1%Z \/ L = 2%Z ->
      Forall (fun M => M <> []) (source_pred com_pred mixture) ->
      exists v, loss_csa com_pred mixture sources L = Ok v).
Proof.
  split; [|split; [|split]].
  - split.
    + intros H; split; intros ->.
      * rewrite LossTpsa.loss_mi_tpsa_eq in H by now left.
        apply sum_min_permutations_raise in H. discriminate.
      * rewrite LossTpsa.loss_mi_tpsa_eq in H by now right.
        apply sum_min_permutations_raise in H. discriminate.
    + intros [H1 H2]. unfold loss_mi_tpsa.
      apply Z.eqb_neq in H1, H2. now rewrite H1, H2.
  - split.
    + intros H; split; intros ->.
      * rewrite LossCsa.loss_csa_eq in H by now left.
        apply sum_min_permutations_raise in H. discriminate.
      * rewrite LossCsa.loss_csa_eq in H by now right.
        apply sum_min_permutations_raise in H. discriminate.
    + intros [H1 H2]. unfold loss_csa.
      apply Z.eqb_neq in H1, H2. now rewrite H1, H2.
  - intros HL Hne. rewrite LossTpsa.loss_mi_tpsa_eq by exact HL.
    destruct (sum_min_permutations_ok fst
                (fun e st =>
                   tpsa_cost abs_comp L gamma st (fst (snd e))
                     (snd (snd e)))
                (Py.zip mask (Py.zip mixture sources)))
      as [mins [Hm _]].
    + apply Forall_forall. intros [M e] Hin; simpl.
      rewrite Forall_forall in Hne. apply Hne.
      unfold Py.zip in Hin. now apply in_combine_l in Hin.
    + now exists (Py.sum mins).
  - intros HL Hne. rewrite LossCsa.loss_csa_eq by exact HL.
    destruct (sum_min_permutations_ok fst
                (fun e st => csa_cost L st (snd e))
                (Py.zip (source_pred com_pred mixture) sources))
      as [mins [Hm _]].
    + apply Forall_forall. intros [p t] Hin; simpl.
      rewrite Forall_forall in Hne. apply Hne.
      unfold Py.zip in Hin. now apply in_combine_l in Hin.
    + now exists (Py.sum mins).
Qed.

Lemma unsupported_order_raises_witness :
  loss_mi_tpsa [[[[0]]]] [[[(1, 0)]]] [[[[(0, 0)]]]] 1 3
  = Raise NotImplementedError
  /\ loss_csa [[[[(1, 0)]]]] [[[(1, 0)]]] [[[[(0, 0)]]]] 3
     = Raise NotImplementedError
  /\ (exists v,
        loss_mi_tpsa [[[[0]]]] [[[(1, 0)]]] [[[[(0, 0)]]]] 1 2 = Ok v)
  /\ (exists v,
        loss_csa [[[[(1, 0)]]]] [[[(1, 0)]]] [[[[(0, 0)]]]] 1 = Ok v).
Proof.
  split; [|split; [|split]].
  - apply (unsupported_order_raises [[[[0]]]] [[[[(1, 0)]]]] [[[(1, 0)]]]
             [[[[(0, 0)]]]] 1 3). split; discriminate.
  - apply (unsupported_order_raises [[[[0]]]] [[[[(1, 0)]]]] [[[(1, 0)]]]
             [[[[(0, 0)]]]] 1 3). split; discriminate.
  - apply (unsupported_order_raises [[[[0]]]] [[[[(1, 0)]]]] [[[(1, 0)]]]
             [[[[(0, 0)]]]] 1 2).
    + right; reflexivity.
    + constructor; [discriminate|constructor].
  - apply (unsupported_order_raises [[[[0]]]] [[[[(1, 0)]]]] [[[(1, 0)]]]
             [[[[(0, 0)]]]] 1 1).
    + left; reflexivity.
    + constructor; [discriminate|constructor].
Defined.

End LossOrder.

(** ** MISI: the residual of one step *)

Module MisiDelta.
Import Torch Submodels.

Lemma nth_map2 {A B C} (f : A -> B -> C) (a : list A) (b : list B) (i : nat)
  (da : A) (db : B) (dc : C) :
  (i < length a)%nat -> (i < length b)%nat ->
  nth i (map2 f a b) dc = f (nth i a da) (nth i b db).
Proof.
  revert a b; induction i as [|i IH]; intros [|x a] [|y b]; simpl;
    try lia; auto.
  intros Ha Hb. apply IH; lia.
Qed.

Lemma chunks_length {A} (b c : nat) (x : list A) :
  length (chunks b c x) = b.
Proof. revert x; induction b as [|b IH]; intros x; simpl; auto. Qed.

Lemma nth_chunks {A} (b c : nat) (x : list A) (k : nat) :
  (k < b)%nat -> nth k (chunks b c x) [] = firstn c (skipn (k * c) x).
Proof.
  revert x k; induction b as [|b IH]; intros x [|k] Hk; simpl; try lia.
  - reflexivity.
  - rewrite IH by lia. now rewrite skipn_skipn, Nat.add_comm.
Qed.

Lemma nth_repeat_interleave {A} (n : nat) (x : list A) (k c : nat) (d : A) :
  (k < length x)%nat -> (c < n)%nat ->
  nth (k * n + c) (repeat_interleave n x) d = nth k x d.
Proof.
  unfold repeat_interleave.
  revert k; induction x as [|r x IH]; intros [|k] Hk Hc; simpl in *; try lia.
  - rewrite app_nth1 by (rewrite repeat_length; lia).
    apply nth_repeat_lt. lia.
  - rewrite app_nth2 by (rewrite repeat_length; lia).
    rewrite repeat_length.
    replace (n + k * n + c - n)%nat with (k * n + c)%nat by lia.
    apply IH; lia.
Qed.

Lemma repeat_interleave_length {A} (n : nat) (x : list A) :
  length (repeat_interleave n x) = (length x * n)%nat.
Proof.
  unfold repeat_interleave. induction x as [|r x IH]; simpl; auto.
  rewrite length_app, repeat_length, IH. lia.
Qed.

Lemma sum_channels_length (w : nat) (x : list wave) :
  Forall (fun row => length row = w) x -> length (sum_channels w x) = w.
Proof.
  unfold sum_channels. induction 1 as [|row x Hrow _ IH]; simpl.
  - apply repeat_length.
  - rewrite map2_length, IH, Hrow. lia.
Qed.

Lemma nth_sum_channels (w : nat) (x : list wave) (i : nat) :
  Forall (fun row => length row = w) x -> (i < w)%nat ->
  nth i (sum_channels w x) 0 = sum1 (map (fun row => nth i row 0) x).
Proof.
  intros Hx Hi. induction Hx as [|row x Hrow Hx IH]; simpl.
  - now rewrite nth_repeat_lt.
  - rewrite (nth_map2 Rplus row _ i 0 0 0).
    + now rewrite IH.
    + lia.
    + fold (sum_channels w x). rewrite sum_channels_length; auto.
Qed.

Lemma map_firstn_skipn_seq {A B} (f : A -> B) (x : list A) (k c : nat)
  (d : A) :
  (k + c <= length x)%nat ->
  map f (firstn c (skipn k x)) = map (fun j => f (nth (k + j) x d)) (seq 0 c).
Proof.
  revert x k; induction c as [|c IH]; intros x k Hk; [reflexivity|].
  assert (Hs : firstn (S c) (skipn k x)
               = firstn c (skipn k x) ++ [nth (k + c) x d]).
  { clear IH. revert x Hk; induction k as [|k IHk]; intros x Hk.
    - simpl. revert x Hk; induction c as [|c IHc]; intros [|a x] Hk;
        simpl in *; try lia; auto.
      f_equal. apply IHc. lia.
    - destruct x as [|a x]; simpl in *; [lia|]. apply IHk. lia. }
  rewrite Hs, seq_S, !map_app, IH by lia. reflexivity.
Qed.

Lemma reshape_ok (b c w : nat) (x : list wave) (g : list (list wave)) :
  reshape b c w x = Ok g ->
  g = chunks b c x /\ length x = (b * c)%nat
  /\ Forall (fun row => length row = w) x.
Proof.
  unfold reshape.
  destruct (_ && _) eqn:H; [|discriminate]. intros [= <-].
  apply andb_true_iff in H as [Hl Hr]. apply Nat.eqb_eq in Hl.
  repeat split; auto.
  apply Forall_forall. intros row Hin.
  rewrite forallb_forall in Hr. now apply Nat.eqb_eq, Hr.
Qed.

Section Delta.
Variable torchaudio_istft : nat -> nat -> nat -> spec -> wave.

Lemma MisiLayer_delta_inv (self : MisiLayer) (Shat : list spec)
  (mixture shat delta : list wave) (C : nat) :
  MisiLayer_delta torchaudio_istft self Shat mixture = Ok (C, shat, delta) ->
  length mixture <> O
  /\ C = (length Shat / length mixture)%nat
  /\ shat = map (torchaudio_istft (n_fft self) (hop_length self)
                   (win_length self)) Shat
  /\ length shat = (length mixture * C)%nat
  /\ Forall (fun row => length row = length (hd [] mixture)) shat
  /\ delta = map2_2 Rminus mixture
               (map_2 (fun v => v / INR C)
                  (map (sum_channels (length (hd [] mixture)))
                       (chunks (length mixture) C shat))).
Proof.
  unfold MisiLayer_delta, Py.floordiv.
  destruct (length mixture) as [|B] eqn:HB; simpl; [discriminate|].
  destruct (reshape _ _ _ _) as [g|e] eqn:Hr; simpl; [|discriminate].
  apply reshape_ok in Hr as [-> [Hlen Hrows]].
  intros [= <- <- <-]. repeat split; auto.
Qed.

End Delta.

Lemma nth_map_lt {A B} (f : A -> B) (l : list A) (k : nat) (d : A) (d' : B) :
  (k < length l)%nat -> nth k (map f l) d' = f (nth k l d).
Proof.
  intros Hk. rewrite (nth_indep _ d' (f d)) by (now rewrite length_map).
  apply map_nth.
Qed.

Lemma Forall_chunk {A} (P : A -> Prop) (x : list A) (k c : nat) :
  Forall P x -> Forall P (firstn c (skipn k x)).
Proof.
  intros H.
  assert (Hs : Forall P (skipn k x)).
  { revert x H; induction k as [|k IH]; intros x H; simpl; auto.
    destruct H; [constructor|]. now apply IH. }
  revert Hs. generalize (skipn k x) as y.
  induction c as [|c IH]; intros y Hy; simpl; [constructor|].
  destruct Hy; constructor; auto.
Qed.

Lemma delta_entry (mixture shat : list wave) (C b i : nat) :
  let B := length mixture in
  let W := length (hd [] mixture) in
  Forall (fun row => length row = W) mixture ->
  Forall (fun row => length row = W) shat ->
  length shat = (B * C)%nat ->
  (b < B)%nat -> (i < W)%nat ->
  nth i (nth b (map2_2 Rminus mixture
                  (map_2 (fun v => v / INR C)
                     (map (sum_channels W) (chunks B C shat)))) []) 0
  = nth i (nth b mixture []) 0
    - sum_n C (fun c => nth i (nth (b * C + c) shat []) 0) / INR C.
Proof.
  intros B W Hmix Hshat Hlen Hb Hi.
  assert (Hrow : length (nth b mixture []) = W).
  { rewrite Forall_forall in Hmix. apply Hmix, nth_In. exact Hb. }
  assert (Hchunk : Forall (fun row => length row = W)
                          (firstn C (skipn (b * C) shat)))
    by now apply Forall_chunk.
  unfold map2_2, map_2.
  rewrite (nth_map2 (map2 Rminus) mixture _ b [] [] []);
    [|exact Hb|now rewrite !length_map, chunks_length].
  rewrite (nth_map_lt _ _ b []) by now rewrite length_map, chunks_length.
  rewrite (nth_map_lt _ _ b []) by now rewrite chunks_length.
  rewrite nth_chunks by exact Hb.
  rewrite (nth_map2 Rminus _ _ i 0 0 0);
    [|now rewrite Hrow|now rewrite length_map, sum_channels_length].
  rewrite (nth_map_lt _ _ i 0) by now rewrite sum_channels_length.
  rewrite nth_sum_channels by assumption.
  rewrite (map_firstn_skipn_seq _ shat (b * C) C []) by nia.
  reflexivity.
Qed.

Section Residual.
Variable torch_stft : nat -> nat -> nat -> wave -> spec.
Variable torchaudio_istft : nat -> nat -> nat -> spec -> wave.

(** C3. In one MISI step [shat] is the inverse transform of every channel
    estimate; [delta], per batch item and sample, is the mixture minus the
    sum of the [C] channel reconstructions of that item divided by [C]; the
    same [delta] of the item is added to each of its channels before the
    transform; with [C = 1] it is the mixture minus the one estimate. *)
Theorem misi_step_residual (self : MisiLayer) (Shat : list spec)
  (mixture shat delta : list wave) (C : nat) :
  let B := length mixture in
  let W := length (hd [] mixture) in
  Forall (fun row => length row = W) mixture ->
  MisiLayer_delta torchaudio_istft self Shat mixture = Ok (C, shat, delta) ->
  shat = map (torchaudio_istft (n_fft self) (hop_length self)
                (win_length self)) Shat
  /\ (forall b i, (b < B)%nat -> (i < W)%nat ->
        nth i (nth b delta []) 0
        = nth i (nth b mixture []) 0
          - sum_n C (fun c => nth i (nth (b * C + c) shat []) 0) / INR C)
  /\ MisiLayer_tmp torch_stft torchaudio_istft self Shat mixture
     = Ok (map (torch_stft (n_fft self) (hop_length self) (win_length self))
             (map2_2 Rplus shat (repeat_interleave C delta)))
  /\ (forall b c, (b < B)%nat -> (c < C)%nat ->
        nth (b * C + c) (map2_2 Rplus shat (repeat_interleave C delta)) []
        = map2 Rplus (nth (b * C + c) shat []) (nth b delta []))
  /\ (C = 1%nat -> forall b i, (b < B)%nat -> (i < W)%nat ->
        nth i (nth b delta []) 0
        = nth i (nth b mixture []) 0 - nth i (nth b shat []) 0).
Proof.
  intros B W Hmix Hd.
  pose proof (MisiLayer_delta_inv _ _ _ _ _ _ _ Hd)
    as [HB [HC [Hshat [Hlen [Hrows Hdelta]]]]].
  assert (Hentry : forall b i, (b < B)%nat -> (i < W)%nat ->
            nth i (nth b delta []) 0
            = nth i (nth b mixture []) 0
              - sum_n C (fun c => nth i (nth (b * C + c) shat []) 0) / INR C).
  { intros b i Hb Hi. rewrite Hdelta. now apply delta_entry. }
  assert (Hdl : length delta = B).
  { rewrite Hdelta. unfold map2_2, map_2.
    rewrite map2_length, !length_map, chunks_length. apply Nat.min_id. }
  split; [exact Hshat|]. split; [exact Hentry|]. split; [|split].
  - unfold MisiLayer_tmp. now rewrite Hd.
  - intros b c Hb Hc. unfold map2_2.
    rewrite (nth_map2 (map2 Rplus) shat _ (b * C + c) [] [] []).
    + rewrite nth_repeat_interleave;
        [reflexivity|rewrite Hdl; exact Hb|exact Hc].
    + rewrite Hlen. fold B. nia.
    + rewrite repeat_interleave_length, Hdl. nia.
  - intros -> b i Hb Hi. rewrite Hentry by assumption.
    unfold sum_n; simpl. rewrite Nat.mul_1_r, Nat.add_0_r. field.
Qed.

End Residual.

Lemma misi_step_residual_witness :
  let istft := fun (_ _ _ : nat) (S : spec) => map fst (hd [] S) in
  let stft := fun (_ _ _ : nat) (x : wave) => [map (fun v => (v, 0)) x] in
  let delta := [[10 - (1 + (3 + 0)) / INR 2; 20 - (2 + (4 + 0)) / INR 2]] in
  nth 1 (nth 0 delta []) 0
  = nth 1 (nth 0 [[10; 20]] []) 0
    - sum_n 2 (fun c => nth 1 (nth (0 * 2 + c) [[1; 2]; [3; 4]] []) 0)
      / INR 2.
Proof.
  intros istft stft delta.
  apply (misi_step_residual stft istft
           {| n_fft := 4; hop_length := 1; win_length := 4 |}
           [[[(1, 0); (2, 0)]]; [[(3, 0); (4, 0)]]]
           [[10; 20]] [[1; 2]; [3; 4]] delta 2).
  - repeat constructor.
  - reflexivity.
  - simpl; lia.
  - simpl; lia.
Defined.

Section DeltaTotal.
Variable torchaudio_istft : nat -> nat -> nat -> spec -> wave.

(** On operands of the documented shapes the step computes its residual. *)
Lemma MisiLayer_delta_ok (self : MisiLayer) (Shat : list spec)
  (mixture : list wave) (C : nat) :
  length mixture <> O ->
  length Shat = (length mixture * C)%nat ->
  Forall (fun S => length (torchaudio_istft (n_fft self) (hop_length self)
                             (win_length self) S)
                   = length (hd [] mixture)) Shat ->
  exists delta,
    MisiLayer_delta torchaudio_istft self Shat mixture
    = Ok (C, map (torchaudio_istft (n_fft self) (hop_length self)
                    (win_length self)) Shat, delta).
Proof.
  intros HB Hlen Hrows. unfold MisiLayer_delta, Py.floordiv.
  destruct (length mixture) as [|B] eqn:HBe; [congruence|].
  clear HB.
  assert (HC : (length Shat / S B)%nat = C).
  { rewrite Hlen, Nat.mul_comm. apply Nat.div_mul. lia. }
  cbn [bind]. rewrite HC. unfold reshape.
  rewrite length_map, Hlen, Nat.eqb_refl; cbn [andb].
  match goal with
  | |- context [forallb ?p ?l] =>
      assert (Hfb : forallb p l = true)
  end.
  { apply forallb_forall. intros row Hin. apply Nat.eqb_eq.
    apply in_map_iff in Hin as [S0 [<- Hin]].
    rewrite Forall_forall in Hrows. now apply Hrows. }
  rewrite Hfb. simpl. eexists; reflexivity.
Qed.

End DeltaTotal.

End MisiDelta.

(** ** MISI: the magnitude of the output of one step *)

Module MisiMagnitude.
Import Torch Submodels.

Lemma norm2_nonneg (z : cplx) : 0 <= norm2 z.
Proof. apply sqrt_pos. Qed.

Lemma norm2_scale (k : R) (z : cplx) : norm2 (scale k z) = Rabs k * norm2 z.
Proof.
  unfold norm2, scale; simpl.
  replace (k * fst z * (k * fst z * 1) + k * snd z * (k * snd z * 1))
    with (Rsqr k * (fst z * (fst z * 1) + snd z * (snd z * 1)))
    by (unfold Rsqr; ring).
  rewrite sqrt_mult_alt by apply Rle_0_sqr.
  now rewrite sqrt_Rsqr_abs.
Qed.

Lemma normalize_scale (z : cplx) :
  normalize z = scale (/ Rmax (norm2 z) 1e-12) z.
Proof. unfold normalize, scale; simpl. f_equal; unfold Rdiv; ring. Qed.

Lemma floor_pos (z : cplx) : 0 < Rmax (norm2 z) 1e-12.
Proof.
  apply Rlt_le_trans with 1e-12; [lra|apply Rmax_r].
Qed.

(** The output bin [Shatmag * normalize(tmp)] has magnitude
    [|Shatmag| * |tmp| / max(|tmp|, 1e-12)]. *)
Lemma norm2_scale_normalize (m : R) (z : cplx) :
  norm2 (scale m (normalize z))
  = Rabs m * (norm2 z / Rmax (norm2 z) 1e-12).
Proof.
  rewrite norm2_scale, normalize_scale, norm2_scale.
  pose proof (floor_pos z) as Hd.
  rewrite (Rabs_right (/ Rmax (norm2 z) 1e-12))
    by (left; now apply Rinv_0_lt_compat).
  unfold Rdiv; ring.
Qed.

Lemma norm2_scale_normalize_le (m : R) (z : cplx) :
  norm2 (scale m (normalize z)) <= Rabs m.
Proof.
  rewrite norm2_scale_normalize.
  pose proof (floor_pos z) as Hd. pose proof (norm2_nonneg z) as Hz.
  pose proof (Rabs_pos m) as Hm.
  assert (Hq : norm2 z / Rmax (norm2 z) 1e-12 <= 1).
  { apply Rmult_le_reg_r with (Rmax (norm2 z) 1e-12); [exact Hd|].
    unfold Rdiv. rewrite Rmult_assoc, Rinv_l by lra.
    rewrite Rmult_1_r, Rmult_1_l. apply Rmax_l. }
  rewrite <- (Rmult_1_r (Rabs m)) at 2.
  apply Rmult_le_compat_l; assumption.
Qed.

Lemma norm2_scale_normalize_eq (m : R) (z : cplx) :
  0 <= m -> 1e-12 <= norm2 z -> norm2 (scale m (normalize z)) = m.
Proof.
  intros Hm Hz. rewrite norm2_scale_normalize.
  rewrite Rmax_left by exact Hz. rewrite Rabs_right by lra.
  field. lra.
Qed.

Lemma norm2_zero : norm2 (0, 0) = 0.
Proof.
  unfold norm2; simpl.
  replace (0 * (0 * 1) + 0 * (0 * 1)) with 0 by ring. apply sqrt_0.
Qed.

Lemma normalize_zero : normalize (0, 0) = (0, 0).
Proof.
  unfold normalize; simpl. rewrite norm2_zero.
  f_equal; unfold Rdiv; ring.
Qed.

Lemma entry3_map2_3_inv {A B C} (f : A -> B -> C)
  (x : list (list (list A))) (y : list (list (list B))) (n k t : nat)
  (o : C) :
  entry3 (map2_3 f x y) n k t = Some o ->
  exists a b,
    entry3 x n k t = Some a /\ entry3 y n k t = Some b /\ o = f a b.
Proof.
  unfold entry3, entry2, map2_3.
  destruct (nth_error (map2 _ x y) n) as [p|] eqn:Hn; [|discriminate].
  apply nth_error_map2_inv in Hn as [px [py [-> [-> ->]]]].
  destruct (nth_error (map2 _ px py) k) as [r|] eqn:Hk; [|discriminate].
  apply nth_error_map2_inv in Hk as [rx [ry [-> [-> ->]]]].
  intros Ht. apply nth_error_map2_inv in Ht as [a [b [-> [-> ->]]]].
  now exists a, b.
Qed.

Lemma entry3_map_3_inv {A B} (f : A -> B) (x : list (list (list A)))
  (n k t : nat) (o : B) :
  entry3 (map_3 f x) n k t = Some o ->
  exists a, entry3 x n k t = Some a /\ o = f a.
Proof.
  unfold entry3, entry2, map_3. rewrite nth_error_map.
  destruct (nth_error x n) as [p|]; simpl; [|discriminate].
  rewrite nth_error_map.
  destruct (nth_error p k) as [r|]; simpl; [|discriminate].
  rewrite nth_error_map.
  destruct (nth_error r t) as [a|]; simpl; [|discriminate].
  intros [= <-]. now exists a.
Qed.

Section Layer.
Variable torch_stft : nat -> nat -> nat -> wave -> spec.
Variable torchaudio_istft : nat -> nat -> nat -> spec -> wave.

Lemma misi_layer_bins (self : MisiLayer) (Shat : list spec)
  (Shatmag : list (list (list R))) (mixture : list wave)
  (out : list spec) :
  MisiLayer_forward torch_stft torchaudio_istft self Shat Shatmag mixture
  = Ok out ->
  exists tmp,
    MisiLayer_tmp torch_stft torchaudio_istft self Shat mixture = Ok tmp
    /\ forall n f t o,
         entry3 out n f t = Some o ->
         exists m z,
           entry3 Shatmag n f t = Some m
           /\ entry3 tmp n f t = Some z
           /\ o = scale m (normalize z)
           /\ norm2 o = Rabs m * (norm2 z / Rmax (norm2 z) 1e-12)
           /\ norm2 o <= Rabs m
           /\ (0 <= m -> 1e-12 <= norm2 z -> norm2 o = m).
Proof.
  unfold MisiLayer_forward.
  destruct (MisiLayer_tmp _ _ _ _ _) as [tmp|e]; simpl; [|discriminate].
  intros [= <-]. exists tmp; split; [reflexivity|].
  intros n f t o Ho.
  apply entry3_map2_3_inv in Ho as [m [p [Hm [Hp ->]]]].
  apply entry3_map_3_inv in Hp as [z [Hz ->]].
  exists m, z. repeat split; auto.
  - apply norm2_scale_normalize.
  - apply norm2_scale_normalize_le.
  - apply norm2_scale_normalize_eq.
Qed.

End Layer.

(** *** The trainable step: rows [k] and [F + k] hold the two parts of bin [k] *)

Lemma normalize_dim1_entries (F : nat) (x : list (list R)) (k t : nat)
  (p q : R) :
  length x = (F + F)%nat -> (k < F)%nat ->
  entry2 (normalize_dim1 F x) k t = Some p ->
  entry2 (normalize_dim1 F x) (F + k) t = Some q ->
  exists a b,
    entry2 x k t = Some a /\ entry2 x (F + k) t = Some b
    /\ p = fst (normalize (a, b)) /\ q = snd (normalize (a, b)).
Proof.
  intros Hlen Hk. unfold entry2, normalize_dim1, map_2, map2_2.
  assert (Hph : forall (g : list R -> list R -> list cplx),
            length (map2 g (firstn F x) (skipn F x)) = F).
  { intros g. rewrite map2_length, length_firstn, length_skipn. lia. }
  rewrite nth_error_app1 by (rewrite length_map, Hph; lia).
  rewrite nth_error_app2 by (rewrite length_map, Hph; lia).
  rewrite length_map, Hph.
  replace (F + k - F)%nat with k by lia.
  rewrite !nth_error_map.
  destruct (nth_error (map2 _ _ _) k) as [r|] eqn:Hr; simpl; [|discriminate].
  apply nth_error_map2_inv in Hr as [ra [rb [Ha [Hb ->]]]].
  rewrite nth_error_firstn in Ha.
  destruct (k <? F)%nat eqn:Hlt; [|discriminate].
  rewrite nth_error_skipn in Hb. rewrite Ha, Hb.
  rewrite !nth_error_map.
  destruct (nth_error (map2 _ ra rb) t) as [z|] eqn:Hz; simpl; [|discriminate].
  apply nth_error_map2_inv in Hz as [a [b [-> [-> ->]]]].
  intros [= <-] [= <-]. now exists a, b.
Qed.

Lemma conv1d_length (w : list (list R)) (kernel stride padding : nat)
  (x : list R) :
  length (conv1d w kernel stride padding x) = length w.
Proof. unfold conv1d. apply length_map. Qed.

Lemma trainable_misi_layer_bins (self : TrainableMisiLayer)
  (Shat Shatmag : list (list (list R))) (mixture : list wave)
  (out : list (list (list R))) :
  let F := (misi_n_fft self / 2 + 1)%nat in
  length (stft_weight (stft_layer self)) = (F + F)%nat ->
  TrainableMisiLayer_forward self Shat Shatmag mixture = Ok out ->
  exists tmp,
    TrainableMisiLayer_tmp self Shat mixture = Ok tmp
    /\ forall n k t re im,
         (k < F)%nat ->
         entry3 out n k t = Some re ->
         entry3 out n (F + k) t = Some im ->
         exists m_re m_im z,
           entry3 Shatmag n k t = Some m_re
           /\ entry3 Shatmag n (F + k) t = Some m_im
           /\ entry3 tmp n k t = Some (fst z)
           /\ entry3 tmp n (F + k) t = Some (snd z)
           /\ re = m_re * fst (normalize z)
           /\ im = m_im * snd (normalize z)
           /\ (m_re = m_im ->
               norm2 (re, im)
               = Rabs m_re * (norm2 z / Rmax (norm2 z) 1e-12))
           /\ (m_re = m_im -> 0 <= m_re -> 1e-12 <= norm2 z ->
               norm2 (re, im) = m_re).
Proof.
  intros F Hw. unfold TrainableMisiLayer_forward.
  destruct (TrainableMisiLayer_tmp _ _ _) as [tmp|e] eqn:Htmp; simpl;
    [|discriminate].
  intros [= <-]. exists tmp; split; [reflexivity|].
  intros n k t re im Hk Hre Him.
  apply entry3_map2_3_inv in Hre as [m_re [p [Hmre [Hp ->]]]].
  apply entry3_map2_3_inv in Him as [m_im [q [Hmim [Hq ->]]]].
  unfold entry3 in Hp, Hq. rewrite nth_error_map in Hp, Hq.
  unfold entry3 at 3 4.
  destruct (nth_error tmp n) as [x|] eqn:Hx; simpl in Hp, Hq; [|discriminate].
  assert (Hlen : length x = (F + F)%nat).
  { unfold TrainableMisiLayer_tmp in Htmp.
    destruct (Py.floordiv _ _); simpl in Htmp; [|discriminate].
    destruct (reshape _ _ _ _); simpl in Htmp; [|discriminate].
    injection Htmp as <-.
    rewrite nth_error_map in Hx.
    destruct (nth_error _ n); simpl in Hx; [|discriminate].
    injection Hx as <-.
    unfold TrainableStftLayer_forward. now rewrite conv1d_length. }
  destruct (normalize_dim1_entries F x k t p q Hlen Hk Hp Hq)
    as [a [b [Ha [Hb [-> ->]]]]].
  exists m_re, m_im, (a, b). repeat split; auto.
  - intros <-. apply (norm2_scale_normalize m_re (a, b)).
  - intros <-. apply (norm2_scale_normalize_eq m_re (a, b)).
Qed.

(** *** A step that does not keep the magnitude *)

Lemma dot_silence (w x : list R) : Forall (eq 0) x -> dot w x = 0.
Proof.
  unfold dot. intros Hx. revert w.
  induction Hx as [|v x <- _ IH]; intros [|a w]; simpl; try reflexivity.
  fold (sum1 (map2 Rmult w x)). rewrite IH. ring.
Qed.

Lemma map_const_repeat {A B} (c : B) (l : list A) :
  map (fun _ => c) l = repeat c (length l).
Proof. induction l as [|a l IH]; simpl; [reflexivity|now rewrite IH]. Qed.

(** The transform of silence is silence, whatever the weight. *)
Lemma conv1d_silence (w : list (list R)) (kernel stride padding : nat)
  (x : list R) :
  Forall (eq 0) x ->
  conv1d w kernel stride padding x
  = repeat (repeat 0 ((padding + (length x + padding) - kernel) / stride + 1))
           (length w).
Proof.
  intros Hx. unfold conv1d.
  rewrite !length_app, !repeat_length.
  rewrite <- map_const_repeat. apply map_ext; intros row.
  set (time := ((padding + (length x + padding) - kernel) / stride + 1)%nat).
  transitivity (map (fun _ : nat => 0) (seq 0 time));
    [|now rewrite map_const_repeat, length_seq].
  apply map_ext; intros t.
  apply dot_silence, MisiDelta.Forall_chunk.
  apply Forall_app; split; [|apply Forall_app; split]; auto;
    apply Forall_forall; intros v Hv; now apply repeat_spec in Hv.
Qed.

Lemma istft_forward_length (self : TrainableIstftLayer) (x : list (list R)) :
  length (TrainableIstftLayer_forward self x)
  = ((length (hd [] x) - 1) * (istft_n_fft self / 4) + istft_n_fft self
     - 2 * (istft_n_fft self / 4 * 2))%nat.
Proof.
  unfold TrainableIstftLayer_forward, conv_transpose1d.
  now rewrite !length_map, length_seq.
Qed.

(** One batch item, one channel, a silent mixture of one sample, with
    [n_fft = 4] (3 bins, 2 frames for 1 sample): [delta] cancels the one
    reconstruction, so [tmp] is silent, whatever [Shat] is. *)
Lemma trainable_tmp_silent_mixture (S : list (list R)) :
  length (hd [] S) = 2%nat ->
  TrainableMisiLayer_tmp (TrainableMisiLayer_init 4) [S] [[0]]
  = Ok [repeat [0; 0] 6].
Proof.
  intros HS. unfold TrainableMisiLayer_tmp.
  pose proof (istft_forward_length
                (istft_layer (TrainableMisiLayer_init 4)) S) as Hlen.
  rewrite HS in Hlen.
  destruct (TrainableIstftLayer_forward _ S) as [|r [|r' l]] eqn:Hr;
    try discriminate Hlen.
  cbn [length Py.floordiv Nat.div Nat.divmod fst bind map hd].
  rewrite Hr. unfold reshape, map2_2, map_2.
  cbn [length Nat.mul Nat.add Nat.eqb forallb andb bind chunks firstn skipn
       map sum_channels fold_right repeat map2 repeat_interleave flat_map
       app].
  replace (r + (0 - (r + 0) / INR 1)) with 0 by (simpl; field).
  unfold TrainableStftLayer_forward.
  rewrite conv1d_silence by (repeat constructor).
  reflexivity.
Qed.

Lemma trainable_forward_silent_mixture (S : list (list R)) :
  length (hd [] S) = 2%nat ->
  TrainableMisiLayer_forward (TrainableMisiLayer_init 4) [S]
    [repeat [1; 1] 6] [[0]]
  = Ok [repeat [0; 0] 6].
Proof.
  intros HS. unfold TrainableMisiLayer_forward.
  rewrite trainable_tmp_silent_mixture by exact HS.
  cbn [bind]. unfold normalize_dim1, map2_3, map2_2, map_2.
  cbn [misi_n_fft TrainableMisiLayer_init Nat.div Nat.divmod fst Nat.add
       repeat firstn skipn map map2 app].
  rewrite normalize_zero. cbn [fst snd].
  rewrite Rmult_0_r. reflexivity.
Qed.

(** C1 (amended). In [MisiLayer.forward] and in [TrainableMisiLayer.forward]
    every output bin is [Shatmag] times the bin of [tmp] divided by
    [max(|tmp|, 1e-12)]: its magnitude is [|Shatmag| * |tmp| / max(|tmp|,
    1e-12)], at most [|Shatmag|], and it is [Shatmag] itself whenever
    [Shatmag >= 0] and the bin of [tmp] has magnitude at least 1e-12. (In
    the trainable layer the two parts of bin [k] are rows [k] and [F + k],
    and [Shatmag] holds the magnitude in both.) *)
Theorem misi_step_magnitude :
  (forall torch_stft torchaudio_istft (self : MisiLayer) (Shat : list spec)
      (Shatmag : list (list (list R))) (mixture : list wave)
      (out : list spec),
      MisiLayer_forward torch_stft torchaudio_istft self Shat Shatmag mixture
      = Ok out ->
      exists tmp,
        MisiLayer_tmp torch_stft torchaudio_istft self Shat mixture = Ok tmp
        /\ forall n f t o,
             entry3 out n f t = Some o ->
             exists m z,
               entry3 Shatmag n f t = Some m
               /\ entry3 tmp n f t = Some z
               /\ o = scale m (normalize z)
               /\ norm2 o = Rabs m * (norm2 z / Rmax (norm2 z) 1e-12)
               /\ norm2 o <= Rabs m
               /\ (0 <= m -> 1e-12 <= norm2 z -> norm2 o = m))
  /\ (forall (self : TrainableMisiLayer)
        (Shat Shatmag : list (list (list R))) (mixture : list wave)
        (out : list (list (list R))),
        let F := (misi_n_fft self / 2 + 1)%nat in
        length (stft_weight (stft_layer self)) = (F + F)%nat ->
        TrainableMisiLayer_forward self Shat Shatmag mixture = Ok out ->
        exists tmp,
          TrainableMisiLayer_tmp self Shat mixture = Ok tmp
          /\ forall n k t re im,
               (k < F)%nat ->
               entry3 out n k t = Some re ->
               entry3 out n (F + k) t = Some im ->
               exists m_re m_im z,
                 entry3 Shatmag n k t = Some m_re
                 /\ entry3 Shatmag n (F + k) t = Some m_im
                 /\ entry3 tmp n k t = Some (fst z)
                 /\ entry3 tmp n (F + k) t = Some (snd z)
                 /\ re = m_re * fst (normalize z)
                 /\ im = m_im * snd (normalize z)
                 /\ (m_re = m_im ->
                     norm2 (re, im)
                     = Rabs m_re * (norm2 z / Rmax (norm2 z) 1e-12))
                 /\ (m_re = m_im -> 0 <= m_re -> 1e-12 <= norm2 z ->
                     norm2 (re, im) = m_re)).
Proof.
  split.
  - intros stft istft. apply misi_layer_bins.
  - exact trainable_misi_layer_bins.
Qed.

Lemma misi_step_magnitude_witness :
  exists tmp,
    TrainableMisiLayer_tmp (TrainableMisiLayer_init 4) unit_estimate [[0]]
    = Ok tmp
    /\ forall n k t re im,
         (k < 3)%nat ->
         entry3 [repeat [0; 0] 6] n k t = Some re ->
         entry3 [repeat [0; 0] 6] n (3 + k) t = Some im ->
         exists m_re m_im z,
           entry3 [repeat [1; 1] 6] n k t = Some m_re
           /\ entry3 [repeat [1; 1] 6] n (3 + k) t = Some m_im
           /\ entry3 tmp n k t = Some (fst z)
           /\ entry3 tmp n (3 + k) t = Some (snd z)
           /\ re = m_re * fst (normalize z)
           /\ im = m_im * snd (normalize z)
           /\ (m_re = m_im ->
               norm2 (re, im)
               = Rabs m_re * (norm2 z / Rmax (norm2 z) 1e-12))
           /\ (m_re = m_im -> 0 <= m_re -> 1e-12 <= norm2 z ->
               norm2 (re, im) = m_re).
Proof.
  apply (proj2 misi_step_magnitude (TrainableMisiLayer_init 4)
           unit_estimate [repeat [1; 1] 6] [[0]] [repeat [0; 0] 6]).
  - reflexivity.
  - apply trainable_forward_silent_mixture. reflexivity.
Defined.

(** C1 as stated fails: with [n_fft = 4], one channel, a silent mixture of
    one sample and an estimate of magnitude 1 in every bin, the step returns
    0 in every bin although [Shatmag] is 1. *)
Lemma misi_step_magnitude_counterexample :
  TrainableMisiLayer_forward (TrainableMisiLayer_init 4) unit_estimate
    [repeat [1; 1] 6] [[0]]
  = Ok [repeat [0; 0] 6]
  /\ entry3 [repeat [1; 1] 6] 0 0 0 = Some 1
  /\ entry3 [repeat [1; 1] 6] 0 3 0 = Some 1
  /\ entry3 [repeat [0; 0] 6] 0 0 0 = Some 0
  /\ entry3 [repeat [0; 0] 6] 0 3 0 = Some 0
  /\ norm2 (0, 0) <> 1.
Proof.
  split; [apply trainable_forward_silent_mixture; reflexivity|].
  repeat split; try reflexivity.
  rewrite norm2_zero. lra.
Qed.

End MisiMagnitude.

(** ** MISI: the iterations of the network *)

Module MisiIterations.
Import Torch Submodels.

Lemma fold_left_range {A} (step : A -> result A) (n : nat) (x : A) :
  fold_left (fun acc (_ : Z) => y <- acc ;; step y)
            (map Z.of_nat (seq 0 n)) (Ok x)
  = iterate n step x.
Proof.
  induction n as [|n IH]; [reflexivity|].
  rewrite seq_S, map_app, fold_left_app, IH. reflexivity.
Qed.

Section Network.
Variable torch_stft : nat -> nat -> nat -> wave -> spec.
Variable torchaudio_istft : nat -> nat -> nat -> spec -> wave.

Lemma MisiNetwork_loop_iterate (self : MisiNetwork)
  (Shatmag : list (list (list R))) (mixture : list wave) (Shat : list spec) :
  MisiNetwork_loop torch_stft torchaudio_istft self Shatmag mixture Shat
  = iterate (Z.to_nat (layer_num self))
      (fun S => MisiLayer_forward torch_stft torchaudio_istft (layer_of self)
                  S Shatmag mixture)
      Shat.
Proof. unfold MisiNetwork_loop, Py.range. apply fold_left_range. Qed.

(** C4. With [layer_num = n >= 0], [MisiNetwork.forward] applies the MISI
    step [n] times in sequence to the masked spectrum, each step on the
    result of the one before, all with the one magnitude [|Shat|] of the
    masked spectrum computed before the loop, and inverts the result; with
    [layer_num = 0] the masked spectrum is inverted as it is. *)
Theorem misi_network_iterations (nfft hop win : nat) (n : nat)
  (mask : mask_t) (mixture : list wave) :
  let self := {| net_n_fft := nfft; net_hop_length := hop;
                 net_win_length := win; layer_num := Z.of_nat n |} in
  let self0 := {| net_n_fft := nfft; net_hop_length := hop;
                  net_win_length := win; layer_num := 0 |} in
  let istft := map (torchaudio_istft nfft hop win) in
  let Shat := masked_spectrum torch_stft self mask mixture in
  let Shatmag := map_3 norm2 Shat in
  let step := fun S =>
    MisiLayer_forward torch_stft torchaudio_istft (layer_of self) S Shatmag
      mixture in
  MisiNetwork_forward torch_stft torchaudio_istft self mask mixture
  = (Shat_n <- iterate n step Shat ;; output mask mixture (istft Shat_n))
  /\ MisiNetwork_forward torch_stft torchaudio_istft self0 mask mixture
     = output mask mixture (istft Shat)
  /\ (forall k x, iterate (S k) step x = (y <- iterate k step x ;; step y)).
Proof.
  intros self self0 istft Shat Shatmag step.
  split; [|split].
  - unfold MisiNetwork_forward. cbv zeta.
    rewrite MisiNetwork_loop_iterate.
    cbn [layer_num self]. rewrite Nat2Z.id.
    destruct mask; reflexivity.
  - unfold MisiNetwork_forward. cbv zeta.
    rewrite MisiNetwork_loop_iterate.
    destruct mask; reflexivity.
  - reflexivity.
Qed.

End Network.

End MisiIterations.

(** ** Facts about sums over an index *)

Section SumFacts.
Import Torch.

Lemma sum_n_S (n : nat) (f : nat -> R) : sum_n (S n) f = sum_n n f + f n.
Proof.
  unfold sum_n. rewrite seq_S, map_app; simpl.
  induction (map f (seq 0 n)) as [|x l IH]; simpl; [ring|].
  rewrite IH. ring.
Qed.

Lemma sum_n_ext (n : nat) (f g : nat -> R) :
  (forall i, (i < n)%nat -> f i = g i) -> sum_n n f = sum_n n g.
Proof.
  induction n as [|n IH]; intros H; [reflexivity|].
  rewrite !sum_n_S, IH, H by auto with arith. reflexivity.
Qed.

Lemma sum_n_plus (n : nat) (f g : nat -> R) :
  sum_n n (fun i => f i + g i) = sum_n n f + sum_n n g.
Proof.
  induction n as [|n IH]; [unfold sum_n; simpl; ring|].
  rewrite !sum_n_S, IH. ring.
Qed.

Lemma sum_n_scal (n : nat) (c : R) (f : nat -> R) :
  sum_n n (fun i => c * f i) = c * sum_n n f.
Proof.
  induction n as [|n IH]; [unfold sum_n; simpl; ring|].
  rewrite !sum_n_S, IH. ring.
Qed.

Lemma sum_n_scal_r (n : nat) (c : R) (f : nat -> R) :
  sum_n n (fun i => f i * c) = sum_n n f * c.
Proof.
  induction n as [|n IH]; [unfold sum_n; simpl; ring|].
  rewrite !sum_n_S, IH. ring.
Qed.

Lemma sum_n_zero (n : nat) : sum_n n (fun _ => 0) = 0.
Proof.
  induction n as [|n IH]; [reflexivity|]. rewrite sum_n_S, IH. ring.
Qed.

Lemma sum_n_exchange (n m : nat) (f : nat -> nat -> R) :
  sum_n n (fun i => sum_n m (fun j => f i j))
  = sum_n m (fun j => sum_n n (fun i => f i j)).
Proof.
  induction n as [|n IH].
  - transitivity (sum_n m (fun _ => 0));
      [now rewrite sum_n_zero|apply sum_n_ext; reflexivity].
  - rewrite sum_n_S, IH, <- sum_n_plus.
    apply sum_n_ext; intros j _. now rewrite sum_n_S.
Qed.

Lemma sum_n_nonneg (n : nat) (f : nat -> R) :
  (forall i, (i < n)%nat -> 0 <= f i) -> 0 <= sum_n n f.
Proof.
  induction n as [|n IH]; intros H; [unfold sum_n; simpl; lra|].
  rewrite sum_n_S. specialize (H n (Nat.lt_succ_diag_r n)) as Hn.
  assert (0 <= sum_n n f) by (apply IH; auto with arith). lra.
Qed.

Lemma sum_n_eq_0 (n : nat) (f : nat -> R) :
  (forall i, (i < n)%nat -> 0 <= f i) ->
  sum_n n f = 0 -> forall i, (i < n)%nat -> f i = 0.
Proof.
  induction n as [|n IH]; intros H H0 i Hi; [lia|].
  rewrite sum_n_S in H0.
  assert (Hs : 0 <= sum_n n f) by (apply sum_n_nonneg; auto with arith).
  specialize (H n (Nat.lt_succ_diag_r n)) as Hn.
  destruct (Nat.eq_dec i n) as [->|Hne]; [lra|].
  apply IH; auto with arith; [lra|lia].
Qed.

(** A list read by index. *)
Lemma map_nth_seq {A B} (g : A -> B) (l : list A) (d : A) :
  map g l = map (fun i => g (nth i l d)) (seq 0 (length l)).
Proof.
  induction l as [|a l IH]; [reflexivity|]. simpl.
  f_equal. now rewrite <- seq_shift, map_map.
Qed.

Lemma sum1_map_nth {A} (g : A -> R) (l : list A) (d : A) :
  sum1 (map g l) = sum_n (length l) (fun i => g (nth i l d)).
Proof. unfold sum_n. now rewrite <- map_nth_seq. Qed.

Lemma map2_nth_seq {A B C} (g : A -> B -> C) (a : list A) (b : list B)
  (da : A) (db : B) :
  length a = length b ->
  map2 g a b = map (fun i => g (nth i a da) (nth i b db)) (seq 0 (length a)).
Proof.
  revert b; induction a as [|x a IH]; intros [|y b] Hl; try discriminate;
    [reflexivity|]. simpl.
  f_equal. rewrite <- seq_shift, map_map. apply IH. now injection Hl.
Qed.

Lemma sum1_map2_nth {A B} (g : A -> B -> R) (a : list A) (b : list B)
  (da : A) (db : B) :
  length a = length b ->
  sum1 (map2 g a b) = sum_n (length a) (fun i => g (nth i a da) (nth i b db)).
Proof. intros H. unfold sum_n. now rewrite <- map2_nth_seq. Qed.

(** For [a : N x P] and [b : N x Q], the sum over (i, j) of the products of
    the Gram entries is the squared Frobenius norm of [a^T b]. *)
Lemma gram_product_sum (N P Q : nat) (a b : nat -> nat -> R) :
  sum_n N (fun i => sum_n N (fun j =>
    sum_n P (fun p => a i p * a j p) * sum_n Q (fun q => b i q * b j q)))
  = sum_n P (fun p => sum_n Q (fun q =>
      sum_n N (fun i => a i p * b i q) ^ 2)).
Proof.
  transitivity
    (sum_n N (fun i => sum_n P (fun p => sum_n Q (fun q =>
       sum_n N (fun j => (a i p * b i q) * (a j p * b j q)))))).
  - apply sum_n_ext; intros i _.
    transitivity
      (sum_n N (fun j => sum_n P (fun p => sum_n Q (fun q =>
         (a i p * b i q) * (a j p * b j q))))).
    + apply sum_n_ext; intros j _.
      rewrite <- sum_n_scal_r. apply sum_n_ext; intros p _.
      rewrite <- sum_n_scal. apply sum_n_ext; intros q _. ring.
    + rewrite sum_n_exchange. apply sum_n_ext; intros p _.
      now rewrite sum_n_exchange.
  - rewrite sum_n_exchange. apply sum_n_ext; intros p _.
    rewrite sum_n_exchange. apply sum_n_ext; intros q _.
    simpl. rewrite Rmult_1_r, <- sum_n_scal_r.
    apply sum_n_ext; intros i _. now rewrite sum_n_scal.
Qed.

End SumFacts.

(** ** [loss_dc] *)

Module LossDc.
Import Torch Losses.

Lemma loss_dc_cons (V Y : list (list R)) (embd label : list (list (list R))) :
  length embd = length label ->
  loss_dc (V :: embd) (Y :: label) = dc_item V Y + loss_dc embd label.
Proof.
  intros _. unfold loss_dc, dc_item, sum3, map_3, map_2. simpl. ring.
Qed.

Lemma loss_dc_items (embd label : list (list (list R))) :
  length embd = length label ->
  loss_dc embd label = sum1 (map2 dc_item embd label).
Proof.
  revert label; induction embd as [|V embd IH]; intros [|Y label] Hl;
    try discriminate.
  - unfold loss_dc, sum3; simpl. ring.
  - injection Hl as Hl. rewrite loss_dc_cons by exact Hl. simpl.
    now rewrite IH.
Qed.

Lemma matrix_row (N D : nat) (V : list (list R)) (i : nat) :
  matrix N D V -> (i < N)%nat -> length (nth i V []) = D.
Proof.
  intros [Hl Hr] Hi. rewrite Forall_forall in Hr.
  apply Hr, nth_In. now rewrite Hl.
Qed.

Lemma transpose_matrix (N D : nat) (V : list (list R)) :
  matrix N D V -> N <> O ->
  transpose V = map (fun d => map (fun row => nth d row 0) V) (seq 0 D).
Proof.
  intros [Hl Hr] HN. destruct V as [|r V]; [simpl in Hl; congruence|].
  unfold transpose. inversion Hr; subst. reflexivity.
Qed.

Lemma dot_rows (D : nat) (a b : list R) :
  length a = D -> length b = D ->
  dot a b = sum_n D (fun d => nth d a 0 * nth d b 0).
Proof.
  intros Ha Hb. unfold dot.
  rewrite (sum1_map2_nth Rmult a b 0 0) by congruence. now rewrite Ha.
Qed.

Lemma dot_columns (N : nat) (V Y : list (list R)) (d c : nat) :
  length V = N -> length Y = N ->
  dot (map (fun row => nth d row 0) V) (map (fun row => nth c row 0) Y)
  = sum_n N (fun i => nth d (nth i V []) 0 * nth c (nth i Y []) 0).
Proof.
  intros HV HY. unfold dot. rewrite map2_map_l, map2_map_r.
  rewrite (sum1_map2_nth _ V Y [] []) by congruence. now rewrite HV.
Qed.

(** The squared Frobenius norm of [V^T Y]. *)
Lemma frobenius_cross (N D C : nat) (V Y : list (list R)) :
  matrix N D V -> matrix N C Y ->
  sum2 (map_2 (fun v => v ^ 2) (matmul (transpose V) Y))
  = sum_n D (fun d => sum_n C (fun c =>
      sum_n N (fun i => nth d (nth i V []) 0 * nth c (nth i Y []) 0) ^ 2)).
Proof.
  intros HV HY. destruct (Nat.eq_dec N 0) as [->|HN].
  - destruct HV as [HV _]. apply length_zero_iff_nil in HV; subst V.
    unfold sum2, sum1; simpl. symmetry.
    transitivity (sum_n D (fun _ => 0)); [|apply sum_n_zero].
    apply sum_n_ext; intros d _.
    transitivity (sum_n C (fun _ => 0)); [|apply sum_n_zero].
    apply sum_n_ext; intros c _. unfold sum_n, sum1; simpl. ring.
  - unfold matmul, map_2, sum2.
    rewrite (transpose_matrix N D V HV HN), (transpose_matrix N C Y HY HN).
    rewrite !map_map. unfold sum_n. f_equal.
    apply map_ext; intros d. rewrite !map_map. f_equal.
    apply map_ext; intros c. f_equal.
    apply dot_columns; [apply HV|apply HY].
Qed.

(** The squared Frobenius norm of [V V^T - Y Y^T]. *)
Lemma affinity_distance_sum (N D C : nat) (V Y : list (list R)) :
  matrix N D V -> matrix N C Y ->
  affinity_distance V Y
  = sum_n N (fun i => sum_n N (fun j =>
      (sum_n D (fun d => nth d (nth i V []) 0 * nth d (nth j V []) 0)
       - sum_n C (fun c => nth c (nth i Y []) 0 * nth c (nth j Y []) 0))
      ^ 2)).
Proof.
  intros HV HY. unfold affinity_distance, gram, map_2, map2_2, sum2.
  rewrite map2_map_l, map2_map_r, map_map2, map_map2.
  assert (Hl : length V = length Y) by (destruct HV, HY; congruence).
  rewrite (sum1_map2_nth _ V Y [] []) by exact Hl.
  destruct HV as [HVl HVr], HY as [HYl HYr]. rewrite HVl.
  apply sum_n_ext; intros i Hi.
  rewrite map2_map_l, map2_map_r, map_map2.
  rewrite (sum1_map2_nth _ V Y [] []) by exact Hl. rewrite HVl.
  apply sum_n_ext; intros j Hj.
  rewrite (dot_rows D), (dot_rows C); try reflexivity;
    apply (matrix_row N); try split; auto.
Qed.

Lemma sum_n_sq_diff (n : nat) (g h : nat -> R) :
  sum_n n (fun j => (g j - h j) ^ 2)
  = sum_n n (fun j => g j * g j) + sum_n n (fun j => h j * h j)
    - 2 * sum_n n (fun j => g j * h j).
Proof.
  induction n as [|n IH]; [unfold sum_n; simpl; ring|].
  rewrite !sum_n_S, IH. ring.
Qed.

Lemma sum_n_combine (n : nat) (a b c : nat -> R) :
  sum_n n (fun i => a i + b i - 2 * c i)
  = sum_n n a + sum_n n b - 2 * sum_n n c.
Proof.
  induction n as [|n IH]; [unfold sum_n; simpl; ring|].
  rewrite !sum_n_S, IH. ring.
Qed.

Lemma dc_item_affinity (N D C : nat) (V Y : list (list R)) :
  matrix N D V -> matrix N C Y -> dc_item V Y = affinity_distance V Y.
Proof.
  intros HV HY. unfold dc_item.
  rewrite (frobenius_cross N D D V V HV HV).
  rewrite (frobenius_cross N C C Y Y HY HY).
  rewrite (frobenius_cross N D C V Y HV HY).
  rewrite (affinity_distance_sum N D C V Y HV HY).
  pose proof (gram_product_sum N D D
                (fun i d => nth d (nth i V []) 0)
                (fun i d => nth d (nth i V []) 0)) as HVV.
  pose proof (gram_product_sum N C C
                (fun i c => nth c (nth i Y []) 0)
                (fun i c => nth c (nth i Y []) 0)) as HYY.
  pose proof (gram_product_sum N D C
                (fun i d => nth d (nth i V []) 0)
                (fun i c => nth c (nth i Y []) 0)) as HVY.
  cbv beta in HVV, HYY, HVY. rewrite <- HVV, <- HYY, <- HVY.
  rewrite <- sum_n_combine. apply sum_n_ext; intros i _.
  rewrite <- sum_n_combine. apply sum_n_ext; intros j _.
  ring.
Qed.

Lemma sum1_nonneg (l : list R) : Forall (fun x => 0 <= x) l -> 0 <= sum1 l.
Proof. induction 1; simpl; lra. Qed.

Lemma sum1_squares_nonneg (l : list R) : 0 <= sum1 (map (fun v => v ^ 2) l).
Proof.
  apply sum1_nonneg, Forall_forall. intros x Hx.
  apply in_map_iff in Hx as [v [<- _]]. nra.
Qed.

Lemma sum2_squares_nonneg (M : list (list R)) :
  0 <= sum2 (map_2 (fun v => v ^ 2) M).
Proof.
  unfold sum2, map_2. apply sum1_nonneg, Forall_forall. intros x Hx.
  apply in_map_iff in Hx as [r [<- Hr]].
  apply in_map_iff in Hr as [r' [<- _]]. apply sum1_squares_nonneg.
Qed.

Lemma affinity_distance_nonneg (V Y : list (list R)) :
  0 <= affinity_distance V Y.
Proof. apply sum2_squares_nonneg. Qed.

Lemma squares_zero_rows (a b : list R) :
  length a = length b ->
  sum1 (map (fun v => v ^ 2) (map2 Rminus a b)) = 0 -> a = b.
Proof.
  revert b; induction a as [|x a IH]; intros [|y b] Hl; try discriminate;
    [reflexivity|]. intros H.
  change ((x - y) ^ 2 + sum1 (map (fun v => v ^ 2) (map2 Rminus a b)) = 0)
    in H.
  pose proof (sum1_squares_nonneg (map2 Rminus a b)) as Hr.
  pose proof (pow2_ge_0 (x - y)) as Hx.
  assert (Hz : (x - y) * (x - y) = 0).
  { replace ((x - y) * (x - y)) with ((x - y) ^ 2) by ring. lra. }
  apply Rmult_integral in Hz.
  f_equal; [lra|]. apply IH; [now injection Hl|lra].
Qed.

Lemma squares_zero_matrix (A B : list (list R)) :
  Forall2 (fun a b => length a = length b) A B ->
  sum2 (map_2 (fun v => v ^ 2) (map2_2 Rminus A B)) = 0 -> A = B.
Proof.
  unfold sum2, map_2, map2_2.
  induction 1 as [|a b A B Hab _ IH]; [reflexivity|]. intros H.
  change (sum1 (map (fun v => v ^ 2) (map2 Rminus a b))
          + sum1 (map sum1 (map (map (fun v => v ^ 2))
                              (map2 (map2 Rminus) A B))) = 0) in H.
  pose proof (sum1_squares_nonneg (map2 Rminus a b)) as Ha.
  pose proof (sum2_squares_nonneg (map2 (map2 Rminus) A B)) as HA.
  unfold sum2, map_2 in HA.
  f_equal; [apply squares_zero_rows; [exact Hab|lra]|apply IH; lra].
Qed.

Lemma squares_self_matrix (A : list (list R)) :
  sum2 (map_2 (fun v => v ^ 2) (map2_2 Rminus A A)) = 0.
Proof.
  unfold sum2, map_2, map2_2.
  induction A as [|a A IH]; [reflexivity|].
  change (sum1 (map (fun v => v ^ 2) (map2 Rminus a a))
          + sum1 (map sum1 (map (map (fun v => v ^ 2))
                              (map2 (map2 Rminus) A A))) = 0).
  rewrite IH.
  assert (Ha : sum1 (map (fun v => v ^ 2) (map2 Rminus a a)) = 0).
  { clear IH. induction a as [|x a IHa]; [reflexivity|].
    change ((x - x) ^ 2 + sum1 (map (fun v => v ^ 2) (map2 Rminus a a)) = 0).
    rewrite IHa. ring. }
  rewrite Ha. ring.
Qed.

Lemma gram_shapes (V Y : list (list R)) :
  length V = length Y ->
  Forall2 (fun a b => length a = length b) (gram V) (gram Y).
Proof.
  intros Hl. unfold gram.
  assert (H : forall (V' Y' : list (list R)),
            length V' = length Y' ->
            Forall2 (fun a b : list R => length a = length b)
              (map (fun vi => map (dot vi) V) V')
              (map (fun yi => map (dot yi) Y) Y')).
  { induction V' as [|v V' IH]; intros [|y Y'] Hl'; try discriminate;
      simpl; constructor.
    - now rewrite !length_map.
    - apply IH. now injection Hl'. }
  now apply H.
Qed.

Lemma affinity_distance_zero (V Y : list (list R)) :
  length V = length Y ->
  affinity_distance V Y = 0 <-> gram V = gram Y.
Proof.
  intros Hl. unfold affinity_distance. split.
  - apply squares_zero_matrix, gram_shapes, Hl.
  - intros ->. apply squares_self_matrix.
Qed.

(** C9. For embeddings and labels of matching shapes, [loss_dc] is the sum
    over the batch of the squared Frobenius norm of
    [embd embd^T - label label^T]; so it is not negative, and it is 0
    exactly when the two Gram matrices are equal in every batch item. *)
Theorem loss_dc_affinity_distance (embd label : list (list (list R))) :
  Forall2 (fun V Y => exists N D C, matrix N D V /\ matrix N C Y)
          embd label ->
  loss_dc embd label = sum1 (map2 affinity_distance embd label)
  /\ 0 <= loss_dc embd label
  /\ (loss_dc embd label = 0
      <-> Forall2 (fun V Y => gram V = gram Y) embd label).
Proof.
  intros Hs.
  assert (Heq : loss_dc embd label
                = sum1 (map2 affinity_distance embd label)).
  { rewrite loss_dc_items by (eapply Forall2_length; eassumption).
    f_equal. induction Hs as [|V Y embd label [N [D [C [HV HY]]]] _ IH];
      [reflexivity|]. simpl. f_equal; [|exact IH].
    now apply (dc_item_affinity N D C). }
  split; [exact Heq|]. rewrite Heq. clear Heq.
  induction Hs as [|V Y embd label [N [D [C [HV HY]]]] _ [IH0 IH]]; simpl.
  - split; [lra|]. split; [constructor|reflexivity].
  - pose proof (affinity_distance_nonneg V Y) as Ha.
    assert (Hl : length V = length Y) by (destruct HV, HY; congruence).
    split; [lra|]. split.
    + intros H. constructor.
      * apply affinity_distance_zero; [exact Hl|lra].
      * apply IH. lra.
    + intros H. inversion H as [|? ? ? ? Hg Hrest]; subst.
      apply (affinity_distance_zero V Y Hl) in Hg.
      apply IH in Hrest. lra.
Qed.

Lemma loss_dc_affinity_distance_witness :
  loss_dc [[[1; 0]; [0; 1]]] [[[1]; [0]]]
  = sum1 (map2 affinity_distance [[[1; 0]; [0; 1]]] [[[1]; [0]]])
  /\ 0 <= loss_dc [[[1; 0]; [0; 1]]] [[[1]; [0]]]
  /\ (loss_dc [[[1; 0]; [0; 1]]] [[[1]; [0]]] = 0
      <-> Forall2 (fun V Y => gram V = gram Y)
            [[[1; 0]; [0; 1]]] [[[1]; [0]]]).
Proof.
  apply loss_dc_affinity_distance.
  constructor; [|constructor].
  exists 2%nat, 2%nat, 1%nat. repeat split; repeat constructor.
Defined.

End LossDc.

(** ** Angles: [atan2] and the remainder modulo 2 pi *)

Section Angles.
Import Torch.

Lemma cos_one_period (x : R) :
  cos x = 1 -> exists n : Z, x = IZR n * (2 * PI).
Proof.
  intros H.
  assert (Hs : sin (x / 2) = 0).
  { pose proof (cos_2a_sin (x / 2)) as H2.
    replace (2 * (x / 2)) with x in H2 by field.
    assert (Hq : sin (x / 2) * sin (x / 2) = 0) by lra.
    apply Rmult_integral in Hq. tauto. }
  apply sin_eq_0_0 in Hs as [n Hn]. exists n. lra.
Qed.

Lemma same_angle (phi theta : R) :
  sin phi = sin theta -> cos phi = cos theta ->
  exists n : Z, phi = theta + IZR n * (2 * PI).
Proof.
  intros Hs Hc.
  destruct (cos_one_period (phi - theta)) as [n Hn].
  - rewrite cos_minus, Hs, Hc.
    pose proof (sin2_cos2 theta) as H. unfold Rsqr in H. lra.
  - exists n. lra.
Qed.

Lemma atan_of_tan_pos (theta : R) :
  0 < cos theta ->
  sin (atan (tan theta)) = sin theta /\ cos (atan (tan theta)) = cos theta.
Proof.
  intros Hc. rewrite sin_atan, cos_atan.
  rewrite <- (Rtrigo_facts.sin_tan theta Hc).
  rewrite <- (Rtrigo_facts.cos_tan theta Hc). tauto.
Qed.

Lemma atan_of_tan_neg (theta : R) :
  cos theta < 0 ->
  sin (atan (tan theta)) = - sin theta
  /\ cos (atan (tan theta)) = - cos theta.
Proof.
  intros Hc.
  assert (Hc' : 0 < cos (theta + PI)) by (rewrite neg_cos; lra).
  assert (Ht : tan (theta + PI) = tan theta).
  { unfold tan. rewrite neg_sin, neg_cos. field. lra. }
  destruct (atan_of_tan_pos (theta + PI) Hc') as [Hs Hco].
  rewrite Ht, neg_sin in Hs. rewrite Ht, neg_cos in Hco. tauto.
Qed.

(** [atan2] of a point at angle [theta], at any positive distance, is
    [theta] up to a multiple of 2 pi. *)
Lemma atan2_polar (k theta : R) :
  0 < k ->
  exists n : Z, atan2 (k * sin theta) (k * cos theta)
                = theta + IZR n * (2 * PI).
Proof.
  intros Hk. apply same_angle; unfold atan2.
  - destruct (Rlt_dec 0 (k * cos theta)) as [Hx|Hx].
    + assert (Hc : 0 < cos theta) by nra.
      replace (k * sin theta / (k * cos theta)) with (tan theta)
        by (unfold tan; field; lra).
      apply atan_of_tan_pos, Hc.
    + destruct (Rlt_dec (k * cos theta) 0) as [Hx'|Hx'].
      * assert (Hc : cos theta < 0) by nra.
        replace (k * sin theta / (k * cos theta)) with (tan theta)
          by (unfold tan; field; lra).
        destruct (atan_of_tan_neg theta Hc) as [Hs _].
        destruct (Rle_dec 0 (k * sin theta)).
        -- rewrite neg_sin. lra.
        -- unfold Rminus. rewrite <- (sin_period _ 1).
           replace (atan (tan theta) + - PI + 2 * INR 1 * PI)
             with (atan (tan theta) + PI) by (simpl; ring).
           rewrite neg_sin. lra.
      * assert (Hc : cos theta = 0) by nra.
        pose proof (sin2_cos2 theta) as H1. unfold Rsqr in H1.
        rewrite Hc in H1.
        destruct (Rlt_dec 0 (k * sin theta)) as [Hy|Hy].
        -- rewrite sin_PI2. assert (0 < sin theta) by nra. nra.
        -- destruct (Rlt_dec (k * sin theta) 0) as [Hy'|Hy'].
           ++ rewrite sin_neg, sin_PI2. assert (sin theta < 0) by nra. nra.
           ++ assert (sin theta = 0) by nra. nra.
  - destruct (Rlt_dec 0 (k * cos theta)) as [Hx|Hx].
    + assert (Hc : 0 < cos theta) by nra.
      replace (k * sin theta / (k * cos theta)) with (tan theta)
        by (unfold tan; field; lra).
      apply atan_of_tan_pos, Hc.
    + destruct (Rlt_dec (k * cos theta) 0) as [Hx'|Hx'].
      * assert (Hc : cos theta < 0) by nra.
        replace (k * sin theta / (k * cos theta)) with (tan theta)
          by (unfold tan; field; lra).
        destruct (atan_of_tan_neg theta Hc) as [_ Hco].
        destruct (Rle_dec 0 (k * sin theta)).
        -- rewrite neg_cos. lra.
        -- unfold Rminus. rewrite <- (cos_period _ 1).
           replace (atan (tan theta) + - PI + 2 * INR 1 * PI)
             with (atan (tan theta) + PI) by (simpl; ring).
           rewrite neg_cos. lra.
      * assert (Hc : cos theta = 0) by nra.
        destruct (Rlt_dec 0 (k * sin theta)) as [Hy|Hy].
        -- rewrite cos_PI2. lra.
        -- destruct (Rlt_dec (k * sin theta) 0) as [Hy'|Hy'].
           ++ rewrite cos_neg, cos_PI2. lra.
           ++ pose proof (sin2_cos2 theta) as H1. unfold Rsqr in H1.
              assert (sin theta = 0) by nra. nra.
Qed.

Lemma Int_part_plus_Z (x : R) (n : Z) :
  Int_part (x + IZR n) = (Int_part x + n)%Z.
Proof.
  symmetry. apply Int_part_spec.
  pose proof (base_Int_part x) as [H1 H2].
  rewrite plus_IZR. lra.
Qed.

(** The remainder does not see multiples of the modulus. *)
Lemma remainder_period (a m : R) (n : Z) :
  m <> 0 -> remainder (a + IZR n * m) m = remainder a m.
Proof.
  intros Hm. unfold remainder.
  replace ((a + IZR n * m) / m) with (a / m + IZR n) by (field; exact Hm).
  rewrite Int_part_plus_Z, plus_IZR. ring.
Qed.

End Angles.

(** ** [loss_ce_phase] *)

Module LossCePhase.
Import Torch Losses.

Lemma loss_ce_phase_eq phase_prob_pred phase_true phasebook :
  loss_ce_phase phase_prob_pred phase_true phasebook
  = (phase_ref_idx <-
       argmin_last (length phasebook)
         (map_4 (circular_distances phasebook) (radians phase_true)) ;;
     sum_min_permutations fst (fun e st => ce_cost st (snd e))
       (Py.zip phase_prob_pred phase_ref_idx)).
Proof.
  unfold loss_ce_phase, sum_min_permutations.
  destruct phase_true; cbn [radians];
    (destruct (argmin_last _ _) as [idx|e]; [|reflexivity]);
    cbn [bind]; f_equal; apply map_ext; intros [p i]; reflexivity.
Qed.

Lemma circular_distances_period (phasebook : list R) (th : R) (n : Z) :
  circular_distances phasebook (th + IZR n * (2 * PI))
  = circular_distances phasebook th.
Proof.
  assert (Hpi : 2 * PI <> 0) by (pose proof PI_RGT_0; lra).
  unfold circular_distances. f_equal; apply map_ext; intros pb.
  - replace (pb - (th + IZR n * (2 * PI)))
      with (pb - th + IZR (- n) * (2 * PI)) by (rewrite opp_IZR; ring).
    now apply remainder_period.
  - replace (th + IZR n * (2 * PI) - pb)
      with (th - pb + IZR n * (2 * PI)) by ring.
    now apply remainder_period.
Qed.

Lemma circular_distances_polar (phasebook : list R) (p : R * R) :
  0 < fst p ->
  circular_distances phasebook
    (atan2
       (snd (polar p)
        / sqrt (clamp_min 1e-12 (fst (polar p) ^ 2 + snd (polar p) ^ 2)))
       (fst (polar p)
        / sqrt (clamp_min 1e-12 (fst (polar p) ^ 2 + snd (polar p) ^ 2))))
  = circular_distances phasebook (snd p).
Proof.
  intros Hr. destruct p as [r theta]; simpl in *.
  set (d := sqrt _).
  assert (Hd : 0 < d).
  { apply sqrt_lt_R0. unfold clamp_min.
    apply Rlt_le_trans with 1e-12; [lra|apply Rmax_r]. }
  replace (r * sin theta / d) with (r / d * sin theta) by (field; lra).
  replace (r * cos theta / d) with (r / d * cos theta) by (field; lra).
  destruct (atan2_polar (r / d) theta) as [n ->].
  - now apply Rdiv_lt_0_compat.
  - apply circular_distances_period.
Qed.

Lemma map_4_ext_all4 {A B} (P : A -> Prop) (f g : A -> B)
  (t : list (list (list (list A)))) :
  all4 P t -> (forall x, P x -> f x = g x) -> map_4 f t = map_4 g t.
Proof.
  intros Ht Hfg. unfold map_4, all4 in *.
  apply map_ext_in; intros t3 H3. rewrite Forall_forall in Ht.
  specialize (Ht t3 H3).
  apply map_ext_in; intros t2 H2. rewrite Forall_forall in Ht.
  specialize (Ht t2 H2).
  apply map_ext_in; intros t1 H1. rewrite Forall_forall in Ht.
  specialize (Ht t1 H1).
  apply map_ext_in; intros x Hx. rewrite Forall_forall in Ht.
  apply Hfg, Ht, Hx.
Qed.

Lemma map_4_map_4 {A B C} (f : B -> C) (g : A -> B)
  (t : list (list (list (list A)))) :
  map_4 f (map_4 g t) = map_4 (fun x => f (g x)) t.
Proof.
  unfold map_4. rewrite map_map. apply map_ext; intros t3.
  rewrite map_map. apply map_ext; intros t2.
  rewrite map_map. apply map_ext; intros t1. apply map_map.
Qed.

(** C10. The truth given as complex numbers [r * (cos theta, sin theta)],
    with any positive [r] per bin, and the truth given as the phases
    [theta] give the same loss. *)
Theorem loss_ce_phase_truth_formats
  (phase_prob_pred : list (list (list (list (list R)))))
  (r_theta : list (list (list (list (R * R))))) (phasebook : list R) :
  all4 (fun p => 0 < fst p) r_theta ->
  loss_ce_phase phase_prob_pred (Complex (map_4 polar r_theta)) phasebook
  = loss_ce_phase phase_prob_pred (Radians (map_4 snd r_theta)) phasebook.
Proof.
  intros Hr. rewrite !loss_ce_phase_eq. cbn [radians].
  rewrite !map_4_map_4.
  rewrite (map_4_ext_all4 _ _
             (fun p => circular_distances phasebook (snd p)) _ Hr);
    [reflexivity|].
  intros p Hp. now apply circular_distances_polar.
Qed.

Lemma loss_ce_phase_truth_formats_witness :
  loss_ce_phase [[[[[1 / 2; 1 / 2]]]]]
    (Complex (map_4 polar [[[[(2, 1)]]]])) [0; PI]
  = loss_ce_phase [[[[[1 / 2; 1 / 2]]]]]
      (Radians (map_4 snd [[[[(2, 1)]]]])) [0; PI].
Proof.
  apply loss_ce_phase_truth_formats.
  repeat constructor. simpl. lra.
Defined.

(** *** The floor under the logarithm *)

Lemma nll_floor (p : R) : 1e-36 <= clamp_min 1e-36 p.
Proof. unfold clamp_min. apply Rmax_r. Qed.

Lemma nll_max : - ln 1e-36 = 36 * ln 10.
Proof.
  replace 1e-36 with (/ 10 ^ 36) by lra.
  rewrite ln_Rinv by (apply pow_lt; lra).
  rewrite ln_pow by lra. rewrite INR_IZR_INZ. simpl. lra.
Qed.

Lemma ln_monotone (x y : R) : 0 < x -> x <= y -> ln x <= ln y.
Proof.
  intros Hx [Hlt | ->]; [|lra]. left. now apply ln_increasing.
Qed.

Lemma nll_le (p : R) : nll p <= 36 * ln 10.
Proof.
  unfold nll. rewrite <- nll_max.
  pose proof (ln_monotone 1e-36 (clamp_min 1e-36 p)) as H.
  pose proof (nll_floor p). lra.
Qed.

Lemma nll_zero : nll 0 = 36 * ln 10.
Proof.
  unfold nll, clamp_min. rewrite Rmax_right by lra. apply nll_max.
Qed.

Lemma nll_nonneg (p : R) : p <= 1 -> 0 <= nll p.
Proof.
  intros Hp. unfold nll.
  pose proof (ln_monotone (clamp_min 1e-36 p) 1) as H. rewrite ln_1 in H.
  pose proof (nll_floor p).
  assert (clamp_min 1e-36 p <= 1) by (unfold clamp_min; apply Rmax_lub; lra).
  lra.
Qed.

Lemma nll_max_pos : 0 <= 36 * ln 10.
Proof.
  pose proof (ln_monotone 1 10) as H. rewrite ln_1 in H. lra.
Qed.

Lemma numel4_map_4 {A B} (f : A -> B) (t : list (list (list (list A)))) :
  numel4 (map_4 f t) = numel4 t.
Proof.
  unfold numel4, numel3, numel2, map_4. rewrite map_map. f_equal.
  apply map_ext; intros t3. rewrite map_map. f_equal.
  apply map_ext; intros t2. rewrite map_map. f_equal.
  apply map_ext; intros t1. apply length_map.
Qed.

Lemma numel_radians (phase_true : phase_truth) :
  numel4 (radians phase_true) = numel phase_true.
Proof. destruct phase_true; simpl; now rewrite ?numel4_map_4. Qed.

Section Bounds.
Variable K : R.
Variable h : R -> R.
Hypothesis h_le : forall v, h v <= K.

Lemma sum1_bound (l : list R) : sum1 (map h l) <= INR (length l) * K.
Proof.
  induction l as [|x l IH]; [simpl; lra|].
  change (h x + sum1 (map h l) <= INR (S (length l)) * K).
  rewrite S_INR. pose proof (h_le x). lra.
Qed.

Lemma sum2_bound (t : list (list R)) :
  sum2 (map_2 h t) <= INR (numel2 t) * K.
Proof.
  unfold sum2, map_2, numel2.
  induction t as [|l t IH]; [simpl; lra|].
  change (sum1 (map h l) + sum1 (map sum1 (map (map h) t))
          <= INR (length l + list_sum (map (@length R) t)) * K).
  rewrite plus_INR. pose proof (sum1_bound l). lra.
Qed.

Lemma sum3_bound (t : list (list (list R))) :
  sum3 (map_3 h t) <= INR (numel3 t) * K.
Proof.
  unfold sum3, map_3, numel3.
  induction t as [|l t IH]; [simpl; lra|].
  change (sum2 (map_2 h l) + sum1 (map sum2 (map (map (map h)) t))
          <= INR (numel2 l + list_sum (map numel2 t)) * K).
  rewrite plus_INR. pose proof (sum2_bound l). lra.
Qed.

End Bounds.

Lemma map2_numel1 {A B C} (f : A -> B -> C) (a : list A) (b : list B) :
  (length (map2 f a b) <= length b)%nat.
Proof. rewrite map2_length. lia. Qed.

Lemma map2_numel2 {A B C} (f : A -> B -> C) (a : list (list A))
  (b : list (list B)) :
  (numel2 (map2 (map2 f) a b) <= numel2 b)%nat.
Proof.
  unfold numel2. revert b; induction a as [|x a IH]; intros [|y b]; simpl;
    try lia.
  pose proof (map2_numel1 f x y). specialize (IH b). lia.
Qed.

Lemma map2_numel3 {A B C} (f : A -> B -> C) (a : list (list (list A)))
  (b : list (list (list B))) :
  (numel3 (map2_3 f a b) <= numel3 b)%nat.
Proof.
  unfold numel3, map2_3.
  revert b; induction a as [|x a IH]; intros [|y b]; simpl; try lia.
  pose proof (map2_numel2 f x y). specialize (IH b). lia.
Qed.

Lemma ce_cost_le (st : list (list (list (list R))))
  (idx : list (list (list nat))) :
  ce_cost st idx <= INR (numel3 idx) * (36 * ln 10).
Proof.
  unfold ce_cost.
  eapply Rle_trans; [apply sum3_bound, nll_le|].
  apply Rmult_le_compat_r; [apply nll_max_pos|].
  apply le_INR, map2_numel3.
Qed.

Lemma Forall2_in_r {A B} (R : A -> B -> Prop) (l1 : list A) (l2 : list B)
  (y : B) :
  Forall2 R l1 l2 -> In y l2 -> exists x, In x l1 /\ R x y.
Proof.
  induction 1 as [|a b l1 l2 Hab _ IH]; intros Hin; [destruct Hin|].
  destruct Hin as [<-|Hin].
  - exists a; split; [now left|exact Hab].
  - destruct (IH Hin) as [x [Hx HR]]. exists x; split; [now right|exact HR].
Qed.

(** A bound on every ordering is a bound on the loss. *)
Lemma sum_min_permutations_le {E A} (sel : E -> list A)
  (cost : E -> list A -> R) (bound : E -> R) (batch : list E) (v : R) :
  (forall e s, cost e s <= bound e) ->
  sum_min_permutations sel cost batch = Ok v ->
  v <= Py.sum (map bound batch).
Proof.
  intros Hb. unfold sum_min_permutations, Py.sum_gen.
  revert v; induction batch as [|e batch IH]; intros v; simpl.
  - intros [= <-]. lra.
  - destruct (Py.min_gen _) as [m|] eqn:Hm; simpl; [|discriminate].
    destruct (collect _) as [ms|] eqn:Hc; simpl in *; [|discriminate].
    intros [= <-]. rewrite !sum_cons.
    specialize (IH (Py.sum ms) eq_refl).
    assert (Hle : m <= bound e).
    { unfold Py.min_gen in Hm.
      destruct (collect _) as [cs|] eqn:Hcs in Hm; simpl in Hm;
        [|discriminate].
      apply min_spec in Hm as [Hin _].
      apply collect_ok_forall2 in Hcs.
      destruct (Forall2_in_r _ _ _ _ Hcs Hin) as [r [Hr Heq]].
      apply in_map_iff in Hr as [s [<- _]].
      destruct (Torch.stack s); simpl in Heq; [|discriminate].
      injection Heq as <-. apply Hb. }
    lra.
Qed.

Lemma sum_bounds_zip {A} (K : R) (prob : list A)
  (idx : list (list (list (list nat)))) :
  0 <= K ->
  Py.sum (map (fun e => INR (numel3 (snd e)) * K) (Py.zip prob idx))
  <= INR (numel4 idx) * K.
Proof.
  intros HK. unfold Py.zip, numel4.
  revert idx; induction prob as [|p prob IH]; intros idx.
  - unfold Py.sum; simpl. apply Rmult_le_pos; [apply pos_INR|exact HK].
  - destruct idx as [|i idx].
    + unfold Py.sum; simpl. lra.
    + change (Py.sum (INR (numel3 i) * K
                      :: map (fun e => INR (numel3 (snd e)) * K)
                           (combine prob idx))
              <= INR (numel3 i + list_sum (map numel3 idx)) * K).
      rewrite sum_cons, plus_INR. specialize (IH idx). lra.
Qed.

(** C8. The probability gathered for the nearest phasebook entry is raised
    to at least 1e-36 before the logarithm, so every term of the loss is at
    most 36 ln 10 (reached by a predicted probability of 0) and not negative
    for a probability of at most 1; whatever the true phases and the
    phasebook are, a returned loss is at most 36 ln 10 per true phase, and
    a loss is returned whenever the phasebook and the channels of every
    batch item are not empty. *)
Theorem loss_ce_phase_finite
  (phase_prob_pred : list (list (list (list (list R)))))
  (phase_true : phase_truth) (phasebook : list R) :
  (forall p, 1e-36 <= clamp_min 1e-36 p /\ nll p <= 36 * ln 10)
  /\ nll 0 = 36 * ln 10
  /\ (forall p, p <= 1 -> 0 <= nll p)
  /\ (forall v,
        loss_ce_phase phase_prob_pred phase_true phasebook = Ok v ->
        v <= INR (numel phase_true) * (36 * ln 10))
  /\ (phasebook <> [] ->
      Forall (fun p => p <> []) phase_prob_pred ->
      exists v, loss_ce_phase phase_prob_pred phase_true phasebook = Ok v).
Proof.
  split; [intros p; split; [apply nll_floor|apply nll_le]|].
  split; [apply nll_zero|]. split; [apply nll_nonneg|].
  rewrite loss_ce_phase_eq. unfold argmin_last. split.
  - intros v. destruct (length phasebook); [discriminate|]. cbn [bind].
    intros Hv.
    apply (sum_min_permutations_le _ _
             (fun e => INR (numel3 (snd e)) * (36 * ln 10))) in Hv;
      [|intros e s; apply ce_cost_le].
    eapply Rle_trans; [exact Hv|].
    eapply Rle_trans; [apply sum_bounds_zip, nll_max_pos|].
    rewrite !numel4_map_4, numel_radians. lra.
  - intros Hb Hne. destruct phasebook as [|pb book]; [congruence|].
    cbn [length bind].
    destruct (sum_min_permutations_ok fst
                (fun e st => ce_cost st (snd e))
                (Py.zip phase_prob_pred
                   (map_4 argmin
                      (map_4 (circular_distances (pb :: book))
                             (radians phase_true)))))
      as [mins [Hm _]].
    + apply Forall_forall. intros [p i] Hin; simpl.
      rewrite Forall_forall in Hne. apply Hne.
      unfold Py.zip in Hin. now apply in_combine_l in Hin.
    + now exists (Py.sum mins).
Qed.

Lemma remainder_small (a m : R) : 0 <= a < m -> remainder a m = a.
Proof.
  intros [Ha Hm]. unfold remainder.
  assert (Hz : Int_part (a / m) = 0%Z).
  { symmetry. apply Int_part_spec.
    assert (0 <= a / m < 1).
    { split.
      { unfold Rdiv. apply Rmult_le_pos; [lra|].
        left. apply Rinv_0_lt_compat. lra. }
      apply Rmult_lt_reg_r with m; [lra|].
      unfold Rdiv. rewrite Rmult_assoc, Rinv_l by lra. lra. }
    simpl. lra. }
  rewrite Hz. simpl. ring.
Qed.

(** The true phase is the phasebook entry 0 itself (circular distance 0),
    and the predicted probability of that entry is 0. *)
Example loss_ce_phase_zero_probability :
  loss_ce_phase [[[[[0; 1]]]]] (Radians [[[[0]]]]) [0; PI]
  = Ok (36 * ln 10).
Proof.
  pose proof PI_RGT_0 as Hpi.
  rewrite loss_ce_phase_eq.
  assert (Hd : circular_distances [0; PI] 0 = [0; PI]).
  { unfold circular_distances. cbn [map map2].
    replace (0 - 0) with 0 by ring. replace (PI - 0) with PI by ring.
    replace (0 - PI) with (PI + IZR (-1) * (2 * PI)) by ring.
    rewrite remainder_period by lra.
    rewrite !remainder_small by lra.
    now rewrite !Rmin_left by lra. }
  cbn [radians map_4 map length argmin_last bind]. rewrite Hd.
  assert (Ha : argmin [0; PI] = O).
  { unfold argmin, argmin_from.
    destruct (Rlt_dec PI 0) as [H|_]; [lra|reflexivity]. }
  rewrite Ha. rewrite sum_min_permutations_const.
  - cbn [Py.zip combine map fst snd]. unfold ce_cost, map2_3, map_3.
    cbn [map2 map nth]. rewrite nll_zero.
    unfold Py.sum, sum3, sum2, sum1; simpl. f_equal. ring.
  - intros e [<-|[]]; simpl. split; [discriminate|].
    apply singleton_orderings.
Qed.

Lemma loss_ce_phase_finite_witness :
  36 * ln 10 <= INR (numel (Radians [[[[0]]]])) * (36 * ln 10)
  /\ exists v,
       loss_ce_phase [[[[[0; 1]]]]] (Radians [[[[0]]]]) [0; PI] = Ok v.
Proof.
  split.
  - apply (loss_ce_phase_finite [[[[[0; 1]]]]] (Radians [[[[0]]]]) [0; PI]).
    exact loss_ce_phase_zero_probability.
  - apply (loss_ce_phase_finite [[[[[0; 1]]]]] (Radians [[[[0]]]]) [0; PI]).
    + discriminate.
    + constructor; [discriminate|constructor].
Defined.

End LossCePhase.

(** ** Every loss is a sum of best orderings *)

Module PermutationInvariance.
Import Torch Losses.

Lemma sum_min_permutations_sum_of_best {E A} (sel : E -> list A)
  (cost : E -> list A -> R) (batch : list E) :
  Forall (fun e => sel e <> []) batch ->
  sum_of_best (sum_min_permutations sel cost batch) sel cost batch.
Proof.
  intros Hne.
  destruct (sum_min_permutations_ok sel cost batch Hne) as [mins [Hm HF]].
  exists mins; split; [exact Hm|].
  clear Hm Hne. induction HF; constructor; auto.
  split; [assumption|apply permutations_length].
Qed.

Lemma zip_nonempty {A B} (a : list (list A)) (b : list B) :
  Forall (fun x => x <> []) a ->
  Forall (fun e => fst e <> []) (Py.zip a b).
Proof.
  intros H. apply Forall_forall. intros [x y] Hin; simpl.
  rewrite Forall_forall in H. apply H.
  unfold Py.zip in Hin. now apply in_combine_l in Hin.
Qed.

Lemma loss_mi_msa_eq mask mixture sources :
  loss_mi_msa mask mixture sources
  = sum_min_permutations fst
      (fun e st => msa_cost st (fst (snd e)) (snd (snd e)))
      (Py.zip mask (Py.zip mixture sources)).
Proof.
  unfold loss_mi_msa, sum_min_permutations, Py.zip, map_4, map_3.
  rewrite combine_map_l, combine_map_r, map_map.
  rewrite combine_map_r, combine_map_r, map_map.
  reflexivity.
Qed.

(** C2. Every permutation-invariant loss ([loss_wa], [loss_mi_msa],
    [loss_mi_tpsa], [loss_csa], [loss_ce_phase]) takes, for every batch item
    on its own, the least total cost over all [C!] orderings of the [C]
    estimated channels against the truths in their given order, and returns
    the sum (not the mean) of these minima over the batch. *)
Theorem losses_sum_of_best_permutations
  (source_pred source_true : list (list (list R)))
  (mask : list (list (list (list R))))
  (com_pred : list (list (list (list cplx))))
  (mixture : list (list (list cplx)))
  (sources : list (list (list (list cplx)))) (gamma : R) (L : Z)
  (phase_prob_pred : list (list (list (list (list R)))))
  (phase_true : phase_truth) (phasebook : list R) :
  (Forall (fun p => p <> []) source_pred ->
   sum_of_best (loss_wa source_pred source_true) fst
     (fun e s => wa_cost s (snd e))
     (Py.zip source_pred source_true))
  /\ (Forall (fun M => M <> []) mask ->
      sum_of_best (loss_mi_msa mask mixture sources) fst
        (fun e s => msa_cost s (fst (snd e)) (snd (snd e)))
        (Py.zip mask (Py.zip mixture sources)))
  /\ (L = 1%Z \/ L = 2%Z ->
      Forall (fun M => M <> []) mask ->
      sum_of_best (loss_mi_tpsa mask mixture sources gamma L) fst
        (fun e s =>
           tpsa_cost abs_comp L gamma s (fst (snd e)) (snd (snd e)))
        (Py.zip mask (Py.zip mixture sources)))
  /\ (L = 1%Z \/ L = 2%Z ->
      Forall (fun p => p <> []) (Spec.source_pred com_pred mixture) ->
      sum_of_best (loss_csa com_pred mixture sources L) fst
        (fun e s => csa_cost L s (snd e))
        (Py.zip (Spec.source_pred com_pred mixture) sources))
  /\ (phasebook <> [] ->
      Forall (fun p => p <> []) phase_prob_pred ->
      sum_of_best (loss_ce_phase phase_prob_pred phase_true phasebook) fst
        (fun e s => ce_cost s (snd e))
        (Py.zip phase_prob_pred
           (map_4 argmin
              (map_4 (circular_distances phasebook)
                     (radians phase_true))))).
Proof.
  split; [|split; [|split; [|split]]].
  - intros H. rewrite LossWa.loss_wa_eq.
    now apply sum_min_permutations_sum_of_best, zip_nonempty.
  - intros H. rewrite loss_mi_msa_eq.
    now apply sum_min_permutations_sum_of_best, zip_nonempty.
  - intros HL H. rewrite LossTpsa.loss_mi_tpsa_eq by exact HL.
    now apply sum_min_permutations_sum_of_best, zip_nonempty.
  - intros HL H. rewrite LossCsa.loss_csa_eq by exact HL.
    now apply sum_min_permutations_sum_of_best, zip_nonempty.
  - intros Hb H. rewrite LossCePhase.loss_ce_phase_eq.
    destruct phasebook as [|pb book]; [congruence|].
    cbn [length argmin_last bind].
    now apply sum_min_permutations_sum_of_best, zip_nonempty.
Qed.

Lemma losses_sum_of_best_permutations_witness :
  sum_of_best (loss_wa [[[1]; [2]]] [[[2]; [1]]]) fst
    (fun e s => wa_cost s (snd e))
    (Py.zip [[[1]; [2]]] [[[2]; [1]]])
  /\ sum_of_best
       (loss_mi_tpsa [[[[0]]]] [[[(1, 0)]]] [[[[(0, 0)]]]] 1 2) fst
       (fun e s =>
          tpsa_cost abs_comp 2 1 s (fst (snd e)) (snd (snd e)))
       (Py.zip [[[[0]]]] (Py.zip [[[(1, 0)]]] [[[[(0, 0)]]]])).
Proof.
  split.
  - apply (losses_sum_of_best_permutations [[[1]; [2]]] [[[2]; [1]]]
             [] [] [] [] 1 1 [] (Radians []) []).
    constructor; [discriminate|constructor].
  - apply (losses_sum_of_best_permutations [] []
             [[[[0]]]] [] [[[(1, 0)]]] [[[[(0, 0)]]]] 1 2 [] (Radians []) []).
    + right; reflexivity.
    + constructor; [discriminate|constructor].
Defined.

(** With two channels given in the other order, the best ordering costs
    nothing. *)
Example loss_wa_swapped_channels :
  loss_wa [[[1]; [2]]] [[[2]; [1]]] = Ok 0.
Proof.
  unfold loss_wa, Py.sum_gen, Py.min_gen; simpl.
  unfold Py.sum, sum2, sum1; simpl.
  replace (Rabs (1 - 2) + 0 + (Rabs (2 - 1) + 0 + 0)) with 2
    by (rewrite Rabs_left, Rabs_right by lra; ring).
  replace (Rabs (2 - 2) + 0 + (Rabs (1 - 1) + 0 + 0)) with 0
    by (rewrite !Rabs_right by lra; ring).
  destruct (Rlt_dec 0 2) as [_|H]; [|lra]. f_equal. ring.
Qed.

Example permutations_order :
  Py.permutations [1; 2; 3]%nat
  = [[1; 2; 3]; [1; 3; 2]; [2; 1; 3]; [2; 3; 1]; [3; 1; 2]; [3; 2; 1]]%nat.
Proof. reflexivity. Qed.

End PermutationInvariance.

(** * Further properties of the losses *)

Module LossSymmetry.
Import Torch Losses.

Lemma best_over_permutations_unique {A} (l : list A) (cost : list A -> R)
  (m m' : R) :
  best_over_permutations l cost m -> best_over_permutations l cost m' ->
  m = m'.
Proof.
  intros [[s [Hs <-]] Hle] [[s' [Hs' <-]] Hle'].
  apply Rle_antisym; [apply Hle, Hs'|apply Hle', Hs].
Qed.

Lemma best_over_permutations_perm {A} (l l' : list A) (cost : list A -> R)
  (m : R) :
  Permutation l l' ->
  best_over_permutations l cost m -> best_over_permutations l' cost m.
Proof.
  intros Hp [[s [Hs Hm]] Hle]. split.
  - exists s; split; [now rewrite <- Hp|exact Hm].
  - intros s' Hs'. apply Hle. now rewrite Hp.
Qed.

(** The search over the orderings of [l] and of a reordering [l'] of it. *)
Lemma min_gen_permutations_perm {A} (l l' : list A) (cost : list A -> R) :
  Permutation l l' ->
  Py.min_gen (map (fun s => st <- stack s ;; Ok (cost st))
                  (Py.permutations l))
  = Py.min_gen (map (fun s => st <- stack s ;; Ok (cost st))
                    (Py.permutations l')).
Proof.
  intros Hp. destruct l as [|x l].
  - apply Permutation_nil in Hp. now subst.
  - assert (Hl' : l' <> []).
    { intros ->. apply Permutation_sym, Permutation_nil in Hp.
      discriminate. }
    destruct (min_gen_permutations (x :: l) cost) as [m [-> Hm]];
      [discriminate|].
    destruct (min_gen_permutations l' cost Hl') as [m' [-> Hm']].
    f_equal. apply (best_over_permutations_unique l' cost); [|exact Hm'].
    now apply (best_over_permutations_perm (x :: l)).
Qed.

Lemma sum_min_permutations_perm {E A} (sel : E -> list A)
  (cost : E -> list A -> R) (batch batch' : list E) :
  Forall2 (fun e e' => Permutation (sel e) (sel e')
                       /\ forall s, cost e s = cost e' s) batch batch' ->
  sum_min_permutations sel cost batch = sum_min_permutations sel cost batch'.
Proof.
  intros H. unfold sum_min_permutations. f_equal.
  induction H as [|e e' batch batch' [Hp Hc] _ IH]; [reflexivity|].
  cbn [map]. f_equal; [|exact IH].
  rewrite (min_gen_permutations_perm _ _ (cost e) Hp).
  f_equal. apply map_ext; intros s. destruct (stack s); simpl; [|reflexivity].
  now rewrite Hc.
Qed.

(** Reordering the channels of every item of the first tensor of a zip. *)
Lemma zip_perm {A B} (a a' : list (list A)) (b : list B) :
  Forall2 (@Permutation A) a a' ->
  Forall2 (fun e e' => Permutation (fst e) (fst e') /\ snd e = snd e')
          (Py.zip a b) (Py.zip a' b).
Proof.
  intros H. revert b. unfold Py.zip.
  induction H as [|x x' a a' Hx _ IH]; intros [|y b]; simpl; constructor;
    auto.
Qed.

Lemma sum_min_permutations_zip_perm {A B} (cost : B -> list A -> R)
  (a a' : list (list A)) (b : list B) :
  Forall2 (@Permutation A) a a' ->
  sum_min_permutations fst (fun e s => cost (snd e) s) (Py.zip a b)
  = sum_min_permutations fst (fun e s => cost (snd e) s) (Py.zip a' b).
Proof.
  intros H. apply sum_min_permutations_perm.
  eapply Forall2_impl; [|apply zip_perm, H].
  intros e e' [Hp Hs]. split; [exact Hp|]. intros s. now rewrite Hs.
Qed.

Lemma source_pred_channels com_pred mixture :
  source_pred com_pred mixture
  = map2 (fun c X => map (fun cc => map2_2 comp_mul cc X) c)
         com_pred mixture.
Proof.
  unfold source_pred. rewrite map2_map_r.
  apply map2_ext_in. intros c X _ _. apply bmap2_singleton.
Qed.

Lemma source_pred_perm com_pred com_pred' mixture :
  Forall2 (@Permutation _) com_pred com_pred' ->
  Forall2 (@Permutation _) (source_pred com_pred mixture)
          (source_pred com_pred' mixture).
Proof.
  intros H. rewrite !source_pred_channels. revert mixture.
  induction H as [|c c' com com' Hc _ IH]; intros [|X mixture]; simpl;
    constructor; auto.
  now apply Permutation_map.
Qed.

(** X1. Every permutation-invariant loss is unchanged when the estimated
    channels of the batch items are reordered (each item in its own way):
    the estimates of [loss_wa], the mask of [loss_mi_msa] and
    [loss_mi_tpsa], the complex mask of [loss_csa], the probabilities of
    [loss_ce_phase]. *)
Theorem losses_invariant_under_channel_order
  (source_pred source_pred' source_true : list (list (list R)))
  (mask mask' : list (list (list (list R))))
  (com_pred com_pred' : list (list (list (list cplx))))
  (mixture : list (list (list cplx)))
  (sources : list (list (list (list cplx)))) (gamma : R) (L : Z)
  (phase_prob_pred phase_prob_pred' : list (list (list (list (list R)))))
  (phase_true : phase_truth) (phasebook : list R) :
  (Forall2 (@Permutation _) source_pred source_pred' ->
   loss_wa source_pred' source_true = loss_wa source_pred source_true)
  /\ (Forall2 (@Permutation _) mask mask' ->
      loss_mi_msa mask' mixture sources = loss_mi_msa mask mixture sources
      /\ loss_mi_tpsa mask' mixture sources gamma L
         = loss_mi_tpsa mask mixture sources gamma L)
  /\ (Forall2 (@Permutation _) com_pred com_pred' ->
      loss_csa com_pred' mixture sources L
      = loss_csa com_pred mixture sources L)
  /\ (Forall2 (@Permutation _) phase_prob_pred phase_prob_pred' ->
      loss_ce_phase phase_prob_pred' phase_true phasebook
      = loss_ce_phase phase_prob_pred phase_true phasebook).
Proof.
  split; [|split; [|split]].
  - intros H. rewrite !LossWa.loss_wa_eq. symmetry.
    apply (sum_min_permutations_zip_perm (fun t s => wa_cost s t)), H.
  - intros H. split.
    + rewrite !PermutationInvariance.loss_mi_msa_eq. symmetry.
      apply (sum_min_permutations_zip_perm
               (fun xs s => msa_cost s (fst xs) (snd xs))), H.
    + destruct (Z.eq_dec L 1) as [H1|H1]; [|destruct (Z.eq_dec L 2) as [H2|H2]].
      * rewrite !LossTpsa.loss_mi_tpsa_eq by now left. symmetry.
        apply (sum_min_permutations_zip_perm
                 (fun xs s => tpsa_cost abs_comp L gamma s (fst xs) (snd xs))),
          H.
      * rewrite !LossTpsa.loss_mi_tpsa_eq by now right. symmetry.
        apply (sum_min_permutations_zip_perm
                 (fun xs s => tpsa_cost abs_comp L gamma s (fst xs) (snd xs))),
          H.
      * unfold loss_mi_tpsa. apply Z.eqb_neq in H1, H2. now rewrite H1, H2.
  - intros H.
    destruct (Z.eq_dec L 1) as [H1|H1]; [|destruct (Z.eq_dec L 2) as [H2|H2]].
    + rewrite !LossCsa.loss_csa_eq by now left. symmetry.
      apply (sum_min_permutations_zip_perm (fun t s => csa_cost L s t)).
      now apply source_pred_perm.
    + rewrite !LossCsa.loss_csa_eq by now right. symmetry.
      apply (sum_min_permutations_zip_perm (fun t s => csa_cost L s t)).
      now apply source_pred_perm.
    + unfold loss_csa. apply Z.eqb_neq in H1, H2. now rewrite H1, H2.
  - intros H. rewrite !LossCePhase.loss_ce_phase_eq.
    destruct (argmin_last _ _) as [idx|e]; [|reflexivity]. cbn [bind].
    symmetry.
    apply (sum_min_permutations_zip_perm (fun i s => ce_cost s i)), H.
Qed.

Lemma losses_invariant_under_channel_order_witness :
  loss_wa [[[2]; [1]]] [[[2]; [1]]] = loss_wa [[[1]; [2]]] [[[2]; [1]]].
Proof.
  apply (losses_invariant_under_channel_order
           [[[1]; [2]]] [[[2]; [1]]] [[[2]; [1]]]
           [] [] [] [] [] [] 1 1 [] [] (Radians []) []).
  constructor; [apply perm_swap|constructor].
Defined.

End LossSymmetry.

Module LossWaZero.
Import Torch Losses.

Lemma sum1_abs_nonneg (l : list R) : 0 <= sum1 (map Rabs l).
Proof.
  induction l as [|x l IH]; [simpl; lra|].
  change (0 <= Rabs x + sum1 (map Rabs l)). pose proof (Rabs_pos x). lra.
Qed.

Lemma wa_cost_nonneg (s t : list (list R)) : 0 <= wa_cost s t.
Proof.
  unfold wa_cost, sum2, map_2, map2_2.
  induction (map2 (map2 Rminus) s t) as [|r m IH]; [simpl; lra|].
  change (0 <= sum1 (map Rabs r) + sum1 (map sum1 (map (map Rabs) m))).
  pose proof (sum1_abs_nonneg r). lra.
Qed.

Lemma abs_zero_rows (a b : list R) :
  length a = length b -> sum1 (map Rabs (map2 Rminus a b)) = 0 -> a = b.
Proof.
  revert b; induction a as [|x a IH]; intros [|y b] Hl; try discriminate;
    [reflexivity|]. intros H.
  change (Rabs (x - y) + sum1 (map Rabs (map2 Rminus a b)) = 0) in H.
  pose proof (sum1_abs_nonneg (map2 Rminus a b)) as Hr.
  pose proof (Rabs_pos (x - y)) as Hx.
  assert (Hz : Rabs (x - y) = 0) by lra.
  assert (Hd : x - y = 0).
  { destruct (Req_dec (x - y) 0) as [E|E]; [exact E|].
    apply Rabs_no_R0 in E. contradiction. }
  f_equal; [lra|]. apply IH; [now injection Hl|lra].
Qed.

Lemma wa_cost_zero (s t : list (list R)) :
  Forall2 (fun a b => length a = length b) s t -> wa_cost s t = 0 -> s = t.
Proof.
  unfold wa_cost, sum2, map_2, map2_2.
  induction 1 as [|a b s t Hab _ IH]; [reflexivity|]. intros H.
  change (sum1 (map Rabs (map2 Rminus a b))
          + sum1 (map sum1 (map (map Rabs) (map2 (map2 Rminus) s t))) = 0)
    in H.
  pose proof (sum1_abs_nonneg (map2 Rminus a b)) as Ha.
  pose proof (wa_cost_nonneg s t) as Hs.
  unfold wa_cost, sum2, map_2, map2_2 in Hs.
  f_equal; [apply abs_zero_rows; [exact Hab|lra]|apply IH; lra].
Qed.

Lemma wa_cost_self (t : list (list R)) : wa_cost t t = 0.
Proof.
  unfold wa_cost, sum2, map_2, map2_2.
  induction t as [|a t IH]; [reflexivity|].
  change (sum1 (map Rabs (map2 Rminus a a))
          + sum1 (map sum1 (map (map Rabs) (map2 (map2 Rminus) t t))) = 0).
  rewrite IH.
  assert (Ha : sum1 (map Rabs (map2 Rminus a a)) = 0).
  { clear IH. induction a as [|x a IHa]; [reflexivity|].
    change (Rabs (x - x) + sum1 (map Rabs (map2 Rminus a a)) = 0).
    rewrite IHa, Rminus_diag, Rabs_R0. ring. }
  rewrite Ha. ring.
Qed.

Lemma matrix_rows_agree (C W : nat) (s t : list (list R)) :
  matrix C W s -> matrix C W t ->
  Forall2 (fun a b => length a = length b) s t.
Proof.
  intros [Hs Hsr] [Ht Htr]. subst C. revert t Ht Htr.
  induction Hsr as [|a s Ha _ IH]; intros [|b t] Ht Htr; try discriminate;
    constructor.
  - inversion Htr; subst. congruence.
  - apply IH; [now injection Ht|now inversion Htr].
Qed.

Lemma matrix_perm (C W : nat) (p s : list (list R)) :
  Permutation p s -> matrix C W p -> matrix C W s.
Proof.
  intros Hp [Hl Hr]. split.
  - now rewrite <- (Permutation_length Hp).
  - apply Forall_forall. intros row Hin. rewrite Forall_forall in Hr.
    apply Hr. now apply (Permutation_in _ (Permutation_sym Hp)).
Qed.

(** The least cost of one item: never negative, and 0 exactly when the
    truths are the estimates in some order. *)
Lemma best_cost_zero (C W : nat) (p t : list (list R)) (m : R) :
  matrix C W p -> matrix C W t ->
  best_over_permutations p (fun s => wa_cost s t) m ->
  0 <= m /\ (m = 0 <-> Permutation p t).
Proof.
  intros Hp Ht [[s [Hs Hm]] Hle]. split.
  - rewrite <- Hm. apply wa_cost_nonneg.
  - split.
    + intros ->. apply wa_cost_zero in Hm; [now subst|].
      apply (matrix_rows_agree C W); [now apply (matrix_perm C W p)|exact Ht].
    + intros Hpt. apply Rle_antisym.
      * rewrite <- (wa_cost_self t). now apply Hle.
      * rewrite <- Hm. apply wa_cost_nonneg.
Qed.

Lemma Forall2_in_l {A B} (R : A -> B -> Prop) (l1 : list A) (l2 : list B)
  (x : A) :
  Forall2 R l1 l2 -> In x l1 -> exists y, In y l2 /\ R x y.
Proof.
  induction 1 as [|a b l1 l2 Hab _ IH]; intros Hin; [destruct Hin|].
  destruct Hin as [<-|Hin].
  - exists b; split; [now left|exact Hab].
  - destruct (IH Hin) as [y [Hy HR]]. exists y; split; [now right|exact HR].
Qed.

Lemma sum_zero_nonneg (x : R) (l : list R) :
  0 <= x -> 0 <= Py.sum l -> (Py.sum (x :: l) = 0 <-> x = 0 /\ Py.sum l = 0).
Proof. intros Hx Hl. rewrite sum_cons. split; [|intros [-> ->]]; lra. Qed.

(** X2. [loss_wa] is never negative, and for estimates and truths of one
    shape (with at least one channel) it is 0 exactly when, in every batch
    item, the truths are the estimates in some order. *)
Theorem loss_wa_zero_iff_reordering
  (source_pred source_true : list (list (list R))) :
  Forall2 (fun p t => exists C W, C <> O /\ matrix C W p /\ matrix C W t)
          source_pred source_true ->
  (exists v, loss_wa source_pred source_true = Ok v /\ 0 <= v)
  /\ (loss_wa source_pred source_true = Ok 0
      <-> Forall2 (@Permutation _) source_pred source_true).
Proof.
  intros Hs. rewrite LossWa.loss_wa_eq.
  destruct (sum_min_permutations_ok fst (fun e s => wa_cost s (snd e))
              (Py.zip source_pred source_true)) as [mins [-> HF]].
  { apply PermutationInvariance.zip_nonempty.
    apply Forall_forall. intros p Hin.
    destruct (Forall2_in_l _ _ _ _ Hs Hin) as [t [_ [C [W [HC [[Hl _] _]]]]]].
    intros ->. simpl in Hl. congruence. }
  assert (H : 0 <= Py.sum mins
              /\ (Py.sum mins = 0
                  <-> Forall2 (@Permutation _) source_pred source_true)).
  { clear -Hs HF. revert mins HF.
    induction Hs as [|p t ps ts [C [W [HC [Hp Ht]]]] _ IH]; intros mins HF.
    - inversion HF; subst. unfold Py.sum; simpl. split; [lra|].
      split; [constructor|reflexivity].
    - inversion HF as [|e m es ms Hb HF']; subst.
      destruct (IH ms HF') as [IH0 IHz].
      destruct (best_cost_zero C W p t m Hp Ht Hb) as [Hm Hmz].
      split; [rewrite sum_cons; lra|].
      rewrite (sum_zero_nonneg m ms Hm IH0). split.
      + intros [H1 H2]. constructor; [now apply Hmz|now apply IHz].
      + intros H. inversion H; subst. split; [now apply Hmz|now apply IHz]. }
  destruct H as [H0 Hz]. split.
  - now exists (Py.sum mins).
  - split.
    + intros [= E]. now apply Hz.
    + intros E. f_equal. now apply Hz.
Qed.

Lemma loss_wa_zero_iff_reordering_witness :
  loss_wa [[[1]; [2]]] [[[2]; [1]]] = Ok 0
  <-> Forall2 (@Permutation _) [[[1]; [2]]] [[[2]; [1]]].
Proof.
  apply (loss_wa_zero_iff_reordering [[[1]; [2]]] [[[2]; [1]]]).
  constructor; [|constructor].
  exists 2%nat, 1%nat. repeat split; try discriminate; repeat constructor.
Defined.

End LossWaZero.

(** ** The floor of [loss_csa] *)

Module LossCsaFloor.
Import Torch Losses.

Lemma csa_dist_floor (L : Z) (z : cplx) : csa_floor L <= csa_dist L z.
Proof.
  unfold csa_floor, csa_dist. rewrite LossTpsa.abs_comp_floor.
  pose proof (Rmax_r (norm2 z) 1e-6) as H.
  destruct (L =? 1)%Z; [exact H|]. nra.
Qed.

Lemma csa_dist_exact (L : Z) (z : cplx) : csa_dist L (csub z z) = csa_floor L.
Proof.
  unfold csub. rewrite !Rminus_diag.
  unfold csa_floor, csa_dist. rewrite LossTpsa.abs_comp_silent.
  destruct (L =? 1)%Z; [reflexivity|]. lra.
Qed.

Section Bounds.
Variable K : R.
Variable h : cplx -> R.

Section Lower.
Hypothesis h_ge : forall z, K <= h z.

Lemma sum1_lower (l : list cplx) : INR (length l) * K <= sum1 (map h l).
Proof.
  induction l as [|x l IH]; [simpl; lra|].
  change (INR (S (length l)) * K <= h x + sum1 (map h l)).
  rewrite S_INR. pose proof (h_ge x). lra.
Qed.

Lemma sum2_lower (t : list (list cplx)) :
  INR (numel2 t) * K <= sum2 (map_2 h t).
Proof.
  unfold sum2, map_2, numel2.
  induction t as [|l t IH]; [simpl; lra|].
  change (INR (length l + list_sum (map (@length cplx) t)) * K
          <= sum1 (map h l) + sum1 (map sum1 (map (map h) t))).
  rewrite plus_INR. pose proof (sum1_lower l). lra.
Qed.

Lemma sum3_lower (t : list (list (list cplx))) :
  INR (numel3 t) * K <= sum3 (map_3 h t).
Proof.
  unfold sum3, map_3, numel3.
  induction t as [|l t IH]; [simpl; lra|].
  change (INR (numel2 l + list_sum (map numel2 t)) * K
          <= sum2 (map_2 h l) + sum1 (map sum2 (map (map (map h)) t))).
  rewrite plus_INR. pose proof (sum2_lower l). lra.
Qed.

End Lower.

Section Upper.
Hypothesis h_le : forall z, h z <= K.

Lemma sum1_upper (l : list cplx) : sum1 (map h l) <= INR (length l) * K.
Proof.
  induction l as [|x l IH]; [simpl; lra|].
  change (h x + sum1 (map h l) <= INR (S (length l)) * K).
  rewrite S_INR. pose proof (h_le x). lra.
Qed.

End Upper.
End Bounds.

Lemma numel2_map2 {A B C} (f : A -> B -> C) (F T : nat)
  (s : list (list A)) (t : list (list B)) :
  tensor2 F T s -> tensor2 F T t -> numel2 (map2_2 f s t) = (F * T)%nat.
Proof.
  unfold numel2, map2_2. intros [Hs Hsr] [Ht Htr]. revert F t Hs Ht Htr.
  induction Hsr as [|a s Ha _ IH]; intros F [|b t] Hs Ht Htr;
    simpl in Hs, Ht; try (rewrite <- Hs in Ht; discriminate);
    [now rewrite <- Hs|].
  inversion Htr as [|? ? Hb Htr']. simpl.
  rewrite map2_length, Ha, Hb, Nat.min_id.
  rewrite (IH (length s) t eq_refl) by (auto; lia). lia.
Qed.

Lemma numel3_map2 {A B C} (f : A -> B -> C) (C' F T : nat)
  (s : list (list (list A))) (t : list (list (list B))) :
  tensor3 C' F T s -> tensor3 C' F T t ->
  numel3 (map2_3 f s t) = (C' * (F * T))%nat.
Proof.
  unfold numel3, map2_3. intros [Hs Hsr] [Ht Htr]. revert C' t Hs Ht Htr.
  induction Hsr as [|a s Ha _ IH]; intros C' [|b t] Hs Ht Htr;
    simpl in Hs, Ht; try (rewrite <- Hs in Ht; discriminate);
    [now rewrite <- Hs|].
  inversion Htr as [|? ? Hb Htr']. simpl.
  fold (map2_2 f a b). rewrite (numel2_map2 f F T) by auto.
  rewrite (IH (length s) t eq_refl) by (auto; lia). lia.
Qed.

Lemma tensor3_perm {A} (C F T : nat) (p s : list (list (list A))) :
  Permutation p s -> tensor3 C F T p -> tensor3 C F T s.
Proof.
  intros Hp [Hl Hr]. split.
  - now rewrite <- (Permutation_length Hp).
  - apply Forall_forall. intros x Hin. rewrite Forall_forall in Hr.
    apply Hr. now apply (Permutation_in _ (Permutation_sym Hp)).
Qed.

Lemma csa_cost_lower (L : Z) (C F T : nat) (s t : list (list (list cplx))) :
  tensor3 C F T s -> tensor3 C F T t ->
  INR (C * (F * T)) * csa_floor L <= csa_cost L s t.
Proof.
  intros Hs Ht. unfold csa_cost.
  rewrite <- (numel3_map2 csub C F T s t Hs Ht).
  apply sum3_lower, csa_dist_floor.
Qed.

Lemma map_3_map2_3_same {A B} (f : A -> A -> B) (t : list (list (list A))) :
  map2_3 f t t = map_3 (fun z => f z z) t.
Proof.
  unfold map2_3, map_3.
  induction t as [|p t IH]; simpl; [reflexivity|]. f_equal; [|exact IH].
  clear. induction p as [|r p IH]; simpl; [reflexivity|]. f_equal; [|exact IH].
  clear. induction r as [|z r IH]; simpl; [reflexivity|]. now f_equal.
Qed.

Lemma numel3_map_3 {A B} (f : A -> B) (t : list (list (list A))) :
  numel3 (map_3 f t) = numel3 t.
Proof.
  unfold numel3, map_3, numel2. rewrite map_map. f_equal.
  apply map_ext; intros p. rewrite map_map. f_equal.
  apply map_ext; intros r. apply length_map.
Qed.

Lemma sum3_const (K : R) (h : cplx -> R) (t : list (list (list cplx))) :
  (forall z, h z = K) -> sum3 (map_3 h t) = INR (numel3 t) * K.
Proof.
  intros H. apply Rle_antisym.
  - unfold sum3, map_3, numel3, sum2, numel2.
    induction t as [|p t IH]; [simpl; lra|].
    change (sum1 (map sum1 (map (map h) p))
            + sum1 (map (fun x => sum1 (map sum1 x)) (map (map (map h)) t))
            <= INR (list_sum (map (@length cplx) p)
                    + list_sum
                        (map (fun x => list_sum (map (@length cplx) x)) t))
               * K).
    rewrite plus_INR, Rmult_plus_distr_r. apply Rplus_le_compat; [|exact IH].
    clear IH. induction p as [|r p IH]; [simpl; lra|].
    change (sum1 (map h r) + sum1 (map sum1 (map (map h) p))
            <= INR (length r + list_sum (map (@length cplx) p)) * K).
    rewrite plus_INR, Rmult_plus_distr_r. apply Rplus_le_compat; [|exact IH].
    apply sum1_upper. intros z. rewrite H. lra.
  - apply sum3_lower. intros z. rewrite H. lra.
Qed.

Lemma numel3_tensor3 {A} (C F T : nat) (t : list (list (list A))) :
  tensor3 C F T t -> numel3 t = (C * (F * T))%nat.
Proof.
  intros Ht. rewrite <- (numel3_map2 (fun a _ => a) C F T t t Ht Ht).
  now rewrite map_3_map2_3_same, numel3_map_3.
Qed.

Lemma csa_cost_exact (L : Z) (C F T : nat) (t : list (list (list cplx))) :
  tensor3 C F T t -> csa_cost L t t = INR (C * (F * T)) * csa_floor L.
Proof.
  intros Ht. unfold csa_cost.
  rewrite map_3_map2_3_same, LossCsa.map_3_map_3.
  rewrite <- (numel3_tensor3 C F T t Ht).
  apply sum3_const. intros z. apply csa_dist_exact.
Qed.

(** A batch whose every ordering of every item costs at least [K] scores
    at least [K] per item; it scores exactly [K] per item when the given
    ordering of every item costs [K]. *)
Lemma sum_min_permutations_floor {E A} (sel : E -> list A)
  (cost : E -> list A -> R) (K : R) (batch : list E) :
  Forall (fun e => sel e <> []
                   /\ forall s, Permutation (sel e) s -> K <= cost e s)
         batch ->
  exists v,
    sum_min_permutations sel cost batch = Ok v
    /\ INR (length batch) * K <= v
    /\ (Forall (fun e => cost e (sel e) = K) batch ->
        v = INR (length batch) * K).
Proof.
  intros H.
  destruct (sum_min_permutations_ok sel cost batch) as [mins [-> HF]].
  { eapply Forall_impl; [|exact H]. now intros e [He _]. }
  exists (Py.sum mins). split; [reflexivity|].
  induction HF as [|e m batch mins [[s [Hp Hs]] Hmin] _ IH].
  - unfold Py.sum; simpl. split; [lra|intros _; lra].
  - apply Forall_cons_iff in H as [[_ He] H'].
    destruct (IH H') as [IH1 IH2].
    rewrite sum_cons.
    change (length (e :: batch)) with (S (length batch)). rewrite S_INR.
    pose proof (He s Hp) as Hlow. split; [lra|].
    intros Hx. apply Forall_cons_iff in Hx as [Hxe Hx'].
    rewrite (IH2 Hx').
    pose proof (Hmin (sel e) (Permutation_refl _)) as Hup.
    rewrite Hxe in Hup. lra.
Qed.

Lemma Forall_zip {A B} (P : A -> Prop) (Q : B -> Prop) (a : list A)
  (b : list B) :
  Forall P a -> Forall Q b ->
  Forall (fun e => P (fst e) /\ Q (snd e)) (Py.zip a b).
Proof.
  intros Ha Hb. apply Forall_forall. intros [x y] Hin. simpl.
  rewrite Forall_forall in Ha, Hb. unfold Py.zip in Hin. split.
  - eapply Ha, in_combine_l, Hin.
  - eapply Hb, in_combine_r, Hin.
Qed.

Lemma Forall_zip_same {A} (a : list A) :
  Forall (fun e => fst e = snd e) (Py.zip a a).
Proof.
  unfold Py.zip. induction a as [|x a IH]; simpl; constructor; auto.
Qed.

Lemma zip_length {A B} (a : list A) (b : list B) :
  length b = length a -> length (Py.zip a b) = length a.
Proof. intros H. unfold Py.zip. rewrite length_combine. lia. Qed.

Lemma tensor2_map2 {A B C} (f : A -> B -> C) (F T : nat)
  (s : list (list A)) (t : list (list B)) :
  tensor2 F T s -> tensor2 F T t -> tensor2 F T (map2_2 f s t).
Proof.
  unfold map2_2. intros [Hs Hsr] [Ht Htr]. split.
  - rewrite map2_length. lia.
  - clear Hs Ht. revert t Htr.
    induction Hsr as [|a s Ha _ IH]; intros [|b t] Htr; simpl;
      constructor.
    + apply Forall_cons_iff in Htr as [Hb _]. rewrite map2_length. lia.
    + apply Forall_cons_iff in Htr as [_ Htr]. now apply IH.
Qed.

Lemma source_pred_shape (C F T : nat) com_pred mixture :
  length mixture = length com_pred ->
  Forall (tensor3 C F T) com_pred -> Forall (tensor2 F T) mixture ->
  length (source_pred com_pred mixture) = length com_pred
  /\ Forall (tensor3 C F T) (source_pred com_pred mixture).
Proof.
  intros Hl Hc Hm. rewrite LossSymmetry.source_pred_channels. split.
  - rewrite map2_length. lia.
  - clear Hl. revert mixture Hm.
    induction Hc as [|c com [Hc1 Hc2] _ IH]; intros [|X mixture] Hm; simpl;
      constructor.
    + apply Forall_cons_iff in Hm as [HX _]. split.
      * now rewrite length_map.
      * apply Forall_map. eapply Forall_impl; [|exact Hc2].
        intros cc Hcc. now apply tensor2_map2.
    + apply Forall_cons_iff in Hm as [_ Hm]. now apply IH.
Qed.

Lemma tensor3_nonempty {A} (C F T : nat) (x : list (list (list A))) :
  C <> O -> tensor3 C F T x -> x <> [].
Proof. intros HC [Hl _] ->. now apply HC. Qed.

(** X3. For a batch of [B] masks and truths of shape (C, F, T) with
    [C >= 1], [loss_csa] of order 1 or 2 returns a value of at least
    [B * C * F * T] times the floor of the distance (1e-6 for [L = 1],
    1e-12 for [L = 2]); an exact prediction, whose truths are the masked
    mixture itself, scores exactly that value and not 0. *)
Theorem loss_csa_floor (C F T : nat) com_pred mixture sources (L : Z) :
  L = 1%Z \/ L = 2%Z ->
  C <> O ->
  length mixture = length com_pred ->
  length sources = length com_pred ->
  Forall (tensor3 C F T) com_pred ->
  Forall (tensor2 F T) mixture ->
  Forall (tensor3 C F T) sources ->
  (exists v,
     loss_csa com_pred mixture sources L = Ok v
     /\ INR (length com_pred) * (INR (C * (F * T)) * csa_floor L) <= v)
  /\ loss_csa com_pred mixture (source_pred com_pred mixture) L
     = Ok (INR (length com_pred) * (INR (C * (F * T)) * csa_floor L)).
Proof.
  intros HL HC Hlm Hls Hc Hm Hs.
  destruct (source_pred_shape C F T com_pred mixture Hlm Hc Hm) as [Hlp Hp].
  assert (Hfloor : forall sources',
    Forall (tensor3 C F T) sources' ->
    Forall (fun e : list (list (list cplx)) * list (list (list cplx)) =>
              fst e <> []
              /\ forall s, Permutation (fst e) s ->
                  INR (C * (F * T)) * csa_floor L <= csa_cost L s (snd e))
           (Py.zip (source_pred com_pred mixture) sources')).
  { intros sources' Hs'. eapply Forall_impl; [|apply (Forall_zip _ _ _ _ Hp Hs')].
    intros [p t]; simpl. intros [Hpe Hte]. split.
    - now apply (tensor3_nonempty C F T).
    - intros s Hperm. apply csa_cost_lower; [|exact Hte].
      now apply (tensor3_perm C F T p). }
  rewrite !LossCsa.loss_csa_eq by exact HL. split.
  - destruct (sum_min_permutations_floor fst
                (fun e st => csa_cost L st (snd e)) _ _ (Hfloor sources Hs))
      as [v [Hv [Hlow _]]].
    exists v; split; [exact Hv|].
    rewrite zip_length in Hlow by lia. now rewrite <- Hlp.
  - destruct (sum_min_permutations_floor fst
                (fun e st => csa_cost L st (snd e)) _ _
                (Hfloor (source_pred com_pred mixture) Hp))
      as [v [Hv [_ Hex]]].
    rewrite Hv, Hex; [now rewrite zip_length, Hlp by reflexivity|].
    eapply Forall_impl;
      [|apply (Forall_and (Forall_zip_same _) (Forall_zip _ _ _ _ Hp Hp))].
    intros [p t]; simpl. intros [<- [Hpe _]].
    now apply (csa_cost_exact L C F T).
Qed.

(** One item of one channel and one bin, with an exact unit mask: the loss
    is the floor, 1e-6. *)
Lemma loss_csa_floor_witness :
  (exists v,
     loss_csa [[[[(1, 0)]]]] [[[(3, 4)]]] [[[[(3, 4)]]]] 1 = Ok v
     /\ INR 1 * (INR (1 * (1 * 1)) * csa_floor 1) <= v)
  /\ loss_csa [[[[(1, 0)]]]] [[[(3, 4)]]]
       (source_pred [[[[(1, 0)]]]] [[[(3, 4)]]]) 1
     = Ok (INR 1 * (INR (1 * (1 * 1)) * csa_floor 1)).
Proof.
  apply (loss_csa_floor 1 1 1 [[[[(1, 0)]]]] [[[(3, 4)]]] [[[[(3, 4)]]]] 1).
  - now left.
  - discriminate.
  - reflexivity.
  - reflexivity.
  - repeat constructor.
  - repeat constructor.
  - repeat constructor.
Defined.

End LossCsaFloor.

(** ** The reference index of [loss_ce_phase] *)

Module LossCePhaseIndex.
Import Torch Losses.

Lemma remainder_range (a m : R) : 0 < m -> 0 <= remainder a m < m.
Proof.
  intros Hm. unfold remainder.
  pose proof (base_Int_part (a / m)) as [H1 H2].
  assert (Ha : a = m * (a / m)) by (field; lra).
  split.
  - rewrite Ha at 1. nra.
  - rewrite Ha at 1. nra.
Qed.

Lemma cos_period_Z (x : R) (n : Z) : cos (x + IZR n * (2 * PI)) = cos x.
Proof.
  destruct (Z_le_gt_dec 0 n) as [Hn|Hn].
  - rewrite <- (cos_period x (Z.to_nat n)).
    rewrite INR_IZR_INZ, Z2Nat.id by exact Hn. f_equal. ring.
  - rewrite <- (cos_period (x + IZR n * (2 * PI)) (Z.to_nat (- n))).
    rewrite INR_IZR_INZ, Z2Nat.id by lia. rewrite opp_IZR. f_equal. ring.
Qed.

Lemma cos_remainder (a : R) : cos (remainder a (2 * PI)) = cos a.
Proof.
  unfold remainder.
  replace (a - 2 * PI * IZR (Int_part (a / (2 * PI))))
    with (a + IZR (- Int_part (a / (2 * PI))) * (2 * PI))
    by (rewrite opp_IZR; ring).
  apply cos_period_Z.
Qed.

(** The smaller of the two remainders is the angle between the two
    directions. *)
Lemma circular_distance_angle (a : R) :
  Rmin (remainder a (2 * PI)) (remainder (- a) (2 * PI)) = angle a.
Proof.
  pose proof PI_RGT_0 as Hpi.
  assert (Hm : 0 < 2 * PI) by lra.
  pose proof (remainder_range a (2 * PI) Hm) as [H1 H1'].
  pose proof (remainder_range (- a) (2 * PI) Hm) as [H2 H2'].
  assert (Hsum : remainder a (2 * PI) + remainder (- a) (2 * PI) <= 2 * PI).
  { assert (Hk : remainder a (2 * PI) + remainder (- a) (2 * PI)
                 = 2 * PI * IZR (- (Int_part (a / (2 * PI))
                                    + Int_part (- a / (2 * PI))))).
    { unfold remainder. rewrite opp_IZR, plus_IZR. ring. }
    set (k := (- (Int_part (a / (2 * PI)) + Int_part (- a / (2 * PI))))%Z)
      in Hk.
    assert (Hlt : IZR k < IZR 2) by nra.
    apply lt_IZR in Hlt.
    assert (Hle : IZR k <= 1) by (apply IZR_le; lia).
    rewrite Hk. nra. }
  unfold angle.
  assert (Hc : cos (Rmin (remainder a (2 * PI)) (remainder (- a) (2 * PI)))
               = cos a).
  { unfold Rmin. destruct (Rle_dec _ _).
    - apply cos_remainder.
    - rewrite cos_remainder. apply cos_neg. }
  rewrite <- Hc. symmetry. apply acos_cos.
  unfold Rmin. destruct (Rle_dec _ _); lra.
Qed.

Lemma circular_distances_angles (phasebook : list R) (th : R) :
  circular_distances phasebook th
  = map (fun pb => angle (pb - th)) phasebook.
Proof.
  unfold circular_distances.
  induction phasebook as [|pb phasebook IH]; simpl; [reflexivity|].
  f_equal; [|exact IH].
  replace (th - pb) with (- (pb - th)) by ring.
  apply circular_distance_angle.
Qed.

(** [argmin_from] continues a scan of [pre ++ l] after [pre]: [best] is
    the first least entry so far. *)
Lemma argmin_from_spec (l pre : list R) (best : nat) :
  (best < length pre)%nat ->
  (forall j, (j < length pre)%nat ->
     nth best pre 0 <= nth j pre 0
     /\ ((j < best)%nat -> nth best pre 0 < nth j pre 0)) ->
  let r := argmin_from best (nth best pre 0) (length pre) l in
  (r < length (pre ++ l))%nat
  /\ forall j, (j < length (pre ++ l))%nat ->
       nth r (pre ++ l) 0 <= nth j (pre ++ l) 0
       /\ ((j < r)%nat -> nth r (pre ++ l) 0 < nth j (pre ++ l) 0).
Proof.
  revert pre best. induction l as [|x l IH]; intros pre best Hb Hpre; simpl.
  - rewrite app_nil_r. split; [exact Hb|exact Hpre].
  - assert (Hlen : length (pre ++ [x]) = S (length pre))
      by (rewrite length_app; simpl; lia).
    assert (Hx : nth (length pre) (pre ++ [x]) 0 = x)
      by (rewrite app_nth2, Nat.sub_diag by lia; reflexivity).
    assert (Hold : forall j, (j < length pre)%nat ->
                     nth j (pre ++ [x]) 0 = nth j pre 0)
      by (intros j Hj; now apply app_nth1).
    replace (pre ++ x :: l) with ((pre ++ [x]) ++ l)
      by (rewrite <- app_assoc; reflexivity).
    destruct (Rlt_dec x (nth best pre 0)) as [Hlt|Hge].
    + specialize (IH (pre ++ [x]) (length pre)).
      rewrite Hlen, Hx in IH. apply IH; [lia|].
      intros j Hj. destruct (Nat.eq_dec j (length pre)) as [->|Hne].
      * rewrite Hx. split; [lra|lia].
      * rewrite Hold by lia.
        destruct (Hpre j ltac:(lia)) as [Hle _]. split; [lra|intros _; lra].
    + specialize (IH (pre ++ [x]) best).
      rewrite Hlen, (Hold best Hb) in IH. apply IH; [lia|].
      intros j Hj. destruct (Nat.eq_dec j (length pre)) as [->|Hne].
      * rewrite Hx. split; [lra|lia].
      * rewrite Hold by lia. apply Hpre. lia.
Qed.

(** [argmin] is the index of the first least entry. *)
Lemma argmin_spec (l : list R) :
  l <> [] ->
  (argmin l < length l)%nat
  /\ forall j, (j < length l)%nat ->
       nth (argmin l) l 0 <= nth j l 0
       /\ ((j < argmin l)%nat -> nth (argmin l) l 0 < nth j l 0).
Proof.
  destruct l as [|x l]; [congruence|]. intros _.
  apply (argmin_from_spec l [x] O); simpl; [lia|].
  intros j Hj. replace j with O by lia. split; [lra|lia].
Qed.

Lemma argmin_nearest (phasebook : list R) (th : R) :
  phasebook <> [] ->
  nearest phasebook th (argmin (circular_distances phasebook th)).
Proof.
  intros Hne. rewrite circular_distances_angles.
  set (f := fun pb => angle (pb - th)).
  assert (Hnth : forall j, (j < length phasebook)%nat ->
                   nth j (map f phasebook) 0 = f (nth j phasebook 0)).
  { intros j Hj. rewrite (nth_indep _ 0 (f 0)) by now rewrite length_map.
    apply map_nth. }
  destruct (argmin_spec (map f phasebook)) as [Hlt Hmin].
  { intros H. apply map_eq_nil in H. contradiction. }
  rewrite length_map in Hlt, Hmin. split; [exact Hlt|].
  intros j Hj. specialize (Hmin j Hj).
  rewrite !Hnth in Hmin by assumption. exact Hmin.
Qed.

(** X4. With a phasebook that is not empty, [loss_ce_phase] scores every
    bin against the first phasebook entry that is nearest to the true phase
    on the circle: the reference index is below the book size, no entry
    makes a smaller angle with the true phase, and every earlier entry
    makes a larger one. *)
Theorem loss_ce_phase_nearest_entry phase_prob_pred phase_true phasebook :
  phasebook <> [] ->
  exists ref : R -> nat,
    (forall th, nearest phasebook th (ref th))
    /\ loss_ce_phase phase_prob_pred phase_true phasebook
       = sum_min_permutations fst (fun e st => ce_cost st (snd e))
           (Py.zip phase_prob_pred (map_4 ref (radians phase_true))).
Proof.
  intros Hne.
  exists (fun th => argmin (circular_distances phasebook th)). split.
  - intros th. now apply argmin_nearest.
  - rewrite LossCePhase.loss_ce_phase_eq. unfold argmin_last.
    destruct phasebook as [|pb phasebook]; [congruence|].
    cbn [length bind]. f_equal. f_equal.
    unfold map_4. rewrite map_map. apply map_ext; intros t3.
    rewrite map_map. apply map_ext; intros t2.
    rewrite map_map. apply map_ext; intros t1. apply map_map.
Qed.

Lemma loss_ce_phase_nearest_entry_witness :
  exists ref : R -> nat,
    (forall th, nearest [0; PI] th (ref th))
    /\ loss_ce_phase [[[[[0; 1]]]]] (Radians [[[[0]]]]) [0; PI]
       = sum_min_permutations fst (fun e st => ce_cost st (snd e))
           (Py.zip [[[[[0; 1]]]]] (map_4 ref (radians (Radians [[[[0]]]])))).
Proof.
  apply (loss_ce_phase_nearest_entry [[[[[0; 1]]]]] (Radians [[[[0]]]])
           [0; PI]).
  discriminate.
Defined.

End LossCePhaseIndex.

(** ** The symmetries of [loss_dc] *)

Module LossDcSymmetry.
Import Torch Losses.

Lemma sum1_perm (l l' : list R) : Permutation l l' -> sum1 l = sum1 l'.
Proof.
  unfold sum1.
  induction 1 as [|x l l' _ IH|x y l|l l' l'' _ IH1 _ IH2]; simpl; lra.
Qed.

Lemma dot_reorder (C : nat) (sigma : list nat) (a b : list R) :
  Permutation sigma (seq 0 C) -> length a = C -> length b = C ->
  dot (reorder sigma a) (reorder sigma b) = dot a b.
Proof.
  intros Hp Ha Hb. rewrite (LossDc.dot_rows C a b Ha Hb).
  unfold dot, reorder. rewrite map2_map_l, map2_map_r, map2_same.
  unfold sum_n. apply sum1_perm. now apply Permutation_map.
Qed.

Lemma gram_reorder (N C : nat) (sigma : list nat) (Y : list (list R)) :
  Permutation sigma (seq 0 C) -> matrix N C Y ->
  gram (map (reorder sigma) Y) = gram Y.
Proof.
  intros Hp [_ Hr]. unfold gram. rewrite map_map.
  rewrite Forall_forall in Hr.
  apply map_ext_in; intros a Ha. rewrite map_map.
  apply map_ext_in; intros b Hb.
  apply (dot_reorder C); auto.
Qed.

Lemma matrix_reorder (N C : nat) (sigma : list nat) (Y : list (list R)) :
  Permutation sigma (seq 0 C) -> matrix N C Y ->
  matrix N C (map (reorder sigma) Y).
Proof.
  intros Hp [Hl Hr]. split; [now rewrite length_map|].
  apply Forall_map, Forall_forall. intros row _. unfold reorder.
  rewrite length_map, (Permutation_length Hp). apply length_seq.
Qed.

Lemma dc_item_sym (N D C : nat) (V Y : list (list R)) :
  matrix N D V -> matrix N C Y -> dc_item V Y = dc_item Y V.
Proof.
  intros HV HY. unfold dc_item.
  rewrite (LossDc.frobenius_cross N D C V Y HV HY).
  rewrite (LossDc.frobenius_cross N C D Y V HY HV).
  rewrite sum_n_exchange.
  assert (H : forall d c,
    sum_n N (fun i => nth d (nth i V []) 0 * nth c (nth i Y []) 0)
    = sum_n N (fun i => nth c (nth i Y []) 0 * nth d (nth i V []) 0)).
  { intros d c. apply sum_n_ext. intros i _. ring. }
  assert (H' :
    sum_n C (fun j => sum_n D (fun i =>
      sum_n N (fun i0 => nth i (nth i0 V []) 0 * nth j (nth i0 Y []) 0) ^ 2))
    = sum_n C (fun c => sum_n D (fun c0 =>
      sum_n N (fun i => nth c (nth i Y []) 0 * nth c0 (nth i V []) 0) ^ 2))).
  { apply sum_n_ext; intros c _. apply sum_n_ext; intros d _.
    now rewrite H. }
  rewrite H'. ring.
Qed.

(** X5. For embeddings and labels of matching shapes, [loss_dc] does not
    depend on the order of the label channels (the columns of every label
    matrix), and it is symmetric in its two arguments. *)
Theorem loss_dc_symmetries (C : nat) (sigma : list nat)
  (embd label : list (list (list R))) :
  Forall2 (fun V Y => exists N D, matrix N D V /\ matrix N C Y)
          embd label ->
  Permutation sigma (seq 0 C) ->
  loss_dc embd (map_2 (reorder sigma) label) = loss_dc embd label
  /\ loss_dc label embd = loss_dc embd label.
Proof.
  intros Hs Hp.
  assert (Hl : length embd = length label)
    by (eapply Forall2_length; eassumption).
  rewrite !LossDc.loss_dc_items
    by (unfold map_2; rewrite ?length_map; congruence).
  unfold map_2. rewrite map2_map_r. split; f_equal.
  - induction Hs as [|V Y embd label [N [D [HV HY]]] Hs IH];
      [reflexivity|]. simpl. f_equal.
    + rewrite (LossDc.dc_item_affinity N D C V Y HV HY).
      rewrite (LossDc.dc_item_affinity N D C V _ HV
                 (matrix_reorder N C sigma Y Hp HY)).
      unfold affinity_distance. now rewrite (gram_reorder N C).
    + apply IH. now injection Hl.
  - clear Hl. induction Hs as [|V Y embd label [N [D [HV HY]]] Hs IH];
      [reflexivity|]. simpl. f_equal; [|exact IH].
    symmetry. now apply (dc_item_sym N D C).
Qed.

Lemma loss_dc_symmetries_witness :
  loss_dc [[[1; 0]; [0; 1]]]
    (map_2 (reorder [1; 0]%nat) [[[1; 0]; [0; 1]]])
  = loss_dc [[[1; 0]; [0; 1]]] [[[1; 0]; [0; 1]]]
  /\ loss_dc [[[1; 0]; [0; 1]]] [[[1; 0]; [0; 1]]]
     = loss_dc [[[1; 0]; [0; 1]]] [[[1; 0]; [0; 1]]].
Proof.
  apply (loss_dc_symmetries 2 [1; 0]%nat).
  - constructor; [|constructor]. exists 2%nat, 2%nat.
    split; (split; [reflexivity|repeat constructor]).
  - apply perm_swap.
Defined.

End LossDcSymmetry.

(** ** The waveforms that a MISI step transforms *)

Module MisiConsistency.
Import Torch Submodels.

(** [shat + delta.repeat_interleave(n_channels, 0)] *)
Lemma corrected_sums (mixture shat : list wave) (C : nat) :
  let B := length mixture in
  let W := length (hd [] mixture) in
  Forall (fun row => length row = W) mixture ->
  Forall (fun row => length row = W) shat ->
  length shat = (B * C)%nat ->
  sums_to_mixture C mixture
    (map2_2 Rplus shat
       (repeat_interleave C
          (map2_2 Rminus mixture
             (map_2 (fun v => v / INR C)
                (map (sum_channels W) (chunks B C shat)))))).
Proof.
  intros B W Hmix Hshat Hlen.
  set (delta := map2_2 Rminus mixture _).
  assert (Hdl : length delta = B).
  { unfold delta, map2_2, map_2.
    rewrite map2_length, !length_map, MisiDelta.chunks_length.
    apply Nat.min_id. }
  split.
  - unfold map2_2.
    rewrite map2_length, MisiDelta.repeat_interleave_length, Hdl, Hlen.
    apply Nat.min_id.
  - intros b i Hb Hi. fold B in Hb. fold W in Hi.
    assert (Hd : nth i (nth b delta []) 0
                 = nth i (nth b mixture []) 0
                   - sum_n C (fun c => nth i (nth (b * C + c) shat []) 0)
                     / INR C)
      by (apply MisiDelta.delta_entry; assumption).
    assert (Hdrow : length (nth b delta []) = W).
    { unfold delta, map2_2, map_2.
      rewrite (MisiDelta.nth_map2 (map2 Rminus) mixture _ b [] [] []);
        [|exact Hb
         |now rewrite !length_map, MisiDelta.chunks_length].
      rewrite map2_length.
      rewrite (MisiDelta.nth_map_lt _ _ b [])
        by now rewrite length_map, MisiDelta.chunks_length.
      rewrite (MisiDelta.nth_map_lt _ _ b [])
        by now rewrite MisiDelta.chunks_length.
      rewrite length_map, MisiDelta.sum_channels_length.
      - rewrite Forall_forall in Hmix.
        rewrite (Hmix (nth b mixture [])) by (apply nth_In; exact Hb).
        apply Nat.min_id.
      - rewrite MisiDelta.nth_chunks by exact Hb.
        now apply MisiDelta.Forall_chunk. }
    unfold channels_sum.
    rewrite (sum_n_ext C _
               (fun c => nth i (nth (b * C + c) shat []) 0
                         + nth i (nth b delta []) 0)).
    + rewrite sum_n_plus, Hd.
      set (s := sum_n C (fun c => nth i (nth (b * C + c) shat []) 0)).
      assert (Hconst : forall n (v : R), sum_n n (fun _ => v) = INR n * v).
      { intros n v. induction n as [|n IH]; [unfold sum_n; simpl; lra|].
        rewrite sum_n_S, IH, S_INR. ring. }
      rewrite Hconst.
      destruct C as [|C']; [unfold s, sum_n; simpl; lra|].
      field. apply not_0_INR. discriminate.
    + intros c Hc. unfold map2_2.
      assert (Hk : (b * C + c < length shat)%nat) by (rewrite Hlen; nia).
      rewrite (MisiDelta.nth_map2 (map2 Rplus) shat _ (b * C + c) [] [] []);
        [|exact Hk
         |rewrite MisiDelta.repeat_interleave_length, Hdl; fold B; nia].
      rewrite MisiDelta.nth_repeat_interleave;
        [|rewrite Hdl; exact Hb|exact Hc].
      apply MisiDelta.nth_map2.
      * rewrite Forall_forall in Hshat.
        rewrite (Hshat (nth (b * C + c) shat [])) by (now apply nth_In).
        exact Hi.
      * now rewrite Hdrow.
Qed.

Lemma TrainableMisiLayer_tmp_inv (self : TrainableMisiLayer)
  (Shat : list (list (list R))) (mixture : list wave)
  (tmp : list (list (list R))) :
  TrainableMisiLayer_tmp self Shat mixture = Ok tmp ->
  let C := (length Shat / length mixture)%nat in
  let shat := map (TrainableIstftLayer_forward (istft_layer self)) Shat in
  length shat = (length mixture * C)%nat
  /\ Forall (fun row => length row = length (hd [] mixture)) shat
  /\ tmp = map (TrainableStftLayer_forward (stft_layer self))
             (map2_2 Rplus shat
                (repeat_interleave C
                   (map2_2 Rminus mixture
                      (map_2 (fun v => v / INR C)
                         (map (sum_channels (length (hd [] mixture)))
                              (chunks (length mixture) C shat)))))).
Proof.
  unfold TrainableMisiLayer_tmp, Py.floordiv.
  destruct (length mixture) as [|B] eqn:HB; simpl; [discriminate|].
  destruct (reshape _ _ _ _) as [g|e] eqn:Hr; simpl; [|discriminate].
  apply MisiDelta.reshape_ok in Hr as [-> [Hlen Hrows]].
  intros [= <-]. repeat split; auto.
Qed.

Section Transforms.
Variable torch_stft : nat -> nat -> nat -> wave -> spec.
Variable torchaudio_istft : nat -> nat -> nat -> spec -> wave.

(** X6. Whenever a MISI step succeeds on a mixture of rows of one length,
    the waveforms it transforms (the re-synthesised channels with the
    correction [delta] added) sum, over the [C] channels of every batch
    item and at every sample, to [C] times the mixture; this holds for
    [MisiLayer] and for [TrainableMisiLayer]. *)
Theorem misi_corrected_channels_sum (mixture : list wave) :
  Forall (fun row => length row = length (hd [] mixture)) mixture ->
  (forall (self : MisiLayer) (Shat tmp : list spec),
     MisiLayer_tmp torch_stft torchaudio_istft self Shat mixture = Ok tmp ->
     exists x,
       tmp = map (torch_stft (n_fft self) (hop_length self)
                    (win_length self)) x
       /\ sums_to_mixture (length Shat / length mixture) mixture x)
  /\ (forall (self : TrainableMisiLayer) (Shat tmp : list (list (list R))),
        TrainableMisiLayer_tmp self Shat mixture = Ok tmp ->
        exists x,
          tmp = map (TrainableStftLayer_forward (stft_layer self)) x
          /\ sums_to_mixture (length Shat / length mixture) mixture x).
Proof.
  intros Hmix. split.
  - intros self Shat tmp. unfold MisiLayer_tmp.
    destruct (MisiLayer_delta _ _ _ _) as [[[C shat] delta]|e] eqn:Hd;
      simpl; [|discriminate].
    intros [= <-].
    apply MisiDelta.MisiLayer_delta_inv
      in Hd as [HB [HC [Hshat [Hlen [Hrows Hdelta]]]]].
    eexists; split; [reflexivity|].
    rewrite <- HC, Hdelta. now apply corrected_sums.
  - intros self Shat tmp Ht.
    apply TrainableMisiLayer_tmp_inv in Ht as [Hlen [Hrows ->]].
    eexists; split; [reflexivity|]. now apply corrected_sums.
Qed.

End Transforms.

Lemma misi_corrected_channels_sum_witness :
  let istft := fun (_ _ _ : nat) (S : spec) => map fst (hd [] S) in
  let stft := fun (_ _ _ : nat) (x : wave) => [map (fun v => (v, 0)) x] in
  let delta := [[10 - (1 + (3 + 0)) / INR 2; 20 - (2 + (4 + 0)) / INR 2]] in
  exists x,
    map (stft 4 1 4)%nat
      (map2_2 Rplus [[1; 2]; [3; 4]] (repeat_interleave 2 delta))
    = map (stft 4 1 4)%nat x
    /\ sums_to_mixture (2 / 1) [[10; 20]] x.
Proof.
  intros istft stft delta.
  apply (proj1 (misi_corrected_channels_sum stft istft [[10; 20]]
                  ltac:(repeat constructor))
           {| n_fft := 4; hop_length := 1; win_length := 4 |}
           [[[(1, 0); (2, 0)]]; [[(3, 0); (4, 0)]]]).
  reflexivity.
Defined.

End MisiConsistency.

(** ** The index of [DSD100] *)

Module DatasetIndex.
Import Datasets.

Lemma midpoint (lo hi : nat) :
  (lo < hi)%nat -> (lo <= (lo + hi) / 2 < hi)%nat.
Proof.
  intros H. pose proof (Nat.div_mod_eq (lo + hi) 2).
  pose proof (Nat.mod_upper_bound (lo + hi) 2). lia.
Qed.

(** The loop keeps: entries before [lo] are at most [x], entries from [hi]
    on are above [x]. *)
Lemma bisect_loop_spec (turns : nat) (a : list Z) (x : Z) (lo hi : nat) :
  sorted a ->
  (lo <= hi <= length a)%nat ->
  (hi - lo <= turns)%nat ->
  (forall i, (i < lo)%nat -> (nth i a 0 <= x)%Z) ->
  (forall i, (hi <= i < length a)%nat -> (x < nth i a 0)%Z) ->
  let r := bisect_loop turns a x lo hi in
  (r <= length a)%nat
  /\ (forall i, (i < r)%nat -> (nth i a 0 <= x)%Z)
  /\ (forall i, (r <= i < length a)%nat -> (x < nth i a 0)%Z).
Proof.
  intros Hs. revert lo hi.
  induction turns as [|turns IH]; intros lo hi Hb Ht Hlo Hhi;
    cbn [bisect_loop]; cbv zeta.
  - assert (lo = hi) by lia. subst hi.
    split; [lia|]. split; [exact Hlo|exact Hhi].
  - destruct (Nat.ltb_spec lo hi) as [Hlt|Hge].
    + pose proof (midpoint lo hi Hlt) as Hmid.
      destruct (Z.ltb_spec x (nth ((lo + hi) / 2)%nat a 0%Z)) as [Hx|Hx].
      * apply IH; [lia|lia|exact Hlo|].
        intros i Hi. pose proof (Hs ((lo + hi) / 2)%nat i ltac:(lia)). lia.
      * apply IH; [lia|lia| |exact Hhi].
        intros i Hi. pose proof (Hs i ((lo + hi) / 2)%nat ltac:(lia)). lia.
    + assert (lo = hi) by lia. subst hi.
      split; [lia|]. split; [exact Hlo|exact Hhi].
Qed.

(** [bisect] returns the one position that splits a sorted list at [x]. *)
Lemma bisect_unique (a : list Z) (x : Z) (r : nat) :
  sorted a ->
  (r <= length a)%nat ->
  (forall i, (i < r)%nat -> (nth i a 0 <= x)%Z) ->
  (forall i, (r <= i < length a)%nat -> (x < nth i a 0)%Z) ->
  bisect a x = r.
Proof.
  intros Hs Hr Hlo Hhi. unfold bisect.
  destruct (bisect_loop_spec (length a) a x 0 (length a) Hs)
    as [Hr' [Hlo' Hhi']]; try lia.
  set (r' := bisect_loop (length a) a x 0 (length a)) in *.
  destruct (Nat.lt_trichotomy r' r) as [Hlt|[Heq|Hgt]]; [|exact Heq|].
  - pose proof (Hlo r' Hlt). pose proof (Hhi' r' ltac:(lia)). lia.
  - pose proof (Hlo' r Hgt). pose proof (Hhi r ltac:(lia)). lia.
Qed.

Lemma running_length (s : Z) (l : list Z) :
  length (running s l) = length l.
Proof. revert s; induction l as [|x l IH]; intros s; simpl; auto. Qed.

Lemma running_step (l : list Z) (s : Z) (k : nat) :
  (k < length l)%nat ->
  nth (S k) (s :: running s l) 0%Z
  = (nth k (s :: running s l) 0 + nth k l 0)%Z.
Proof.
  revert s k; induction l as [|x l IH]; intros s k Hk; simpl in Hk; [lia|].
  destruct k as [|k]; [reflexivity|].
  change (nth (S k) ((s + x)%Z :: running (s + x) l) 0%Z
          = (nth k ((s + x)%Z :: running (s + x) l) 0 + nth k l 0)%Z).
  apply IH. lia.
Qed.

Lemma running_sorted (l : list Z) (s : Z) :
  Forall (fun x => (0 <= x)%Z) l -> sorted (s :: running s l).
Proof.
  intros Hl i j [Hij Hj]. simpl in Hj. rewrite running_length in Hj.
  induction j as [|j IH].
  - replace i with O by lia. lia.
  - destruct (Nat.eq_dec i (S j)) as [->|Hne]; [lia|].
    rewrite running_step by lia.
    assert (0 <= nth j l 0)%Z.
    { rewrite Forall_forall in Hl. apply Hl, nth_In. lia. }
    specialize (IH ltac:(lia) ltac:(lia)). lia.
Qed.

Lemma getitem_nth {A} (l : list A) (i : nat) (d : A) :
  (i < length l)%nat -> getitem l (Z.of_nat i) = Return (nth i l d).
Proof.
  intros Hi. unfold getitem.
  destruct (Z.ltb_spec (Z.of_nat i) 0) as [H|_]; [lia|].
  destruct (Z.ltb_spec (Z.of_nat i) 0) as [H|_]; [lia|].
  rewrite Nat2Z.id. now rewrite (nth_error_nth' l d Hi).
Qed.

Lemma getitem_out {A} (l : list A) (i : nat) :
  (length l <= i)%nat -> getitem l (Z.of_nat i) = Throw IndexError.
Proof.
  intros Hi. unfold getitem.
  destruct (Z.ltb_spec (Z.of_nat i) 0) as [H|_]; [lia|].
  destruct (Z.ltb_spec (Z.of_nat i) 0) as [H|_]; [lia|].
  rewrite Nat2Z.id. apply nth_error_None in Hi. now rewrite Hi.
Qed.

Lemma getitem_last {A} (l : list A) (d : A) :
  l <> [] -> getitem l (-1) = Return (nth (length l - 1) l d).
Proof.
  intros Hl. unfold getitem.
  assert (0 < length l)%nat by (destruct l; simpl; [congruence|lia]).
  change (-1 <? 0)%Z with true. cbv iota.
  destruct (Z.ltb_spec (-1 + Z.of_nat (length l)) 0) as [Hn|_]; [lia|].
  replace (Z.to_nat (-1 + Z.of_nat (length l))) with (length l - 1)%nat
    by lia.
  now rewrite (nth_error_nth' l d) by lia.
Qed.

Section Files.
Variable dir : Type.
Variable source : Type.
Variable torchaudio_info : dir -> signalinfo.
Variable torchaudio_load : dir -> source -> Z -> Z -> outcome (list (list R)).

Lemma scan_from (wl : Z) (dirs : list dir) (offs rates : list Z) :
  wl <> 0%Z ->
  Forall (fun d => si_channels (torchaudio_info d) <> 0%Z) dirs ->
  fold_left
    (fun acc d =>
       and_then acc (fun st =>
         let '(offsets, rates) := st in
         let si := torchaudio_info d in
         if (si_channels si =? 0)%Z then Throw (Builtin ZeroDivisionError)
         else if (wl =? 0)%Z then Throw (Builtin ZeroDivisionError)
         else Return
                (offsets
                   ++ [(last offsets 0
                        + ceil_div (si_length si) (si_channels si * wl))%Z],
                 rates ++ [si_rate si])))
    dirs (Return (offs, rates))
  = Return (offs
              ++ running (last offs 0%Z)
                   (map (fun d => segments wl (torchaudio_info d)) dirs),
            rates ++ map (fun d => si_rate (torchaudio_info d)) dirs).
Proof.
  intros Hwl Hc. set (f := fun acc d => and_then acc _). revert offs rates.
  induction Hc as [|d dirs Hd _ IH]; intros offs rates; cbn [fold_left map].
  - now rewrite !app_nil_r.
  - assert (Hstep : f (Return (offs, rates)) d
                    = Return
                        (offs ++ [(last offs 0
                                   + segments wl (torchaudio_info d))%Z],
                         rates ++ [si_rate (torchaudio_info d)])).
    { unfold f. cbn [and_then]. apply Z.eqb_neq in Hd, Hwl.
      now rewrite Hd, Hwl. }
    rewrite Hstep, IH. cbn [running].
    rewrite last_last, <- !app_assoc. reflexivity.
Qed.

Lemma DSD100_init_inv (dirs : list dir) (wl : Z) (srcs : list source) tr
  (self : DSD100 dir source) :
  (0 < wl)%Z ->
  Forall (fun d => well_formed (torchaudio_info d)) dirs ->
  DSD100_init torchaudio_info dirs wl srcs tr = Return self ->
  offsets self
  = 0%Z :: running 0 (map (fun d => segments wl (torchaudio_info d)) dirs)
  /\ rates self = map (fun d => si_rate (torchaudio_info d)) dirs
  /\ source_dirs self = dirs
  /\ sources self = srcs
  /\ waveform_length self = wl.
Proof.
  intros Hwl Hw. unfold DSD100_init, DSD100_scan.
  rewrite scan_from; [|lia|].
  - simpl. intros [= <-]. simpl. auto.
  - eapply Forall_impl; [|exact Hw]. intros d [_ H]. lia.
Qed.

Lemma segments_nonneg (wl : Z) (si : signalinfo) :
  (0 < wl)%Z -> well_formed si -> (0 <= segments wl si)%Z.
Proof.
  intros Hwl [Hl Hc]. unfold segments, ceil_div.
  assert (Hb : (0 < si_channels si * wl)%Z) by nia.
  apply Z.opp_nonneg_nonpos. apply Z.div_le_upper_bound; lia.
Qed.

(** A segment below the number of segments starts inside the file. *)
Lemma segment_starts_inside (wl : Z) (si : signalinfo) (k : Z) :
  (0 < wl)%Z -> well_formed si -> (k < segments wl si)%Z ->
  (k * wl * si_channels si < si_length si)%Z.
Proof.
  intros Hwl [Hl Hc]. unfold segments, ceil_div. intros Hk.
  assert (Hb : (0 < si_channels si * wl)%Z) by nia.
  pose proof (Z.div_mod (- si_length si) (si_channels si * wl) ltac:(lia))
    as Hdm.
  pose proof (Z.mod_pos_bound (- si_length si) _ Hb) as Hm.
  set (q := (- si_length si / (si_channels si * wl))%Z) in *.
  set (r := ((- si_length si) mod (si_channels si * wl))%Z) in *.
  set (b := (si_channels si * wl)%Z) in *.
  replace (k * wl * si_channels si)%Z with (k * b)%Z by (unfold b; ring).
  assert (H1 : (k + 1 <= - q)%Z) by lia.
  assert (H2 : ((k + 1) * b <= (- q) * b)%Z)
    by (apply Z.mul_le_mono_nonneg_r; lia).
  lia.
Qed.

Lemma running_total (l : list Z) (s : Z) :
  nth (length l) (s :: running s l) 0%Z = (s + fold_right Z.add 0 l)%Z.
Proof.
  revert s; induction l as [|x l IH]; intros s; simpl; [lia|].
  change (nth (length l) ((s + x)%Z :: running (s + x) l) 0%Z
          = (s + (x + fold_right Z.add 0 l))%Z).
  rewrite IH. lia.
Qed.

Section Index.
Variable dirs : list dir.
Variable wl : Z.
Hypothesis wl_pos : (0 < wl)%Z.
Hypothesis dirs_ok : Forall (fun d => well_formed (torchaudio_info d)) dirs.

Let segs := map (fun d => segments wl (torchaudio_info d)) dirs.
Let offs := 0%Z :: running 0%Z segs.

Lemma segs_nonneg : Forall (fun x => (0 <= x)%Z) segs.
Proof.
  unfold segs. apply Forall_map. eapply Forall_impl; [|exact dirs_ok].
  intros d Hd. now apply segments_nonneg.
Qed.

Lemma offsets_length : length offs = S (length dirs).
Proof. unfold offs, segs. simpl. now rewrite running_length, length_map. Qed.

Lemma offsets_sorted : sorted offs.
Proof. apply running_sorted, segs_nonneg. Qed.

Lemma offsets_step (a : nat) (d : dir) :
  nth_error dirs a = Some d ->
  nth (S a) offs 0%Z = (nth a offs 0 + segments wl (torchaudio_info d))%Z.
Proof.
  intros Hd. unfold offs.
  assert (Ha : (a < length dirs)%nat)
    by (apply nth_error_Some; congruence).
  rewrite running_step by (unfold segs; now rewrite length_map).
  f_equal. unfold segs.
  apply nth_error_nth. rewrite nth_error_map, Hd. reflexivity.
Qed.

Lemma bisect_inside (a : nat) (d : dir) (k : Z) :
  nth_error dirs a = Some d ->
  (0 <= k < segments wl (torchaudio_info d))%Z ->
  bisect offs (nth a offs 0 + k)%Z = S a.
Proof.
  intros Hd Hk.
  assert (Ha : (a < length dirs)%nat)
    by (apply nth_error_Some; congruence).
  pose proof offsets_length as Hl. pose proof offsets_sorted as Hs.
  apply bisect_unique; [exact Hs|lia| |].
  - intros i Hi. pose proof (Hs i a ltac:(lia)). lia.
  - intros i Hi. pose proof (Hs (S a) i ltac:(lia)).
    rewrite (offsets_step a d Hd) in *. lia.
Qed.

Lemma bisect_above (idx : Z) :
  (nth (length dirs) offs 0 <= idx)%Z -> bisect offs idx = S (length dirs).
Proof.
  intros Hidx. pose proof offsets_length as Hl.
  pose proof offsets_sorted as Hs.
  apply bisect_unique; [exact Hs|lia| |].
  - intros i Hi. pose proof (Hs i (length dirs) ltac:(lia)). lia.
  - intros i Hi. lia.
Qed.

Lemma bisect_below (idx : Z) : (idx < 0)%Z -> bisect offs idx = 0%nat.
Proof.
  intros Hidx. pose proof offsets_length as Hl.
  pose proof offsets_sorted as Hs.
  apply bisect_unique; [exact Hs|lia| |].
  - intros i Hi. lia.
  - intros i Hi. pose proof (Hs 0%nat i ltac:(lia)).
    change (nth 0 offs 0%Z) with 0%Z in *. lia.
Qed.

Lemma locate (idx : Z) :
  (0 <= idx < nth (length dirs) offs 0)%Z ->
  exists a d,
    nth_error dirs a = Some d
    /\ (nth a offs 0 <= idx < nth a offs 0 + segments wl (torchaudio_info d))%Z.
Proof.
  intros Hidx. pose proof offsets_length as Hl.
  pose proof offsets_sorted as Hs.
  destruct (bisect_loop_spec (length offs) offs idx 0 (length offs) Hs)
    as [Hr [Hlo Hhi]]; try lia.
  fold (bisect offs idx) in Hr, Hlo, Hhi.
  set (r := bisect offs idx) in *.
  assert (Hr1 : (1 <= r)%nat).
  { destruct r as [|r']; [|lia].
    pose proof (Hhi 0%nat ltac:(lia)) as H0.
    change (nth 0 offs 0%Z) with 0%Z in H0. lia. }
  assert (Hr2 : (r <= length dirs)%nat).
  { destruct (Nat.le_gt_cases r (length dirs)) as [H|H]; [exact H|].
    pose proof (Hlo (length dirs) ltac:(lia)). lia. }
  destruct (nth_error dirs (r - 1)) as [d|] eqn:Hd;
    [|apply nth_error_None in Hd; lia].
  exists (r - 1)%nat, d. split; [exact Hd|].
  pose proof (offsets_step (r - 1) d Hd) as Hstep.
  replace (S (r - 1)) with r in Hstep by lia.
  rewrite <- Hstep. split.
  - apply Hlo. lia.
  - apply Hhi. lia.
Qed.

Lemma len_total (total : Z) :
  getitem offs (-1) = Return total -> nth (length dirs) offs 0%Z = total.
Proof.
  intros H. rewrite (getitem_last _ 0%Z) in H by discriminate.
  rewrite offsets_length in H.
  replace (S (length dirs) - 1)%nat with (length dirs) in H by lia.
  congruence.
Qed.

End Index.

(** X7. In a [DSD100] built from files of non-negative length and
    positive channel count with a positive [waveform_length], every index
    [0 <= idx < len] is served by one segment [k] of one directory [a]:
    [k] is below the number of segments of the file, the segment starts
    inside the file, and [idx = offsets[a] + k]; conversely every segment
    of every directory is the item of that index, and of no other. *)
Theorem dsd100_index_segments (dirs : list dir) (wl : Z)
  (srcs : list source) tr (self : DSD100 dir source) (total : Z) :
  (0 < wl)%Z ->
  Forall (fun d => well_formed (torchaudio_info d)) dirs ->
  DSD100_init torchaudio_info dirs wl srcs tr = Return self ->
  DSD100_len self = Return total ->
  (forall idx, (0 <= idx < total)%Z ->
     exists a d k,
       nth_error dirs a = Some d
       /\ (0 <= k < segments wl (torchaudio_info d))%Z
       /\ (k * wl * si_channels (torchaudio_info d)
           < si_length (torchaudio_info d))%Z
       /\ idx = (nth a (offsets self) 0 + k)%Z
       /\ _get_single_item torchaudio_load self idx
          = DSD100_segment torchaudio_load self (Z.of_nat a) k)
  /\ (forall a d k,
        nth_error dirs a = Some d ->
        (0 <= k < segments wl (torchaudio_info d))%Z ->
        (0 <= nth a (offsets self) 0 + k < total)%Z
        /\ _get_single_item torchaudio_load self
             (nth a (offsets self) 0 + k)%Z
           = DSD100_segment torchaudio_load self (Z.of_nat a) k)
  /\ (forall a d k a' d' k',
        nth_error dirs a = Some d ->
        (0 <= k < segments wl (torchaudio_info d))%Z ->
        nth_error dirs a' = Some d' ->
        (0 <= k' < segments wl (torchaudio_info d'))%Z ->
        (nth a (offsets self) 0 + k = nth a' (offsets self) 0 + k')%Z ->
        a = a' /\ k = k').
Proof.
  intros Hwl Hok Hinit Hlen.
  destruct (DSD100_init_inv dirs wl srcs tr self Hwl Hok Hinit)
    as [Hoff _].
  pose proof (offsets_length dirs wl) as Hl.
  pose proof (offsets_sorted dirs wl Hwl Hok) as Hs.
  unfold DSD100_len in Hlen. rewrite Hoff in Hlen.
  apply len_total in Hlen. rename Hlen into Htotal.
  assert (Hitem : forall a d k,
    nth_error dirs a = Some d ->
    (0 <= k < segments wl (torchaudio_info d))%Z ->
    _get_single_item torchaudio_load self (nth a (offsets self) 0 + k)%Z
    = DSD100_segment torchaudio_load self (Z.of_nat a) k).
  { intros a d k Hd Hk. unfold _get_single_item. rewrite Hoff.
    rewrite (bisect_inside dirs wl Hwl Hok a d k Hd Hk).
    replace (Z.of_nat (S a) - 1)%Z with (Z.of_nat a) by lia.
    assert (Ha : (a < length dirs)%nat)
      by (apply nth_error_Some; congruence).
    rewrite (getitem_nth _ a 0%Z) by lia. cbn [and_then].
    f_equal. lia. }
  split; [|split].
  - intros idx Hidx. rewrite <- Htotal in Hidx.
    destruct (locate dirs wl Hwl Hok idx Hidx) as [a [d [Hd Hk]]].
    exists a, d, (idx - nth a (offsets self) 0)%Z.
    assert (Hk' : (0 <= idx - nth a (offsets self) 0
                   < segments wl (torchaudio_info d))%Z)
      by (rewrite Hoff; lia).
    split; [exact Hd|]. split; [exact Hk'|]. split.
    + apply segment_starts_inside; [exact Hwl| |lia].
      rewrite Forall_forall in Hok. eapply Hok, nth_error_In, Hd.
    + split; [lia|].
      rewrite <- (Hitem a d _ Hd Hk'). f_equal. lia.
  - intros a d k Hd Hk. split; [|exact (Hitem a d k Hd Hk)].
    assert (Ha : (a < length dirs)%nat)
      by (apply nth_error_Some; congruence).
    rewrite Hoff, <- Htotal.
    pose proof (Hs 0%nat a ltac:(lia)) as H0.
    pose proof (Hs (S a) (length dirs) ltac:(lia)) as H1.
    rewrite (offsets_step dirs wl a d Hd) in H1.
    change (nth 0 (0%Z :: _) 0%Z) with 0%Z in H0. lia.
  - intros a d k a' d' k' Hd Hk Hd' Hk'. rewrite Hoff. intros Heq.
    pose proof (bisect_inside dirs wl Hwl Hok a d k Hd Hk) as Hb.
    pose proof (bisect_inside dirs wl Hwl Hok a' d' k' Hd' Hk') as Hb'.
    rewrite Heq in Hb. rewrite Hb in Hb'. injection Hb' as ->.
    split; [reflexivity|lia].
Qed.

(** X8. In such a [DSD100] whose list of sources is not empty, an index
    at or past the length is an [IndexError]; a negative index is not
    taken from the end: it asks for segment [idx - len] of the last
    directory; and the length is the sum of the numbers of segments of
    the files. *)
Theorem dsd100_index_out_of_range (dirs : list dir) (wl : Z)
  (srcs : list source) tr (self : DSD100 dir source) (total : Z) :
  (0 < wl)%Z ->
  Forall (fun d => well_formed (torchaudio_info d)) dirs ->
  DSD100_init torchaudio_info dirs wl srcs tr = Return self ->
  DSD100_len self = Return total ->
  (forall idx, (total <= idx)%Z -> srcs <> [] ->
     _get_single_item torchaudio_load self idx = Throw IndexError)
  /\ (forall idx, (idx < 0)%Z ->
        _get_single_item torchaudio_load self idx
        = DSD100_segment torchaudio_load self (-1) (idx - total))
  /\ total
     = fold_right Z.add 0%Z
         (map (fun d => segments wl (torchaudio_info d)) dirs).
Proof.
  intros Hwl Hok Hinit Hlen.
  destruct (DSD100_init_inv dirs wl srcs tr self Hwl Hok Hinit)
    as [Hoff [_ [Hdirs [Hsrcs _]]]].
  pose proof (offsets_length dirs wl) as Hl.
  assert (Hlen' := Hlen).
  unfold DSD100_len in Hlen. rewrite Hoff in Hlen.
  apply len_total in Hlen. rename Hlen into Htotal.
  split; [|split].
  - intros idx Hidx Hne. unfold _get_single_item. rewrite Hoff.
    rewrite (bisect_above dirs wl Hwl Hok idx) by lia.
    replace (Z.of_nat (S (length dirs)) - 1)%Z
      with (Z.of_nat (length dirs)) by lia.
    rewrite (getitem_nth _ (length dirs) 0%Z) by lia. cbn [and_then].
    unfold DSD100_segment. rewrite Hsrcs, Hdirs.
    destruct srcs as [|s srcs']; [congruence|].
    cbn [map gather]. now rewrite getitem_out by lia.
  - intros idx Hidx. unfold _get_single_item.
    rewrite Hoff. rewrite (bisect_below dirs wl Hwl Hok idx Hidx).
    change (Z.of_nat 0 - 1)%Z with (-1)%Z.
    unfold DSD100_len in Hlen'. rewrite Hoff in Hlen'. now rewrite Hlen'.
  - rewrite <- Htotal.
    rewrite <- (length_map (fun d => segments wl (torchaudio_info d)) dirs).
    now rewrite running_total.
Qed.

End Files.

Lemma dsd100_index_segments_witness :
  let info := fun _ : nat =>
    {| si_length := 10; si_channels := 2; si_rate := 8000 |} in
  let load := fun (_ _ : nat) (_ _ : Z) => Return [[0]] in
  let self :=
    {| sources := [0%nat]; waveform_length := 2%Z; offsets := [0%Z; 3%Z];
       rates := [8000%Z]; source_dirs := [0%nat]; transform := None |} in
  exists a d k,
    nth_error [0%nat] a = Some d
    /\ (0 <= k < segments 2 (info d))%Z
    /\ (k * 2 * si_channels (info d) < si_length (info d))%Z
    /\ 1%Z = (nth a (offsets self) 0 + k)%Z
    /\ _get_single_item load self 1
       = DSD100_segment load self (Z.of_nat a) k.
Proof.
  intros info load self.
  apply (proj1 (dsd100_index_segments nat nat info load [0%nat] 2
                  [0%nat] None self 3 ltac:(lia)
                  ltac:(repeat constructor; simpl; lia) eq_refl eq_refl)).
  lia.
Defined.

Lemma dsd100_index_out_of_range_witness :
  let info := fun _ : nat =>
    {| si_length := 10; si_channels := 2; si_rate := 8000 |} in
  let load := fun (_ _ : nat) (_ _ : Z) => Return [[0]] in
  let self :=
    {| sources := [0%nat]; waveform_length := 2%Z; offsets := [0%Z; 3%Z];
       rates := [8000%Z]; source_dirs := [0%nat]; transform := None |} in
  _get_single_item load self 3 = Throw IndexError.
Proof.
  intros info load self.
  apply (proj1 (dsd100_index_out_of_range nat nat info load [0%nat] 2
                  [0%nat] None self 3 ltac:(lia)
                  ltac:(repeat constructor; simpl; lia) eq_refl eq_refl)).
  - lia.
  - discriminate.
Defined.

End DatasetIndex.

(** ** The items of [DSD100] *)

Module DatasetItem.
Import Torch Datasets.

Lemma gather_map_inv {A B} (f : A -> outcome B) (l : list A) (r : list B) :
  gather (map f l) = Return r -> Forall2 (fun a b => f a = Return b) l r.
Proof.
  revert r; induction l as [|a l IH]; intros r; simpl.
  - intros [= <-]. constructor.
  - destruct (f a) as [b|e] eqn:Hb; simpl; [|discriminate].
    destruct (gather (map f l)) as [r'|e]; simpl; [|discriminate].
    intros [= <-]. constructor; auto.
Qed.

Lemma stack_same_inv (tensors stacked : list (list (list R))) :
  stack_same tensors = Return stacked ->
  stacked = tensors
  /\ tensors <> []
  /\ Forall (fun u => length (hd [] u) = length (hd [] (hd [] tensors)))
            tensors.
Proof.
  unfold stack_same. destruct tensors as [|t rest]; [discriminate|].
  destruct (forallb _ rest) eqn:Hf; [|discriminate].
  intros [= <-]. split; [reflexivity|]. split; [discriminate|].
  constructor; [reflexivity|].
  apply Forall_forall. intros u Hu.
  rewrite forallb_forall in Hf. specialize (Hf u Hu).
  apply andb_true_iff in Hf as [_ Hf]. now apply Nat.eqb_eq in Hf.
Qed.

Lemma mean_channels_length (F : nat) (t : list (list R)) :
  t <> [] -> Forall (fun r => length r = F) t ->
  length (hd [] t) = F /\ length (mean_channels t) = F.
Proof.
  intros Hne Hr.
  assert (Hhd : length (hd [] t) = F).
  { destruct t as [|r t]; [congruence|]. now inversion Hr. }
  split; [exact Hhd|]. unfold mean_channels. rewrite length_map, Hhd.
  clear Hne Hhd. induction Hr as [|r t Hrow _ IH]; simpl.
  - apply repeat_length.
  - rewrite map2_length, IH, Hrow. apply Nat.min_id.
Qed.

Section Files.
Variable dir : Type.
Variable source : Type.
Variable torchaudio_load : dir -> source -> Z -> Z -> outcome (list (list R)).

(** [torchaudio.load] returns a tensor (channels, frames) with one channel
    at least and at most [num_frames] frames. *)
Hypothesis load_shape : forall d s offset num_frames t,
  torchaudio_load d s offset num_frames = Return t ->
  t <> []
  /\ (Z.of_nat (length (hd [] t)) <= num_frames)%Z
  /\ Forall (fun r => length r = length (hd [] t)) t.

(** What a loaded segment is made of. *)
Lemma DSD100_segment_inv (self : DSD100 dir source)
  (audio_idx offset_idx : Z) (x : list (list R)) (rate : Z) :
  DSD100_segment torchaudio_load self audio_idx offset_idx = Return (x, rate) ->
  exists loaded,
    Forall2
      (fun s t =>
         exists d,
           getitem (source_dirs self) audio_idx = Return d
           /\ torchaudio_load d s (offset_idx * waveform_length self)
                (waveform_length self) = Return t)
      (sources self) loaded
    /\ x = map (fun t =>
                  mean_channels t
                    ++ repeat 0 (Z.to_nat (waveform_length self
                                           - Z.of_nat (length (hd [] t)))))
               loaded
    /\ length x = length (sources self)
    /\ Forall (fun row => Z.of_nat (length row) = waveform_length self) x
    /\ getitem (rates self) audio_idx = Return rate.
Proof.
  unfold DSD100_segment.
  destruct (gather _) as [loaded|e] eqn:Hg; cbn [and_then]; [|discriminate].
  destruct (stack_same loaded) as [stacked|e] eqn:Hst; cbn [and_then];
    [|discriminate].
  destruct (getitem (rates self) audio_idx) as [r|e] eqn:Hrate;
    cbn [and_then]; [|discriminate].
  intros Hx. injection Hx as Hx Hrt. apply gather_map_inv in Hg.
  apply stack_same_inv in Hst as [-> [Hne Hsame]].
  assert (Hload : Forall2
    (fun s t =>
       exists d,
         getitem (source_dirs self) audio_idx = Return d
         /\ torchaudio_load d s (offset_idx * waveform_length self)
              (waveform_length self) = Return t)
    (sources self) loaded).
  { eapply Forall2_impl; [|exact Hg]. intros s t Ht. cbv beta in Ht.
    destruct (getitem (source_dirs self) audio_idx) as [d|e];
      cbn [and_then] in Ht; [|discriminate].
    now exists d. }
  assert (Hshape : Forall
    (fun t => t <> []
              /\ (Z.of_nat (length (hd [] t)) <= waveform_length self)%Z
              /\ Forall (fun r => length r = length (hd [] t)) t) loaded).
  { apply Forall_forall. intros t Ht.
    destruct (LossCePhase.Forall2_in_r _ _ _ _ Hload Ht) as [s [_ [d [_ Hl]]]].
    now apply load_shape in Hl. }
  set (F := length (hd [] (hd [] loaded))) in *.
  assert (Hrows : Forall (fun t => length (hd [] t) = F
                                   /\ length (mean_channels t) = F) loaded).
  { apply Forall_forall. intros t Ht.
    rewrite Forall_forall in Hshape, Hsame.
    destruct (Hshape t Ht) as [Hn [_ Hr]].
    rewrite <- (Hsame t Ht). now apply mean_channels_length. }
  assert (Hframes : length (hd [] (map mean_channels loaded)) = F).
  { destruct loaded as [|t loaded']; [congruence|]. simpl.
    now inversion Hrows as [|? ? [_ Hm] _]. }
  assert (HF : (Z.of_nat F <= waveform_length self)%Z).
  { destruct loaded as [|t loaded']; [congruence|].
    inversion Hshape as [|? ? [_ [Hle _]] _]. exact Hle. }
  assert (Hpad : x = map (fun t =>
                    mean_channels t
                      ++ repeat 0 (Z.to_nat (waveform_length self
                                             - Z.of_nat (length (hd [] t)))))
                 loaded).
  { rewrite Hframes in Hx. rewrite <- Hx.
    destruct (Z.ltb_spec (Z.of_nat F) (waveform_length self)) as [Hlt|Hge].
    - rewrite map_map. apply map_ext_in. intros t Ht.
      rewrite Forall_forall in Hrows. destruct (Hrows t Ht) as [-> _].
      reflexivity.
    - apply map_ext_in. intros t Ht.
      rewrite Forall_forall in Hrows. destruct (Hrows t Ht) as [-> _].
      replace (Z.to_nat (waveform_length self - Z.of_nat F)) with O by lia.
      simpl. now rewrite app_nil_r. }
  exists loaded. split; [exact Hload|]. split; [exact Hpad|]. split; [|split].
  - rewrite Hpad, length_map. symmetry. eapply Forall2_length, Hload.
  - rewrite Hpad. apply Forall_map, Forall_forall. intros t Ht.
    rewrite Forall_forall in Hrows. destruct (Hrows t Ht) as [Hh Hm].
    rewrite length_app, repeat_length, Hm, Hh. lia.
  - now rewrite <- Hrt.
Qed.

(** X9. Whenever a segment is loaded, the item has one row per source
    and every row has exactly [waveform_length] samples: the mean over
    the channels of the frames that [torchaudio.load] returned for that
    source, followed by zeros. *)
Theorem dsd100_segment_padded (self : DSD100 dir source)
  (audio_idx offset_idx : Z) (x : list (list R)) (rate : Z) :
  DSD100_segment torchaudio_load self audio_idx offset_idx = Return (x, rate) ->
  exists loaded,
    Forall2
      (fun s t =>
         exists d,
           getitem (source_dirs self) audio_idx = Return d
           /\ torchaudio_load d s (offset_idx * waveform_length self)
                (waveform_length self) = Return t)
      (sources self) loaded
    /\ x = map (fun t =>
                  mean_channels t
                    ++ repeat 0 (Z.to_nat (waveform_length self
                                           - Z.of_nat (length (hd [] t)))))
               loaded
    /\ length x = length (sources self)
    /\ Forall (fun row => Z.of_nat (length row) = waveform_length self) x
    /\ getitem (rates self) audio_idx = Return rate.
Proof.
  intros Hseg.
  destruct (DSD100_segment_inv self audio_idx offset_idx x rate Hseg)
    as [loaded [Hload [Hx [Hlen [Hrows Hrate]]]]].
  exists loaded. split; [exact Hload|]. split; [exact Hx|].
  split; [exact Hlen|]. split; [exact Hrows|exact Hrate].
Qed.

End Files.

Lemma dsd100_segment_padded_witness :
  let load := fun (_ _ : nat) (_ num_frames : Z) =>
    if (1 <=? num_frames)%Z then Return [[1]]
    else Throw (Builtin RuntimeError) in
  let self :=
    {| sources := [0%nat]; waveform_length := 2%Z; offsets := [0%Z; 3%Z];
       rates := [8000%Z]; source_dirs := [0%nat]; transform := None |} in
  exists loaded,
    Forall2
      (fun s t =>
         exists d,
           getitem (source_dirs self) 0 = Return d
           /\ load d s (0 * waveform_length self)%Z (waveform_length self)
              = Return t)
      (sources self) loaded
    /\ [[(1 + 0) / INR 1; 0]]
       = map (fun t =>
                mean_channels t
                  ++ repeat 0 (Z.to_nat (waveform_length self
                                         - Z.of_nat (length (hd [] t)))))
             loaded
    /\ length [[(1 + 0) / INR 1; 0]] = length (sources self)
    /\ Forall (fun row => Z.of_nat (length row) = waveform_length self)
              [[(1 + 0) / INR 1; 0]]
    /\ getitem (rates self) 0 = Return 8000%Z.
Proof.
  intros load self.
  apply (dsd100_segment_padded nat nat load).
  - intros d s o n t. unfold load.
    destruct (Z.leb_spec 1 n) as [Hn|Hn]; [|discriminate].
    intros [= <-]. simpl. split; [discriminate|].
    split; [lia|repeat constructor].
  - reflexivity.
Defined.

End DatasetItem.

(** ** [MixTransform] *)

Module Mixing.
Import Torch Datasets.

Lemma index_select_ok (sample : list (list R)) (idxs : list Z) :
  in_range (length sample) idxs ->
  index_select sample idxs
  = Return (map (fun i => nth (Z.to_nat i) sample []) idxs).
Proof.
  unfold index_select. induction 1 as [|i idxs Hi _ IH]; [reflexivity|].
  cbn [map gather].
  destruct (Z.leb_spec 0 i); [|lia].
  destruct (Z.ltb_spec i (Z.of_nat (length sample))); [|lia].
  cbn [andb and_then]. now rewrite IH.
Qed.

Lemma index_select_out (sample : list (list R)) (idxs : list Z) :
  ~ in_range (length sample) idxs ->
  index_select sample idxs = Throw IndexError.
Proof.
  unfold index_select, in_range.
  induction idxs as [|i idxs IH]; intros Hn; [exfalso; apply Hn; constructor|].
  cbn [map gather].
  destruct (Z.leb_spec 0 i); cbn [andb and_then]; [|reflexivity].
  destruct (Z.ltb_spec i (Z.of_nat (length sample))); cbn [and_then];
    [|reflexivity].
  rewrite IH; [reflexivity|].
  intros Hr. apply Hn. constructor; [lia|exact Hr].
Qed.

Lemma in_range_dec (S : nat) (idxs : list Z) :
  in_range S idxs \/ ~ in_range S idxs.
Proof.
  unfold in_range. induction idxs as [|i idxs [IH|IH]].
  - left. constructor.
  - destruct (Z_le_dec 0 i); [destruct (Z_lt_dec i (Z.of_nat S))|].
    + left. constructor; [lia|exact IH].
    + right. intros H. inversion H. lia.
    + right. intros H. inversion H. lia.
  - right. intros H. inversion H. contradiction.
Qed.

Lemma ones_rows (rows : list (list R)) :
  map2 (fun c row => map (Rmult c) row) (repeat 1 (length rows)) rows = rows.
Proof.
  induction rows as [|r rows IH]; [reflexivity|]. simpl. f_equal; [|exact IH].
  rewrite <- (map_id r) at 2. apply map_ext. intros v. lra.
Qed.

Lemma scale_rows_ones (rows : list (list R)) :
  scale_rows (repeat 1 (length rows)) rows = Return rows.
Proof.
  unfold scale_rows. rewrite repeat_length, Nat.eqb_refl.
  now rewrite ones_rows.
Qed.

(** One entry of the result, with the coefficients that [__init__] gives
    when [source_coeffs] is [None]. *)
Lemma default_row (sample : list (list R)) (s : source_list) :
  let row :=
    and_then (index_select sample (indices s)) (fun selected =>
    and_then (scale_rows (match s with
                          | One _ => [1]
                          | Many l => repeat 1 (length l)
                          end) selected) (fun scaled =>
    Return (sum_rows (length (hd [] sample)) scaled))) in
  (in_range (length sample) (indices s) ->
   row = Return (plain_sum sample (indices s)))
  /\ (~ in_range (length sample) (indices s) -> row = Throw IndexError).
Proof.
  intros row. unfold row. split.
  - intros Hr. rewrite index_select_ok by exact Hr. cbn [and_then].
    replace (match s with One _ => [1] | Many l => repeat 1 (length l) end)
      with (repeat 1 (length (map (fun i => nth (Z.to_nat i) sample [])
                                  (indices s))))
      by (rewrite length_map; destruct s; reflexivity).
    now rewrite scale_rows_ones.
  - intros Hr. now rewrite index_select_out.
Qed.

Lemma map2_plus_zeros (W : nat) (v : list R) :
  length v = W -> map2 Rplus (repeat 0 W) v = v.
Proof.
  revert W; induction v as [|x v IH]; intros W <-; simpl; [reflexivity|].
  rewrite IH by reflexivity. f_equal. lra.
Qed.

Lemma map2_plus_assoc (a b c : list R) :
  map2 Rplus a (map2 Rplus b c) = map2 Rplus (map2 Rplus a b) c.
Proof.
  revert b c; induction a as [|x a IH]; intros [|y b] [|z c]; simpl; auto.
  rewrite IH. f_equal. lra.
Qed.

Lemma sum_rows_length (W : nat) (rows : list (list R)) :
  Forall (fun r => length r = W) rows -> length (sum_rows W rows) = W.
Proof.
  unfold sum_rows. induction 1 as [|r rows Hr _ IH]; simpl.
  - apply repeat_length.
  - rewrite map2_length, IH, Hr. apply Nat.min_id.
Qed.

Lemma sum_rows_app (W : nat) (a b : list (list R)) :
  Forall (fun r => length r = W) b ->
  sum_rows W (a ++ b) = map2 Rplus (sum_rows W a) (sum_rows W b).
Proof.
  intros Hb. induction a as [|r a IH].
  - simpl. change (fold_right (map2 Rplus) (repeat 0 W) b)
      with (sum_rows W b).
    now rewrite map2_plus_zeros by now apply sum_rows_length.
  - change (map2 Rplus r (sum_rows W (a ++ b))
            = map2 Rplus (map2 Rplus r (sum_rows W a)) (sum_rows W b)).
    now rewrite IH, map2_plus_assoc.
Qed.

Lemma selected_rows (sample : list (list R)) (idxs : list Z) :
  Forall (fun r => length r = length (hd [] sample)) sample ->
  in_range (length sample) idxs ->
  Forall (fun r => length r = length (hd [] sample))
         (map (fun i => nth (Z.to_nat i) sample []) idxs).
Proof.
  intros Hs Hr. apply Forall_map. eapply Forall_impl; [|exact Hr].
  intros i Hi. cbv beta in *. rewrite Forall_forall in Hs.
  apply Hs, nth_In. lia.
Qed.

Lemma call_default (sample : list (list R)) (lists : list source_list) :
  gather (map (fun e =>
            let '(sl, sc) := e in
            and_then (index_select sample sl) (fun selected =>
            and_then (scale_rows sc selected) (fun scaled =>
            Return (sum_rows (length (hd [] sample)) scaled))))
          (Py.zip (source_lists (MixTransform_init lists None))
                  (source_coeffs (MixTransform_init lists None))))
  = gather (map (fun s =>
      and_then (index_select sample (indices s)) (fun selected =>
      and_then (scale_rows (match s with
                            | One _ => [1]
                            | Many l => repeat 1 (length l)
                            end) selected) (fun scaled =>
      Return (sum_rows (length (hd [] sample)) scaled)))) lists).
Proof.
  cbn [MixTransform_init source_lists source_coeffs]. unfold Py.zip.
  f_equal. induction lists as [|s lists IH]; [reflexivity|].
  cbn [map combine]. rewrite IH. destruct s; reflexivity.
Qed.

Lemma call_default_ok (sample : list (list R)) (lists : list source_list) :
  lists <> [] ->
  Forall (fun s => in_range (length sample) (indices s)) lists ->
  MixTransform_call (MixTransform_init lists None) sample
  = Return (map (fun s => plain_sum sample (indices s)) lists).
Proof.
  intros Hls Hr. unfold MixTransform_call. rewrite call_default.
  assert (Hg : gather (map (fun s =>
      and_then (index_select sample (indices s)) (fun selected =>
      and_then (scale_rows (match s with
                            | One _ => [1]
                            | Many l => repeat 1 (length l)
                            end) selected) (fun scaled =>
      Return (sum_rows (length (hd [] sample)) scaled)))) lists)
    = Return (map (fun s => plain_sum sample (indices s)) lists)).
  { clear Hls. induction Hr as [|s ls Hsr _ IH]; [reflexivity|].
    cbn [map gather].
    rewrite (proj1 (default_row sample s) Hsr). cbn [and_then].
    now rewrite IH. }
  rewrite Hg. cbn [and_then].
  destruct lists; [congruence|reflexivity].
Qed.

(** X10. With the default coefficients, [MixTransform] returns for every
    entry of [source_lists] the plain sum of the selected rows of the
    sample, so the row of a list [a ++ b] is the sum of the rows of [a]
    and of [b]; an index outside the rows of the sample is an
    [IndexError]. *)
Theorem mix_transform_default (sample : list (list R))
  (lists : list source_list) :
  Forall (fun r => length r = length (hd [] sample)) sample ->
  lists <> [] ->
  (Forall (fun s => in_range (length sample) (indices s)) lists ->
   MixTransform_call (MixTransform_init lists None) sample
   = Return (map (fun s => plain_sum sample (indices s)) lists))
  /\ (forall a b,
        in_range (length sample) a -> in_range (length sample) b ->
        MixTransform_call
          (MixTransform_init [Many a; Many b; Many (a ++ b)] None) sample
        = Return [plain_sum sample a; plain_sum sample b;
                  map2 Rplus (plain_sum sample a) (plain_sum sample b)])
  /\ (~ Forall (fun s => in_range (length sample) (indices s)) lists ->
      MixTransform_call (MixTransform_init lists None) sample
      = Throw IndexError).
Proof.
  intros Hs Hne.
  pose proof (call_default_ok sample) as Hok.
  split; [now apply Hok|]. split.
  - intros a b Ha Hb. rewrite Hok.
    + cbn [map indices]. do 4 f_equal. unfold plain_sum.
      rewrite map_app. apply sum_rows_app. now apply selected_rows.
    + discriminate.
    + repeat constructor; cbn [indices]; auto.
      unfold in_range in *. apply Forall_app. now split.
  - intros Hbad. unfold MixTransform_call. rewrite call_default.
    assert (Hg : gather (map (fun s =>
        and_then (index_select sample (indices s)) (fun selected =>
        and_then (scale_rows (match s with
                              | One _ => [1]
                              | Many l => repeat 1 (length l)
                              end) selected) (fun scaled =>
        Return (sum_rows (length (hd [] sample)) scaled)))) lists)
      = Throw IndexError).
    { clear Hne. induction lists as [|s lists IH].
      - exfalso. apply Hbad. constructor.
      - cbn [map gather].
        destruct (in_range_dec (length sample) (indices s)) as [Hr|Hr].
        + rewrite (proj1 (default_row sample s) Hr). cbn [and_then].
          rewrite IH; [reflexivity|].
          intros H. apply Hbad. now constructor.
        + now rewrite (proj2 (default_row sample s) Hr). }
    now rewrite Hg.
Qed.

(** Three sources against a fourth, and the mixture of the four. *)
Lemma mix_transform_default_witness :
  MixTransform_call
    (MixTransform_init [Many [0; 1; 2]%Z; Many [3%Z];
                        Many ([0; 1; 2] ++ [3])%Z] None)
    [[1; 2]; [3; 4]; [5; 6]; [7; 8]]
  = Return [plain_sum [[1; 2]; [3; 4]; [5; 6]; [7; 8]] [0; 1; 2]%Z;
            plain_sum [[1; 2]; [3; 4]; [5; 6]; [7; 8]] [3%Z];
            map2 Rplus
              (plain_sum [[1; 2]; [3; 4]; [5; 6]; [7; 8]] [0; 1; 2]%Z)
              (plain_sum [[1; 2]; [3; 4]; [5; 6]; [7; 8]] [3%Z])].
Proof.
  apply (proj1 (proj2 (mix_transform_default
                         [[1; 2]; [3; 4]; [5; 6]; [7; 8]]
                         [Many [0%Z]]
                         ltac:(repeat constructor) ltac:(discriminate)))).
  - repeat constructor; simpl; lia.
  - repeat constructor; simpl; lia.
Defined.

End Mixing.

(** ** The waveform length of the trainable network *)

Module TrainableLength.
Import Torch Submodels SubmodelsNetwork.

Lemma In_skipn {A} (x : list A) (k : nat) (w : A) :
  In w (skipn k x) -> In w x.
Proof.
  revert x; induction k as [|k IH]; intros [|a x]; simpl; auto.
Qed.

Lemma In_firstn {A} (x : list A) (k : nat) (w : A) :
  In w (firstn k x) -> In w x.
Proof.
  revert x; induction k as [|k IH]; intros [|a x]; simpl; auto.
  - tauto.
  - intros [H|H]; auto.
Qed.

Lemma In_chunks {A} (b c : nat) (x : list A) (item : list A) (w : A) :
  In item (chunks b c x) -> In w item -> In w x.
Proof.
  revert x; induction b as [|b IH]; intros x; simpl; [tauto|].
  intros [<-|Hin] Hw.
  - eapply In_firstn, Hw.
  - eapply In_skipn, IH; eassumption.
Qed.

Lemma istft_length_form (self : TrainableIstftLayer) (x : list (list R)) :
  exists k,
    length (TrainableIstftLayer_forward self x)
    = (k * (istft_n_fft self / 4) + istft_n_fft self mod 4)%nat.
Proof.
  rewrite MisiMagnitude.istft_forward_length.
  exists (length (hd [] x) - 1)%nat.
  pose proof (Nat.div_mod_eq (istft_n_fft self) 4).
  set (hop := (istft_n_fft self / 4)%nat) in *.
  set (r := (istft_n_fft self mod 4)%nat) in *.
  clearbody hop r.
  generalize ((length (hd [] x) - 1) * hop)%nat. intros m. lia.
Qed.

(** X11. Every waveform that [TrainableMisiNetwork.forward] returns has
    the length of the mixture rows, and that length is
    [k * hop_length + n_fft mod 4] for some [k], whatever the weights of the
    layers: with [n_fft] a multiple of 4, a mixture whose length is not a
    multiple of [hop_length] is never answered with a waveform. *)
Theorem trainable_network_waveform_length (self : TrainableMisiNetwork)
  (mask : mask_t) (mixture : list wave) (out : list (list wave))
  (item : list wave) (w : wave) :
  TrainableMisiNetwork_forward self mask mixture = Ok out ->
  In item out -> In w item ->
  let n_fft := istft_n_fft (net_istft_layer self) in
  length w = length (hd [] mixture)
  /\ (exists k, length (hd [] mixture) = (k * (n_fft / 4) + n_fft mod 4)%nat)
  /\ (n_fft mod 4 = 0 -> length (hd [] mixture) mod (n_fft / 4) = 0)%nat.
Proof.
  unfold TrainableMisiNetwork_forward. cbv zeta.
  destruct (reshape_planes _ _ _ _) as [X|e]; cbn [bind]; [|discriminate].
  destruct (fold_left _ _ _) as [Shat|e]; cbn [bind]; [|discriminate].
  intros Hr Hitem Hw. set (n_fft := istft_n_fft (net_istft_layer self)).
  apply MisiDelta.reshape_ok in Hr as [-> [_ Hrows]].
  pose proof (In_chunks _ _ _ _ _ Hitem Hw) as Hin.
  rewrite Forall_forall in Hrows. pose proof (Hrows w Hin) as Hlen.
  apply in_map_iff in Hin as [S [<- _]].
  destruct (istft_length_form (net_istft_layer self) S) as [k Hk].
  fold n_fft in Hk. split; [exact Hlen|]. split.
  - exists k. now rewrite <- Hlen.
  - intros H4. rewrite <- Hlen, Hk, H4, Nat.add_0_r.
    destruct (n_fft / 4)%nat eqn:Hhop; [now rewrite Nat.mul_0_r|].
    apply Nat.Div0.mod_mul.
Qed.

(** The network of [n_fft = 4] with one layer, on one channel of a mixture
    of one sample: [hop_length] is 1. *)
Lemma trainable_network_waveform_length_witness :
  let self := TrainableMisiNetwork_init 4 1 in
  let mask :=
    RealMask [[[[1; 1]; [1; 1]; [1; 1]]]] in
  let mixture := [[1]] in
  exists out,
    TrainableMisiNetwork_forward self mask mixture = Ok out
    /\ length (hd [] (hd [] out)) = length (hd [] mixture)
    /\ (exists k,
          length (hd [] mixture)
          = (k * (istft_n_fft (net_istft_layer self) / 4)
             + istft_n_fft (net_istft_layer self) mod 4)%nat)
    /\ (istft_n_fft (net_istft_layer self) mod 4 = 0 ->
        length (hd [] mixture) mod (istft_n_fft (net_istft_layer self) / 4)
        = 0)%nat.
Proof.
  intros self mask mixture.
  eexists. split; [reflexivity|].
  eapply (trainable_network_waveform_length self mask mixture).
  - reflexivity.
  - left. reflexivity.
  - left. reflexivity.
Defined.

End TrainableLength.

(** ** The shapes of the trainable network *)

Module TrainableShapes.
Import Torch Submodels SubmodelsNetwork.

Lemma tensor2_map2_2 {A B C} (f : A -> B -> C) (F T : nat)
  (a : list (list A)) (b : list (list B)) :
  tensor2 F T a -> tensor2 F T b -> tensor2 F T (map2_2 f a b).
Proof. apply LossCsaFloor.tensor2_map2. Qed.

Lemma tensor2_map_2 {A B} (f : A -> B) (F T : nat) (a : list (list A)) :
  tensor2 F T a -> tensor2 F T (map_2 f a).
Proof.
  intros [Hl Hr]. unfold map_2. split; [now rewrite length_map|].
  apply Forall_map. eapply Forall_impl; [|exact Hr].
  intros r Hrow. cbv beta. now rewrite length_map.
Qed.

Lemma tensor2_app {A} (F G T : nat) (a b : list (list A)) :
  tensor2 F T a -> tensor2 G T b -> tensor2 (F + G) T (a ++ b).
Proof.
  intros [Ha Har] [Hb Hbr]. split.
  - rewrite length_app. lia.
  - apply Forall_app. now split.
Qed.

Lemma Forall_map2 {A B C} (P : A -> Prop) (Q : B -> Prop) (R : C -> Prop)
  (f : A -> B -> C) (a : list A) (b : list B) :
  (forall x y, P x -> Q y -> R (f x y)) ->
  Forall P a -> Forall Q b -> Forall R (map2 f a b).
Proof.
  intros Hf Ha. revert b.
  induction Ha as [|x a Hx _ IH]; intros [|y b] Hb; simpl; constructor.
  - apply Hf; [exact Hx|]. now inversion Hb.
  - apply IH. now inversion Hb.
Qed.

Lemma chunks_shape {A} (b c : nat) (l : list A) :
  length l = (b * c)%nat -> tensor2 b c (chunks b c l).
Proof.
  revert l; induction b as [|b IH]; intros l Hl.
  - split; [reflexivity|constructor].
  - simpl in Hl. destruct (IH (skipn c l)) as [Hlen Hrows].
    { rewrite length_skipn. lia. }
    split; simpl; [now rewrite Hlen|].
    constructor; [|exact Hrows]. rewrite length_firstn. lia.
Qed.

Lemma repeat_interleave_Forall {A} (P : A -> Prop) (n : nat) (x : list A) :
  Forall P x -> Forall P (repeat_interleave n x).
Proof.
  unfold repeat_interleave. induction 1 as [|r x Hr _ IH]; simpl.
  - constructor.
  - apply Forall_app. split; [|exact IH].
    apply Forall_forall. intros y Hy. apply repeat_spec in Hy. now subst.
Qed.

Lemma concat_length_const {A} (n c : nat) (x : list (list A)) :
  length x = n -> Forall (fun r => length r = c) x ->
  length (concat x) = (n * c)%nat.
Proof.
  intros <- Hr. induction Hr as [|r x Hrow _ IH]; [reflexivity|].
  simpl. rewrite length_app, IH, Hrow. lia.
Qed.

Lemma reshape_intro (b c w : nat) (x : list wave) :
  length x = (b * c)%nat -> Forall (fun row => length row = w) x ->
  reshape b c w x = Ok (chunks b c x).
Proof.
  intros Hl Hr. unfold reshape.
  rewrite Hl, Nat.eqb_refl. cbn [andb].
  assert (Hf : forallb (fun row => (length row =? w)%nat) x = true).
  { apply forallb_forall. intros row Hin. rewrite Forall_forall in Hr.
    apply Nat.eqb_eq, Hr, Hin. }
  now rewrite Hf.
Qed.

(** *** The two transforms *)

Lemma conv1d_shape (weight : list (list R)) (kernel stride padding : nat)
  (x : wave) :
  tensor2 (length weight)
    ((padding + length x + padding - kernel) / stride + 1)
    (conv1d weight kernel stride padding x).
Proof.
  unfold conv1d. split; [apply length_map|].
  apply Forall_map, Forall_forall. intros w _.
  rewrite length_map, length_seq, !length_app, !repeat_length.
  f_equal. f_equal. lia.
Qed.

Lemma dft_matrix_rows (n_fft : nat) :
  length (_generate_dft_matrix n_fft)
  = ((n_fft / 2 + 1) + (n_fft / 2 + 1))%nat.
Proof.
  unfold _generate_dft_matrix.
  now rewrite length_app, !length_map, length_seq.
Qed.

Section Hop.
Variable hop : nat.
Hypothesis hop_pos : hop <> O.

Let n_fft := (4 * hop)%nat.
Let F := (n_fft / 2 + 1)%nat.

Lemma quarter : (n_fft / 4 = hop)%nat.
Proof. unfold n_fft. rewrite Nat.mul_comm. now apply Nat.div_mul. Qed.

Lemma stft_shape (self : TrainableStftLayer) (x : wave) :
  stft_n_fft self = n_fft ->
  length (stft_weight self) = (F + F)%nat ->
  tensor2 (F + F) (length x / hop + 1)
    (TrainableStftLayer_forward self x).
Proof.
  intros Hn Hw. unfold TrainableStftLayer_forward.
  rewrite Hn, quarter.
  pose proof (conv1d_shape (stft_weight self) n_fft hop (hop * 2) x) as H.
  rewrite Hw in H.
  replace ((hop * 2 + length x + hop * 2 - n_fft) / hop)%nat
    with (length x / hop)%nat in H; [exact H|].
  f_equal. unfold n_fft. lia.
Qed.

Lemma istft_length (self : TrainableIstftLayer) (R' T : nat)
  (S : list (list R)) :
  istft_n_fft self = n_fft ->
  R' <> O -> tensor2 R' T S ->
  length (TrainableIstftLayer_forward self S) = ((T - 1) * hop)%nat.
Proof.
  intros Hn HR [Hl Hr]. rewrite MisiMagnitude.istft_forward_length.
  rewrite Hn, quarter.
  assert (Hhd : length (hd [] S) = T).
  { destruct S as [|r S]; [simpl in Hl; congruence|]. now inversion Hr. }
  rewrite Hhd. unfold n_fft.
  generalize ((T - 1) * hop)%nat. intros m. lia.
Qed.

Lemma normalize_dim1_shape (T : nat) (x : list (list R)) :
  tensor2 (F + F) T x -> tensor2 (F + F) T (normalize_dim1 F x).
Proof.
  intros [Hl Hr]. unfold normalize_dim1.
  assert (Hp : tensor2 F T
                 (map2_2 (fun re im => normalize (re, im))
                    (firstn F x) (skipn F x))).
  { apply tensor2_map2_2; split.
    - rewrite length_firstn. lia.
    - rewrite <- (firstn_skipn F x) in Hr. now apply Forall_app in Hr.
    - rewrite length_skipn. lia.
    - rewrite <- (firstn_skipn F x) in Hr. now apply Forall_app in Hr. }
  apply tensor2_app; now apply tensor2_map_2.
Qed.

Lemma chunks_Forall {A} (P : A -> Prop) (b c : nat) (x : list A) :
  Forall P x -> Forall (Forall P) (chunks b c x).
Proof.
  revert x; induction b as [|b IH]; intros x Hx; simpl; constructor.
  - apply (MisiDelta.Forall_chunk P x 0 c Hx).
  - apply IH. apply Forall_forall. intros y Hy.
    rewrite Forall_forall in Hx. apply Hx.
    eapply TrainableLength.In_skipn, Hy.
Qed.

Lemma hd_length {A} (B W : nat) (x : list (list A)) :
  B <> O -> tensor2 B W x -> length (hd [] x) = W.
Proof.
  intros HB [Hl Hr]. destruct x as [|r x]; [simpl in Hl; congruence|].
  now inversion Hr.
Qed.

(** The waveforms that a step transforms have the shape of [shat]. *)
Lemma corrected_shape (mixture shat : list wave) (B C W : nat) :
  tensor2 B W mixture -> tensor2 (B * C) W shat ->
  tensor2 (B * C) W
    (map2_2 Rplus shat
       (repeat_interleave C
          (map2_2 Rminus mixture
             (map_2 (fun v => v / INR C)
                (map (sum_channels W) (chunks B C shat)))))).
Proof.
  intros [Hm Hmr] [Hs Hsr].
  assert (Hd : tensor2 B W
                 (map2_2 Rminus mixture
                    (map_2 (fun v => v / INR C)
                       (map (sum_channels W) (chunks B C shat))))).
  { apply tensor2_map2_2; [now split|]. apply tensor2_map_2. split.
    - now rewrite length_map, MisiDelta.chunks_length.
    - apply Forall_map.
      eapply Forall_impl; [|apply (chunks_Forall _ B C shat Hsr)].
      intros g Hg. now apply MisiDelta.sum_channels_length. }
  destruct Hd as [Hdl Hdr].
  apply tensor2_map2_2; [now split|]. split.
  - now rewrite MisiDelta.repeat_interleave_length, Hdl.
  - now apply repeat_interleave_Forall.
Qed.

Section Layer.
Variable layer : TrainableMisiLayer.
Hypothesis layer_n_fft : misi_n_fft layer = n_fft.
Hypothesis layer_stft : stft_n_fft (stft_layer layer) = n_fft.
Hypothesis layer_weight :
  length (stft_weight (stft_layer layer)) = (F + F)%nat.
Hypothesis layer_istft : istft_n_fft (istft_layer layer) = n_fft.

Lemma layer_forward_shape (Shat Shatmag : list (list (list R)))
  (mixture : list wave) (B C q : nat) :
  B <> O ->
  tensor2 B (q * hop) mixture ->
  length Shat = (B * C)%nat -> Forall (tensor2 (F + F) (q + 1)) Shat ->
  length Shatmag = (B * C)%nat -> Forall (tensor2 (F + F) (q + 1)) Shatmag ->
  exists out,
    TrainableMisiLayer_forward layer Shat Shatmag mixture = Ok out
    /\ length out = (B * C)%nat
    /\ Forall (tensor2 (F + F) (q + 1)) out.
Proof.
  intros HB Hmix HS HSr HM HMr.
  assert (HW : length (hd [] mixture) = (q * hop)%nat)
    by now apply (hd_length B).
  assert (HBl : length mixture = B) by now destruct Hmix.
  assert (HF : (F + F)%nat <> O) by (unfold F; lia).
  set (shat := map (TrainableIstftLayer_forward (istft_layer layer)) Shat).
  assert (Hshat : tensor2 (B * C) (q * hop) shat).
  { split; [unfold shat; now rewrite length_map|].
    unfold shat. apply Forall_map.
    eapply Forall_impl; [|exact HSr]. intros S HSt. cbv beta.
    rewrite (istft_length _ (F + F) (q + 1) S layer_istft HF HSt).
    f_equal. lia. }
  assert (Htmp : TrainableMisiLayer_tmp layer Shat mixture
    = Ok (map (TrainableStftLayer_forward (stft_layer layer))
            (map2_2 Rplus shat
               (repeat_interleave C
                  (map2_2 Rminus mixture
                     (map_2 (fun v => v / INR C)
                        (map (sum_channels (q * hop))
                             (chunks B C shat)))))))).
  { unfold TrainableMisiLayer_tmp. rewrite HBl, HW, HS.
    assert (Hdiv : Py.floordiv (B * C) B = Ok C).
    { unfold Py.floordiv. destruct B as [|B']; [congruence|].
      f_equal. rewrite Nat.mul_comm. now apply Nat.div_mul. }
    rewrite Hdiv. cbn [bind]. fold shat.
    destruct Hshat as [Hl Hr].
    now rewrite (reshape_intro B C (q * hop) shat Hl Hr). }
  unfold TrainableMisiLayer_forward. rewrite Htmp. cbn [bind].
  eexists. split; [reflexivity|].
  pose proof (corrected_shape mixture shat B C (q * hop) Hmix Hshat)
    as [Hcl Hcr].
  assert (Hphase : Forall (tensor2 (F + F) (q + 1))
    (map (normalize_dim1 (misi_n_fft layer / 2 + 1))
       (map (TrainableStftLayer_forward (stft_layer layer))
          (map2_2 Rplus shat
             (repeat_interleave C
                (map2_2 Rminus mixture
                   (map_2 (fun v => v / INR C)
                      (map (sum_channels (q * hop))
                           (chunks B C shat))))))))).
  { rewrite layer_n_fft. fold F. apply Forall_map, Forall_map.
    eapply Forall_impl; [|exact Hcr]. intros x Hx. cbv beta.
    apply normalize_dim1_shape.
    pose proof (stft_shape (stft_layer layer) x layer_stft layer_weight)
      as Hst.
    rewrite Hx, (Nat.div_mul q hop hop_pos) in Hst. exact Hst. }
  split.
  - unfold map2_3. rewrite map2_length, !length_map, Hcl, HM.
    apply Nat.min_id.
  - unfold map2_3.
    apply (Forall_map2 _ _ _ _ _ _
             (fun a b => tensor2_map2_2 Rmult (F + F) (q + 1) a b)
             HMr Hphase).
Qed.

End Layer.

Lemma loop_shape (layers : list TrainableMisiLayer)
  (Shat Shatmag : list (list (list R))) (mixture : list wave)
  (B C q : nat) :
  Forall (layer_shaped n_fft) layers ->
  B <> O ->
  tensor2 B (q * hop) mixture ->
  length Shat = (B * C)%nat -> Forall (tensor2 (F + F) (q + 1)) Shat ->
  length Shatmag = (B * C)%nat -> Forall (tensor2 (F + F) (q + 1)) Shatmag ->
  exists out,
    fold_left
      (fun acc layer =>
         Shat <- acc ;;
         TrainableMisiLayer_forward layer Shat Shatmag mixture)
      layers (Ok Shat) = Ok out
    /\ length out = (B * C)%nat
    /\ Forall (tensor2 (F + F) (q + 1)) out.
Proof.
  intros Hl HB Hmix HS HSr HM HMr. revert Shat HS HSr.
  induction Hl as [|layer layers [H1 [H2 [H3 H4]]] _ IH]; intros Shat HS HSr.
  - exists Shat. now split.
  - cbn [fold_left bind].
    destruct (layer_forward_shape layer H1 H2 H3 H4 Shat Shatmag mixture
                B C q HB Hmix HS HSr HM HMr) as [out [-> [Ho Hor]]].
    now apply IH.
Qed.

Lemma init_layer_shaped :
  layer_shaped n_fft (TrainableMisiLayer_init n_fft).
Proof.
  unfold layer_shaped, TrainableMisiLayer_init. cbn.
  repeat split; try reflexivity.
  rewrite length_map. apply dft_matrix_rows.
Qed.

(** [X]: the transform of the mixture, as planes. *)
Lemma reshape_planes_shape (self : TrainableStftLayer)
  (mixture : list wave) (B q : nat) :
  stft_n_fft self = n_fft ->
  length (stft_weight self) = (F + F)%nat ->
  tensor2 B (q * hop) mixture ->
  exists X,
    reshape_planes B F (q + 1)
      (map (TrainableStftLayer_forward self) mixture) = Ok X
    /\ length X = B
    /\ Forall (fun p => tensor2 F (q + 1) (fst p)
                        /\ tensor2 F (q + 1) (snd p)) X.
Proof.
  intros Hn Hw [Hl Hr]. unfold reshape_planes.
  set (T := (q + 1)%nat).
  set (flat := concat (map (@concat R)
                 (map (TrainableStftLayer_forward self) mixture))).
  assert (Hflat : length flat = (B * (2 * (F * T)))%nat).
  { unfold flat. apply concat_length_const.
    - now rewrite !length_map.
    - apply Forall_map, Forall_map.
      eapply Forall_impl; [|exact Hr]. intros x Hx. cbv beta.
      pose proof (stft_shape self x Hn Hw) as [Hsl Hsr].
      rewrite Hx, (Nat.div_mul q hop hop_pos) in Hsr.
      rewrite (concat_length_const (F + F) T) by assumption. lia. }
  rewrite Hflat, Nat.eqb_refl.
  eexists. split; [reflexivity|].
  destruct (chunks_shape B (2 * (F * T)) flat Hflat) as [Hcl Hcr].
  split; [now rewrite length_map|].
  apply Forall_map. eapply Forall_impl; [|exact Hcr].
  intros item Hitem. cbv beta in Hitem |- *. cbn [fst snd]. split.
  - apply chunks_shape. rewrite length_firstn. lia.
  - apply chunks_shape. rewrite length_skipn. lia.
Qed.

Lemma comp_mul_shape (T : nat) (X Y : planes) :
  tensor2 F T (fst X) /\ tensor2 F T (snd X) ->
  tensor2 F T (fst Y) /\ tensor2 F T (snd Y) ->
  tensor2 F T (fst (comp_mul X Y)) /\ tensor2 F T (snd (comp_mul X Y)).
Proof.
  destruct X as [xre xim], Y as [yre yim]. cbn [fst snd comp_mul].
  intros [H1 H2] [H3 H4]. split; repeat apply tensor2_map2_2; assumption.
Qed.

End Hop.

Lemma tensor4_hd {A} (B C F T : nat) (m : list (list (list (list A)))) :
  B <> O -> C <> O -> F <> O -> tensor4 B C F T m ->
  length m = B
  /\ length (hd [] m) = C
  /\ length (hd [] (hd [] m)) = F
  /\ length (hd [] (hd [] (hd [] m))) = T
  /\ length (concat m) = (B * C)%nat
  /\ Forall (tensor2 F T) (concat m).
Proof.
  intros HB HC HF [Hl Hr].
  destruct m as [|m0 m]; [simpl in Hl; congruence|].
  assert (H0 : tensor3 C F T m0) by now inversion Hr.
  destruct H0 as [H0l H0r].
  destruct m0 as [|m00 m0]; [simpl in H0l; congruence|].
  assert (H00 : tensor2 F T m00) by now inversion H0r.
  destruct H00 as [H00l H00r].
  destruct m00 as [|r m00]; [simpl in H00l; congruence|].
  assert (Hrow : length r = T) by now inversion H00r.
  cbn [hd]. repeat split; auto.
  - apply concat_length_const; [exact Hl|].
    eapply Forall_impl; [|exact Hr]. now intros x [Hx _].
  - apply Forall_concat. eapply Forall_impl; [|exact Hr].
    now intros x [_ Hx].
Qed.

Lemma tensor4_map_4 {A B'} (f : A -> B') (B C F T : nat)
  (m : list (list (list (list A)))) :
  tensor4 B C F T m -> tensor4 B C F T (map_4 f m).
Proof.
  unfold map_4. intros [Hl Hr]. split; [now rewrite length_map|].
  apply Forall_map. eapply Forall_impl; [|exact Hr].
  intros x [Hxl Hxr]. split; [now rewrite length_map|].
  apply Forall_map. eapply Forall_impl; [|exact Hxr].
  intros y Hy. now apply (tensor2_map_2 f).
Qed.


Lemma forward_complex_shape (hop q B C : nat) (layer_num : Z)
  (m : list (list (list (list cplx)))) (mixture : list wave) :
  hop <> O -> B <> O -> C <> O ->
  tensor4 B C (4 * hop / 2 + 1) (q + 1) m ->
  tensor2 B (q * hop) mixture ->
  exists out,
    TrainableMisiNetwork_forward
      (TrainableMisiNetwork_init (4 * hop) layer_num) (ComplexMask m)
      mixture = Ok out
    /\ tensor3 B C (q * hop) out.
Proof.
  intros Hhop HB HC Hm Hmix.
  set (n_fft := (4 * hop)%nat) in *.
  set (F := (n_fft / 2 + 1)%nat) in *.
  assert (HF : F <> O) by (unfold F; lia).
  destruct (tensor4_hd (A := (R * R)%type) B C F (q + 1) m HB HC HF Hm)
    as [H1 [H2 [H3 [H4 [Hcl Hcr]]]]].
  destruct (reshape_planes_shape hop Hhop (TrainableStftLayer_init n_fft)
              mixture B q) as [X [HX [HXl HXr]]];
    [reflexivity
    |cbn [TrainableStftLayer_init stft_weight]; rewrite length_map;
     apply dft_matrix_rows
    |exact Hmix|].
  fold n_fft in HX, HXr. fold F in HX, HXr.
  set (pairs := map2 comp_mul
                  (map (fun m0 : list (list (R * R)) =>
                          (map_2 fst m0, map_2 snd m0)) (concat m))
                  (repeat_interleave C X)).
  assert (Hpl : length pairs = (B * C)%nat).
  { unfold pairs. rewrite map2_length, length_map.
    rewrite MisiDelta.repeat_interleave_length, HXl.
    match goal with
    | |- Nat.min ?a _ = _ =>
        replace a with (B * C)%nat by (symmetry; exact Hcl)
    end.
    apply Nat.min_id. }
  assert (Hpr : Forall (fun p => tensor2 F (q + 1) (fst p)
                                 /\ tensor2 F (q + 1) (snd p)) pairs).
  { unfold pairs.
    apply (Forall_map2
             (fun p : planes => tensor2 F (q + 1) (fst p)
                                /\ tensor2 F (q + 1) (snd p))
             (fun p : planes => tensor2 F (q + 1) (fst p)
                                /\ tensor2 F (q + 1) (snd p))).
    - intros x y. apply (comp_mul_shape hop).
    - apply Forall_map. eapply Forall_impl; [|exact Hcr].
      intros m0 Hm0. cbn [fst snd]. split; now apply tensor2_map_2.
    - now apply repeat_interleave_Forall. }
  destruct (loop_shape hop Hhop
              (map (fun _ => TrainableMisiLayer_init n_fft)
                   (Py.range layer_num))
              (map (fun S : planes => fst S ++ snd S) pairs)
              (map (fun S : planes =>
                      map2_2 (fun re im => norm2 (re, im)) (fst S) (snd S)
                      ++ map2_2 (fun re im => norm2 (re, im)) (fst S) (snd S))
                   pairs)
              mixture B C q) as [Shat [Hloop [HSl HSr]]].
  { apply Forall_map, Forall_forall. intros z _.
    apply (init_layer_shaped hop). }
  { exact HB. }
  { exact Hmix. }
  { now rewrite length_map. }
  { apply Forall_map. eapply Forall_impl; [|exact Hpr].
    intros p [Hre Him]. now apply tensor2_app. }
  { now rewrite length_map. }
  { apply Forall_map. eapply Forall_impl; [|exact Hpr].
    intros p [Hre Him].
    apply tensor2_app; now apply tensor2_map2_2. }
  fold n_fft in Hloop, HSr. fold F in HSr.
  set (waves := map (TrainableIstftLayer_forward
                       (TrainableIstftLayer_init n_fft)) Shat).
  assert (Hwl : length waves = (B * C)%nat)
    by (unfold waves; now rewrite length_map).
  assert (Hwr : Forall (fun row => length row = (q * hop)%nat) waves).
  { unfold waves. apply Forall_map.
    eapply Forall_impl; [|exact HSr]. intros S HS. cbv beta.
    rewrite (istft_length hop Hhop (TrainableIstftLayer_init n_fft)
               (F + F) (q + 1) S); [f_equal; lia|reflexivity|lia|exact HS]. }
  exists (chunks B C waves). split.
  - unfold TrainableMisiNetwork_forward. cbv beta iota zeta.
    rewrite H1, H2, H3, H4, (hd_length B (q * hop) mixture HB Hmix).
    cbn [TrainableMisiNetwork_init net_stft_layer net_istft_layer
         misi_layers].
    rewrite HX. cbn [bind].
    match goal with
    | |- bind ?f _ = _ => replace f with (Ok Shat) by (symmetry; exact Hloop)
    end.
    cbn [bind]. exact (reshape_intro B C (q * hop) waves Hwl Hwr).
  - destruct (chunks_shape B C waves Hwl) as [Hol Hor].
    split; [exact Hol|].
    pose proof (chunks_Forall _ B C waves Hwr) as Hrows.
    apply Forall_forall. intros item Hin.
    rewrite Forall_forall in Hor, Hrows.
    split; [now apply Hor|now apply Hrows].
Qed.

(** X12. [TrainableMisiNetwork(n_fft, layer_num)] with [n_fft = 4 hop],
    [hop >= 1], any [layer_num], answers a mask of shape
    (B, C, n_fft / 2 + 1, q + 1), real or complex, and [B >= 1] mixtures of
    [q * hop] samples, [C >= 1], [q >= 1], with [B] times [C] waveforms of
    [q * hop] samples: no step raises. *)
Theorem trainable_network_succeeds (hop q B C : nat) (layer_num : Z)
  (mask : mask_t) (mixture : list wave) :
  hop <> O -> q <> O -> B <> O -> C <> O ->
  mask_shape B C (4 * hop / 2 + 1) (q + 1) mask ->
  tensor2 B (q * hop) mixture ->
  exists out,
    TrainableMisiNetwork_forward
      (TrainableMisiNetwork_init (4 * hop) layer_num) mask mixture = Ok out
    /\ tensor3 B C (q * hop) out.
Proof.
  intros Hhop _ HB HC Hm Hmix.
  destruct mask as [m|m]; cbn [mask_shape] in Hm.
  - apply (forward_complex_shape hop q B C layer_num
             (map_4 (fun v => (v, 0)) m) mixture Hhop HB HC); [|exact Hmix].
    now apply tensor4_map_4.
  - now apply forward_complex_shape.
Qed.

Lemma trainable_network_succeeds_witness :
  exists out,
    TrainableMisiNetwork_forward (TrainableMisiNetwork_init (4 * 1) 2)
      (RealMask [[[[1; 1; 1]; [1; 1; 1]; [1; 1; 1]]]]) [[1; 2]] = Ok out
    /\ tensor3 1 1 (2 * 1) out.
Proof.
  apply (trainable_network_succeeds 1 2 1 1 2); try discriminate.
  - repeat constructor.
  - repeat constructor.
Defined.

End TrainableShapes.

(** ** The losses are not negative *)

Module LossSign.
Import Torch Losses.

Lemma sum_min_permutations_ge {E A} (sel : E -> list A)
  (cost : E -> list A -> R) (batch : list E) (v : R) :
  (forall e s, In e batch -> Permutation (sel e) s -> 0 <= cost e s) ->
  sum_min_permutations sel cost batch = Ok v ->
  0 <= v.
Proof.
  unfold sum_min_permutations, Py.sum_gen.
  revert v; induction batch as [|e batch IH]; intros v Hb; simpl.
  - intros [= <-]. unfold Py.sum; simpl. lra.
  - destruct (Py.min_gen _) as [m|] eqn:Hm; simpl; [|discriminate].
    destruct (collect _) as [ms|] eqn:Hc; simpl in *; [|discriminate].
    intros [= <-]. rewrite !sum_cons.
    assert (IH' : 0 <= Py.sum ms).
    { apply IH; [|reflexivity]. intros e' s Hin. apply Hb. now right. }
    assert (Hle : 0 <= m).
    { unfold Py.min_gen in Hm.
      destruct (collect _) as [cs|] eqn:Hcs in Hm; simpl in Hm;
        [|discriminate].
      apply min_spec in Hm as [Hin _].
      apply collect_ok_forall2 in Hcs.
      destruct (LossCePhase.Forall2_in_r _ _ _ _ Hcs Hin) as [r [Hr Heq]].
      apply in_map_iff in Hr as [s [<- Hs]].
      destruct (Torch.stack s) as [st|] eqn:Hst; simpl in Heq;
        [|discriminate].
      injection Heq as <-.
      assert (st = s) by (destruct s; simpl in Hst; congruence). subst st.
      apply Hb; [now left|]. now apply permutations_sound. }
    lra.
Qed.

Lemma sum1_all_nonneg (l : list R) :
  Forall (fun v => 0 <= v) l -> 0 <= sum1 l.
Proof. unfold sum1. induction 1; simpl; lra. Qed.

Lemma sum2_all_nonneg (t : list (list R)) :
  Forall (Forall (fun v => 0 <= v)) t -> 0 <= sum2 t.
Proof.
  unfold sum2. intros H. apply sum1_all_nonneg, Forall_map.
  eapply Forall_impl; [|exact H]. intros l. apply sum1_all_nonneg.
Qed.

Lemma sum3_all_nonneg (t : list (list (list R))) :
  all3 (fun v => 0 <= v) t -> 0 <= sum3 t.
Proof.
  unfold sum3, all3. intros H. apply sum1_all_nonneg, Forall_map.
  eapply Forall_impl; [|exact H]. intros l. apply sum2_all_nonneg.
Qed.

Lemma all3_map_3 {A B} (P : B -> Prop) (f : A -> B)
  (t : list (list (list A))) :
  (forall a, P (f a)) -> all3 P (map_3 f t).
Proof.
  intros Hf. unfold all3, map_3.
  apply Forall_map, Forall_forall; intros x _.
  apply Forall_map, Forall_forall; intros y _.
  apply Forall_map, Forall_forall; intros z _. apply Hf.
Qed.

Lemma Forall_map2_any {A B C} (P : C -> Prop) (f : A -> B -> C)
  (a : list A) (b : list B) :
  (forall x y, P (f x y)) -> Forall P (map2 f a b).
Proof.
  intros Hf. revert b.
  induction a as [|x a IH]; intros [|y b]; simpl; constructor; auto.
Qed.

Lemma Forall_map3_any {A B C D} (P : D -> Prop) (f : A -> B -> C -> D)
  (a : list A) (b : list B) (c : list C) :
  (forall x y z, P (f x y z)) -> Forall P (map3 f a b c).
Proof.
  intros Hf. revert b c.
  induction a as [|x a IH]; intros [|y b] [|z c]; simpl; constructor; auto.
Qed.

Lemma msa_cost_nonneg st X S : 0 <= msa_cost st X S.
Proof.
  unfold msa_cost. apply sum3_all_nonneg, all3_map_3.
  intros a. apply pow2_ge_0.
Qed.

Lemma tpsa_dist_nonneg (L : Z) (a b : R) : 0 <= tpsa_dist L a b.
Proof.
  unfold tpsa_dist. destruct (L =? 1)%Z; [apply Rabs_pos|apply pow2_ge_0].
Qed.

Lemma tpsa_cost_nonneg mag L gamma M X S : 0 <= tpsa_cost mag L gamma M X S.
Proof.
  unfold tpsa_cost. apply sum3_all_nonneg. unfold all3.
  apply Forall_map2_any. intros M_c S_c.
  apply Forall_map3_any. intros m s x.
  apply Forall_map3_any. intros m0 s0 x0. apply tpsa_dist_nonneg.
Qed.

(** A gathered probability is an entry of its row, or 0. *)
Lemma gathered_le_1 (row : list R) (i : nat) :
  Forall (fun p => p <= 1) row -> nth i row 0 <= 1.
Proof.
  intros H. destruct (Nat.lt_ge_cases i (length row)) as [Hi|Hi].
  - rewrite Forall_forall in H. now apply H, nth_In.
  - rewrite nth_overflow by exact Hi. lra.
Qed.

Lemma ce_cost_nonneg (st : list (list (list (list R))))
  (idx : list (list (list nat))) :
  all3 (Forall (fun p => p <= 1)) st -> 0 <= ce_cost st idx.
Proof.
  intros Hst. unfold ce_cost. apply sum3_all_nonneg.
  unfold all3, map_3, map2_3 in *.
  apply Forall_map.
  apply (TrainableShapes.Forall_map2
           (Forall (Forall (Forall (fun p => p <= 1))))
           (fun _ => True)); [|exact Hst|apply Forall_forall; auto].
  intros x y Hx _. apply Forall_map.
  apply (TrainableShapes.Forall_map2
           (Forall (Forall (fun p => p <= 1)))
           (fun _ => True)); [|exact Hx|apply Forall_forall; auto].
  intros x1 y1 Hx1 _. apply Forall_map.
  apply (TrainableShapes.Forall_map2
           (Forall (fun p => p <= 1))
           (fun _ => True)); [|exact Hx1|apply Forall_forall; auto].
  intros row i Hrow _. apply LossCePhase.nll_nonneg.
  now apply gathered_le_1.
Qed.

(** X13. A value returned by [loss_mi_msa] or [loss_mi_tpsa] is never
    negative, and neither is one returned by [loss_ce_phase] when no
    predicted probability exceeds 1. *)
Theorem losses_not_negative
  (mask : list (list (list (list R))))
  (mixture : list (list (list cplx)))
  (sources : list (list (list (list cplx)))) (gamma : R) (L : Z)
  (phase_prob_pred : list (list (list (list (list R)))))
  (phase_true : phase_truth) (phasebook : list R) :
  (forall v, loss_mi_msa mask mixture sources = Ok v -> 0 <= v)
  /\ (forall v, loss_mi_tpsa mask mixture sources gamma L = Ok v -> 0 <= v)
  /\ (Forall (all4 (fun p => p <= 1)) phase_prob_pred ->
      forall v,
        loss_ce_phase phase_prob_pred phase_true phasebook = Ok v ->
        0 <= v).
Proof.
  split; [|split].
  - intros v. rewrite PermutationInvariance.loss_mi_msa_eq.
    apply sum_min_permutations_ge. intros e s _ _. apply msa_cost_nonneg.
  - intros v.
    destruct (Z.eq_dec L 1) as [H1|H1];
      [|destruct (Z.eq_dec L 2) as [H2|H2]].
    + rewrite LossTpsa.loss_mi_tpsa_eq by now left.
      apply sum_min_permutations_ge. intros e s _ _.
      apply tpsa_cost_nonneg.
    + rewrite LossTpsa.loss_mi_tpsa_eq by now right.
      apply sum_min_permutations_ge. intros e s _ _.
      apply tpsa_cost_nonneg.
    + unfold loss_mi_tpsa. cbv zeta.
      apply Z.eqb_neq in H1, H2. rewrite H1, H2. discriminate.
  - intros Hp v. rewrite LossCePhase.loss_ce_phase_eq.
    destruct (argmin_last _ _) as [idx|e]; cbn [bind]; [|discriminate].
    apply sum_min_permutations_ge. intros [p i] s Hin Hperm.
    cbn [fst snd] in *. apply ce_cost_nonneg.
    unfold Py.zip in Hin. apply in_combine_l in Hin.
    rewrite Forall_forall in Hp. specialize (Hp p Hin).
    unfold all4 in Hp. unfold all3.
    apply Forall_forall. intros x Hx. rewrite Forall_forall in Hp.
    apply Hp. now apply (Permutation_in _ (Permutation_sym Hperm)).
Qed.

Lemma losses_not_negative_witness : 0 <= 36 * ln 10.
Proof.
  apply (proj2 (proj2 (losses_not_negative [] [] [] 1 1
                         [[[[[0; 1]]]]] (Radians [[[[0]]]]) [0; PI]))).
  - repeat constructor; lra.
  - exact LossCePhase.loss_ce_phase_zero_probability.
Defined.

End LossSign.

(** ** The items of [DSD100] under [MixTransform] *)

Module DatasetMixed.
Import Torch Datasets.

Section Files.
Variable dir : Type.
Variable source : Type.
Variable torchaudio_load : dir -> source -> Z -> Z -> outcome (list (list R)).

Lemma segment_sources (self : DSD100 dir source) (a k : Z)
  (x : list (list R)) (rate : Z) :
  DSD100_segment torchaudio_load self a k = Return (x, rate) ->
  sources self <> [].
Proof.
  unfold DSD100_segment.
  destruct (gather _) as [loaded|e] eqn:Hg; cbn [and_then]; [|discriminate].
  destruct (stack_same loaded) as [stacked|e] eqn:Hst; cbn [and_then];
    [|discriminate].
  intros _ Hs. rewrite Hs in Hg. simpl in Hg. injection Hg as <-.
  discriminate.
Qed.

Hypothesis load_shape : forall d s offset num_frames t,
  torchaudio_load d s offset num_frames = Return t ->
  t <> []
  /\ (Z.of_nat (length (hd [] t)) <= num_frames)%Z
  /\ Forall (fun r => length r = length (hd [] t)) t.

(** X14. [dataset[idx]] of a [DSD100] whose transform is a [MixTransform]
    with default coefficients over indices of its sources: whenever the
    item [x] of [idx] is loaded, the result has one row per entry of
    [source_lists], the plain sum of the selected rows of [x], and every
    row has exactly [waveform_length] samples; an exception of the loading
    is passed on. *)
Theorem dsd100_getitem_mixed (self : DSD100 dir source)
  (lists : list source_list) (idx : Z) :
  transform self = Some (MixTransform_call (MixTransform_init lists None)) ->
  lists <> [] ->
  Forall (fun s => in_range (length (sources self)) (indices s)) lists ->
  (forall x rate,
     _get_single_item torchaudio_load self idx = Return (x, rate) ->
     DSD100_getitem torchaudio_load self idx
     = Return (map (fun s => plain_sum x (indices s)) lists, rate)
     /\ Forall (fun row => Z.of_nat (length row) = waveform_length self)
               (map (fun s => plain_sum x (indices s)) lists))
  /\ (forall e,
        _get_single_item torchaudio_load self idx = Throw e ->
        DSD100_getitem torchaudio_load self idx = Throw e).
Proof.
  intros Htr Hne Hr. split.
  - intros x rate Hitem.
    assert (Hseg : exists a k,
      DSD100_segment torchaudio_load self a k = Return (x, rate)).
    { unfold _get_single_item in Hitem.
      destruct (getitem (offsets self) _) as [off|e]; cbn [and_then] in Hitem;
        [|discriminate].
      eauto. }
    destruct Hseg as [a [k Hseg]].
    pose proof (segment_sources self a k x rate Hseg) as Hsrc.
    destruct (DatasetItem.DSD100_segment_inv dir source torchaudio_load
                load_shape self a k x rate Hseg)
      as [loaded [_ [_ [Hlen [Hrows _]]]]].
    assert (Hhd : Z.of_nat (length (hd [] x)) = waveform_length self).
    { destruct x as [|row x']; [|now inversion Hrows].
      simpl in Hlen. destruct (sources self); [congruence|discriminate]. }
    assert (Hrect : Forall (fun r => length r = length (hd [] x)) x).
    { eapply Forall_impl; [|exact Hrows]. intros r Hrl. cbv beta in Hrl. lia. }
    rewrite <- Hlen in Hr.
    split.
    + unfold DSD100_getitem. rewrite Hitem. cbn [and_then]. rewrite Htr.
      now rewrite (Mixing.call_default_ok x lists Hne Hr).
    + apply Forall_map. eapply Forall_impl; [|exact Hr].
      intros s Hs. cbv beta. unfold plain_sum.
      rewrite Mixing.sum_rows_length; [exact Hhd|].
      now apply Mixing.selected_rows.
  - intros e He. unfold DSD100_getitem. now rewrite He.
Qed.

End Files.

Lemma dsd100_getitem_mixed_witness :
  let load := fun (_ _ : nat) (_ num_frames : Z) =>
    if (1 <=? num_frames)%Z then Return [[1]]
    else Throw (Builtin RuntimeError) in
  let lists := [Many [0%Z]; One 0%Z] in
  let self :=
    {| sources := [0%nat]; waveform_length := 2%Z; offsets := [0%Z; 3%Z];
       rates := [8000%Z]; source_dirs := [0%nat];
       transform := Some (MixTransform_call (MixTransform_init lists None)) |}
  in
  DSD100_getitem load self 0
  = Return (map (fun s => plain_sum [[(1 + 0) / INR 1; 0]] (indices s))
                lists, 8000%Z)
  /\ Forall (fun row => Z.of_nat (length row) = waveform_length self)
            (map (fun s => plain_sum [[(1 + 0) / INR 1; 0]] (indices s))
                 lists).
Proof.
  intros load lists self.
  apply (proj1 (dsd100_getitem_mixed nat nat load
    ltac:(intros d s o n t; unfold load;
          destruct (Z.leb_spec 1 n) as [Hn|Hn]; [|discriminate];
          intros [= <-]; simpl; split; [discriminate|];
          split; [lia|repeat constructor])
    self lists 0 eq_refl ltac:(discriminate)
    ltac:(repeat constructor; simpl; lia))).
  reflexivity.
Defined.

End DatasetMixed.

(** ** The trainable transforms are linear *)

Module TrainableLinear.
Import Torch Submodels.

Lemma dot_axpy (a : R) (w u v : list R) :
  length u = length v ->
  dot w (axpy a u v) = a * dot w u + dot w v.
Proof.
  unfold dot, axpy, sum1. revert u v.
  induction w as [|x w IH]; intros [|p u] [|q v] Hl; simpl in *;
    try discriminate; try lra.
  rewrite IH by lia. lra.
Qed.

Lemma axpy_length (a : R) (u v : list R) :
  length u = length v -> length (axpy a u v) = length u.
Proof.
  intros H. unfold axpy. rewrite map2_length, length_map. lia.
Qed.

Lemma axpy_app (a : R) (u1 u2 v1 v2 : list R) :
  length u1 = length v1 ->
  axpy a (u1 ++ u2) (v1 ++ v2) = axpy a u1 v1 ++ axpy a u2 v2.
Proof.
  unfold axpy. revert v1.
  induction u1 as [|p u1 IH]; intros [|q v1] Hl; simpl in *;
    try discriminate; [reflexivity|].
  now rewrite IH by lia.
Qed.

Lemma axpy_zeros (a : R) (n : nat) :
  axpy a (repeat 0 n) (repeat 0 n) = repeat 0 n.
Proof.
  unfold axpy. induction n as [|n IH]; simpl; [reflexivity|].
  rewrite IH. f_equal. lra.
Qed.

Lemma axpy_skipn (a : R) (k : nat) (u v : list R) :
  skipn k (axpy a u v) = axpy a (skipn k u) (skipn k v).
Proof.
  unfold axpy. revert u v.
  induction k as [|k IH]; intros [|p u] [|q v]; simpl; auto.
  now destruct (map (Rmult a) (skipn k u)).
Qed.

Lemma axpy_firstn (a : R) (k : nat) (u v : list R) :
  firstn k (axpy a u v) = axpy a (firstn k u) (firstn k v).
Proof.
  unfold axpy. revert u v.
  induction k as [|k IH]; intros [|p u] [|q v]; simpl; auto.
  now rewrite IH.
Qed.

Lemma nth_axpy (a : R) (u v : list R) (t : nat) :
  length u = length v ->
  nth t (axpy a u v) 0 = a * nth t u 0 + nth t v 0.
Proof.
  unfold axpy. revert u v.
  induction t as [|t IH]; intros [|p u] [|q v] Hl; simpl in *;
    try discriminate; try lra.
  apply IH. lia.
Qed.

Lemma sum1_axpy {A} (a : R) (f g : A -> R) (l : list A) :
  sum1 (map (fun t => a * f t + g t) l)
  = a * sum1 (map f l) + sum1 (map g l).
Proof.
  unfold sum1. induction l as [|t l IH]; simpl; [lra|]. rewrite IH. lra.
Qed.

(** [conv1d] is linear in the waveform. *)
Lemma conv1d_axpy (weight : list (list R)) (kernel stride padding : nat)
  (a : R) (x y : wave) :
  length x = length y ->
  conv1d weight kernel stride padding (axpy a x y)
  = axpy2 a (conv1d weight kernel stride padding x)
      (conv1d weight kernel stride padding y).
Proof.
  intros Hl. unfold conv1d, axpy2.
  rewrite !length_app, !repeat_length, (axpy_length a x y Hl), <- Hl.
  rewrite map2_map_l, map2_map_r, map2_same.
  apply map_ext. intros w.
  unfold axpy at 2. rewrite map_map, map2_map_l, map2_map_r, map2_same.
  apply map_ext. intros t.
  assert (Hpad : repeat 0 padding ++ axpy a x y ++ repeat 0 padding
                 = axpy a (repeat 0 padding ++ x ++ repeat 0 padding)
                     (repeat 0 padding ++ y ++ repeat 0 padding)).
  { rewrite axpy_app by now rewrite !repeat_length.
    rewrite axpy_app by exact Hl. now rewrite axpy_zeros. }
  rewrite Hpad, axpy_skipn, axpy_firstn.
  apply dot_axpy.
  now rewrite !length_firstn, !length_skipn, !length_app, !repeat_length, Hl.
Qed.

Lemma frame_axpy (a : R) (w xk yk : list R) (i stride kernel time : nat) :
  length xk = length yk ->
  sum1 (map (fun t =>
               if ((t * stride <=? i) && (i <? t * stride + kernel))%nat
               then nth t (axpy a xk yk) 0 * nth (i - t * stride) w 0
               else 0)
            (seq 0 time))
  = a * sum1 (map (fun t =>
                     if ((t * stride <=? i) && (i <? t * stride + kernel))%nat
                     then nth t xk 0 * nth (i - t * stride) w 0
                     else 0)
                  (seq 0 time))
    + sum1 (map (fun t =>
                   if ((t * stride <=? i) && (i <? t * stride + kernel))%nat
                   then nth t yk 0 * nth (i - t * stride) w 0
                   else 0)
                (seq 0 time)).
Proof.
  intros Hl. rewrite <- sum1_axpy. f_equal. apply map_ext. intros t.
  destruct (_ && _); [|lra]. rewrite nth_axpy by exact Hl. lra.
Qed.

Lemma rows_axpy (a : R) (weight x y : list (list R))
  (i stride kernel time : nat) :
  Forall2 (fun xk yk => length xk = length yk) x y ->
  sum1 (map2 (fun w xk =>
          sum1 (map (fun t =>
                  if ((t * stride <=? i) && (i <? t * stride + kernel))%nat
                  then nth t xk 0 * nth (i - t * stride) w 0
                  else 0)
                (seq 0 time)))
        weight (axpy2 a x y))
  = a * sum1 (map2 (fun w xk =>
          sum1 (map (fun t =>
                  if ((t * stride <=? i) && (i <? t * stride + kernel))%nat
                  then nth t xk 0 * nth (i - t * stride) w 0
                  else 0)
                (seq 0 time)))
        weight x)
    + sum1 (map2 (fun w xk =>
          sum1 (map (fun t =>
                  if ((t * stride <=? i) && (i <? t * stride + kernel))%nat
                  then nth t xk 0 * nth (i - t * stride) w 0
                  else 0)
                (seq 0 time)))
        weight y).
Proof.
  intros Hxy. revert weight.
  induction Hxy as [|xk yk x y Hl _ IH]; intros [|w weight];
    try (unfold sum1; simpl; lra).
  unfold axpy2. cbn [map2]. fold (axpy2 a x y).
  unfold sum1 in *. cbn [fold_right].
  fold (sum1 (map (fun t =>
                  if ((t * stride <=? i) && (i <? t * stride + kernel))%nat
                  then nth t (axpy a xk yk) 0 * nth (i - t * stride) w 0
                  else 0) (seq 0 time))).
  rewrite frame_axpy by exact Hl. unfold sum1. rewrite IH. lra.
Qed.

Lemma axpy2_hd (a : R) (T : nat) (x y : list (list R)) :
  length x = length y ->
  Forall (fun r => length r = T) x -> Forall (fun r => length r = T) y ->
  length (hd [] (axpy2 a x y)) = length (hd [] x)
  /\ length (hd [] y) = length (hd [] x)
  /\ Forall2 (fun xk yk => length xk = length yk) x y.
Proof.
  intros Hl Hx. revert y Hl.
  induction Hx as [|r x Hr Hx IH]; intros [|q y] Hl Hy; try discriminate.
  - repeat split. constructor.
  - inversion Hy as [|? ? Hq Hy']; subst. simpl in Hl.
    destruct (IH y ltac:(lia) Hy') as [_ [_ HF]].
    cbn [axpy2 map2 hd]. split; [|split].
    + rewrite axpy_length; congruence.
    + congruence.
    + constructor; [congruence|exact HF].
Qed.

(** X15. The two trainable transforms are linear whatever their weights:
    on waveforms of one length
    [stft_layer(a * x + y) = a * stft_layer(x) + stft_layer(y)], and on
    spectra of one shape
    [istft_layer(a * X + Y) = a * istft_layer(X) + istft_layer(Y)]. *)
Theorem trainable_transforms_linear (stft : TrainableStftLayer)
  (istft : TrainableIstftLayer) (a : R) :
  (forall x y : wave,
     length x = length y ->
     TrainableStftLayer_forward stft (axpy a x y)
     = axpy2 a (TrainableStftLayer_forward stft x)
         (TrainableStftLayer_forward stft y))
  /\ (forall (F T : nat) (X Y : list (list R)),
        tensor2 F T X -> tensor2 F T Y ->
        TrainableIstftLayer_forward istft (axpy2 a X Y)
        = axpy a (TrainableIstftLayer_forward istft X)
            (TrainableIstftLayer_forward istft Y)).
Proof.
  split.
  - intros x y Hl. unfold TrainableStftLayer_forward.
    now apply conv1d_axpy.
  - intros F T X Y [HXl HXr] [HYl HYr].
    destruct (axpy2_hd a T X Y ltac:(congruence) HXr HYr)
      as [Hz [Hy HF]].
    unfold TrainableIstftLayer_forward, conv_transpose1d.
    rewrite Hz, Hy. unfold axpy at 1.
    rewrite !map_map, map2_map_l, map2_map_r, map2_same.
    apply map_ext. intros i.
    rewrite rows_axpy by exact HF. unfold Rdiv. lra.
Qed.

Lemma trainable_transforms_linear_witness :
  TrainableStftLayer_forward (TrainableStftLayer_init 4)
    (axpy 2 [1; 0] [0; 1])
  = axpy2 2 (TrainableStftLayer_forward (TrainableStftLayer_init 4) [1; 0])
      (TrainableStftLayer_forward (TrainableStftLayer_init 4) [0; 1]).
Proof.
  apply (proj1 (trainable_transforms_linear (TrainableStftLayer_init 4)
                  (TrainableIstftLayer_init 4) 2)).
  reflexivity.
Defined.

End TrainableLinear.
